(** * GiveBit SDK: the dual-channel delivery subsystem

    A shallow embedding of [src/websocket.ts] (the persistent channel
    manager), [src/rest.ts] (the REST client with its fallback poller) and
    [src/index.ts] (the facade), and the properties of the specification
    stated over it.

    The TypeScript classes are event driven: every method and every handler
    runs to completion on the single event-loop thread.  Each of them is
    embedded as a function from the state before to the state after together
    with the list of effects it performed (console lines, socket calls,
    timers, listener calls, promise settlements).  What the JavaScript
    runtime owns (sockets and their [readyState], the timer table, the
    promises still pending) is a record next to the object's own fields. *)

From stdpp Require Import gmap strings list fin_maps pretty.
From Stdlib Require Import ZArith Lia.

Set Warnings "-register-all".

(* ===================================================================== *)
(** ** JavaScript values *)
(* ===================================================================== *)

Module JS.

(** What [JSON.parse] can return.  Numbers are the integers (time stamps,
    counters); an object keeps its members in source order. *)
Inductive json : Type :=
| JNull
| JBool (b : bool)
| JNum (n : Z)
| JStr (s : string)
| JArr (items : list json)
| JObj (members : list (string * json)).

(** ToBoolean. *)
Definition truthy (v : json) : bool :=
  match v with
  | JNull => false
  | JBool b => b
  | JNum n => negb (n =? 0)%Z
  | JStr s => negb (String.eqb s "")
  | JArr _ | JObj _ => true
  end.

(** A property read yields a value or [undefined] ([None]). *)
Definition truthy_opt (v : option json) : bool :=
  match v with
  | Some j => truthy j
  | None => false
  end.

(** Own property of a parsed object: of duplicate members the last wins. *)
Fixpoint member (k : string) (members : list (string * json)) : option json :=
  match members with
  | [] => None
  | (k', v) :: rest =>
      match member k rest with
      | Some later => Some later
      | None => if String.eqb k k' then Some v else None
      end
  end.

(** [v.k]: a TypeError on [null], the member on an object, [undefined] on
    the other values (none of the names read by the code, [id], [type],
    [data], [error], [session], [timestamp], exists on a boolean, number,
    string or array). *)
Inductive access : Type :=
| TypeError
| Got (v : option json).

Definition get (k : string) (v : json) : access :=
  match v with
  | JNull => TypeError
  | JObj members => Got (member k members)
  | _ => Got None
  end.

(** [a || b] on values. *)
Definition or_else (a : option json) (b : json) : json :=
  match a with
  | Some j => if truthy j then j else b
  | None => b
  end.

End JS.

(* ===================================================================== *)
(** ** src/types.ts *)
(* ===================================================================== *)

Module Types.
Import JS.

Record DonationSession : Type := mkSession {
  id : string;
  project_id : string;
  creator_wallet : string;
  donor_wallet : string;
  chain_id : Z;
  contract_address : string;
  amount : string;
  memo : string;
  status : string;
  created_at : string;
  tx_hash : string;
  session_id_hash : string;
  requires_confirmation : bool;
  estimated_confirmation_time : Z
}.

(** The session as the JSON object it was parsed from. *)
Definition session_json (s : DonationSession) : json :=
  JObj [ ("id", JStr (id s)); ("project_id", JStr (project_id s));
         ("creator_wallet", JStr (creator_wallet s));
         ("donor_wallet", JStr (donor_wallet s));
         ("chain_id", JNum (chain_id s));
         ("contract_address", JStr (contract_address s));
         ("amount", JStr (amount s)); ("memo", JStr (memo s));
         ("status", JStr (status s)); ("created_at", JStr (created_at s));
         ("tx_hash", JStr (tx_hash s));
         ("session_id_hash", JStr (session_id_hash s));
         ("requires_confirmation", JBool (requires_confirmation s));
         ("estimated_confirmation_time", JNum (estimated_confirmation_time s)) ].

(** A session with the given identifier and status, for examples. *)
Definition sample_session (i st : string) : DonationSession :=
  mkSession i "project" "0xC0FFEE" "" 17000 "0x5081" "1000000" "" st
    "2024-01-01T00:00:00Z" "" "" false 30.

(** [DonationEvent].  The declared type of [type] is a union of six
    strings and that of [timestamp] is [number]; at run time the fields
    hold whatever the constructing code put there, so they are values. *)
Record DonationEvent : Type := mkEvent {
  type : json;
  session : option json;
  timestamp : json;
  error : option json
}.

(** The six members of the union [DonationEvent.type]. *)
Definition event_kinds : list string :=
  [ "connection_open"; "connection_lost"; "donation_pending";
    "donation_confirmed"; "donation_finalized"; "donation_failed" ].

(** [EventCallback]: a function of the application, known by its
    identity, or the closure [(data) => this.broadcastEvent(data)] the
    facade registers on its channel manager. *)
Inductive EventCallback : Type :=
| Subscriber (n : nat)
| Forwarder.

#[export] Instance EventCallback_eq_dec : EqDecision EventCallback.
Proof. solve_decision. Defined.

End Types.

(* ===================================================================== *)
(** ** src/websocket.ts: the persistent channel manager *)
(* ===================================================================== *)

Module WS.
Import JS Types.

(** [WebSocket.readyState]. *)
Inductive ReadyState : Type := CONNECTING | OPEN | CLOSING | CLOSED.

#[export] Instance ReadyState_eq_dec : EqDecision ReadyState.
Proof. solve_decision. Defined.

(** [interface PendingCallback]: [resolve] and [reject] are the two
    functions of one promise, named here by that promise; [timeout] is the
    handle of the request's timer. *)
Record PendingCallback : Type := mkPending {
  promise : nat;
  timeout : nat
}.

(** The fields of [class WebSocketManager].  [ws] holds a socket of the
    runtime or [null]. *)
Record WebSocketManager : Type := mkManager {
  ws : option nat;
  url : string;
  apiKey : string;
  projectId : string;
  reconnectAttempts : Z;
  maxReconnectAttempts : Z;
  reconnectDelay : Z;
  heartbeatInterval : option nat;
  listeners : gmap string (list EventCallback);
  pendingRequests : gmap string PendingCallback;
  messageId : Z
}.

(** The callbacks the manager hands to [setInterval] and [setTimeout]. *)
Inductive task : Type :=
| Heartbeat
| Reconnect
| RequestTimeout (id : string) (p : nat).

(** Who waits for a promise: the caller of the public method that returned
    it, or the [.catch(console.error)] of the reconnect timer. *)
Inductive holder : Type := Caller | Catcher.

(** What a promise is rejected with. *)
Inductive failure : Type :=
| NotConnected
| TimedOut
| ReplyError (e : json)
| Raised (what : string).

Inductive settlement : Type :=
| Resolved (v : option json)
| Rejected (e : failure).

(** The part of the JavaScript runtime the manager talks to: every socket
    constructed so far with its [readyState] and the promise of the
    [connect()] call that constructed it, the armed timers with their delay,
    the promises not yet settled, the next unused handle, and the exception
    [new WebSocket(url, ...)] throws for the manager's url, if it throws. *)
Record runtime : Type := mkRuntime {
  sockets : gmap nat (ReadyState * nat);
  timers : gmap nat (Z * task);
  promises : gmap nat holder;
  fresh : nat;
  constructor_throws : option string
}.

Record world : Type := mkWorld {
  mgr : WebSocketManager;
  rt : runtime
}.

Inductive line : Type :=
| LConnected
| LDisconnected
| LSocketError (what : string)
| LParseFailure
| LReconnecting (delay attempt limit : Z)
| LMaxAttempts
| LUncaught (e : failure).

Inductive effect : Type :=
| Console (l : line)
| Construct (s : nat)
| Transmit (s : nat) (message : json)
| Ping (s : nat)
| Close (s : nat)
| SetTimer (t : nat) (ms : Z) (k : task)
| ClearTimer (t : nat)
| Call (cb : EventCallback) (ev : DonationEvent)
| Settle (p : nat) (r : settlement).

(** A method or handler: the world after it and what it did. *)
Definition action : Type := world -> world * list effect.

Definition skip : action := fun w => (w, []).

Definition tell (e : effect) : action := fun w => (w, [e]).

Definition andthen (a b : action) : action :=
  fun w =>
    let '(w1, e1) := a w in
    let '(w2, e2) := b w1 in
    (w2, e1 ++ e2).

Notation "a >>> b" := (andthen a b) (at level 90, right associativity).

(** Field assignments. *)
Definition assign_ws (v : option nat) : action := fun w =>
  let m := mgr w in
  (mkWorld (mkManager v (url m) (apiKey m) (projectId m) (reconnectAttempts m)
              (maxReconnectAttempts m) (reconnectDelay m) (heartbeatInterval m)
              (listeners m) (pendingRequests m) (messageId m)) (rt w), []).

Definition assign_reconnectAttempts (v : Z) : action := fun w =>
  let m := mgr w in
  (mkWorld (mkManager (ws m) (url m) (apiKey m) (projectId m) v
              (maxReconnectAttempts m) (reconnectDelay m) (heartbeatInterval m)
              (listeners m) (pendingRequests m) (messageId m)) (rt w), []).

Definition assign_heartbeatInterval (v : option nat) : action := fun w =>
  let m := mgr w in
  (mkWorld (mkManager (ws m) (url m) (apiKey m) (projectId m) (reconnectAttempts m)
              (maxReconnectAttempts m) (reconnectDelay m) v
              (listeners m) (pendingRequests m) (messageId m)) (rt w), []).

Definition assign_listeners (v : gmap string (list EventCallback)) : action := fun w =>
  let m := mgr w in
  (mkWorld (mkManager (ws m) (url m) (apiKey m) (projectId m) (reconnectAttempts m)
              (maxReconnectAttempts m) (reconnectDelay m) (heartbeatInterval m)
              v (pendingRequests m) (messageId m)) (rt w), []).

Definition assign_pendingRequests (v : gmap string PendingCallback) : action := fun w =>
  let m := mgr w in
  (mkWorld (mkManager (ws m) (url m) (apiKey m) (projectId m) (reconnectAttempts m)
              (maxReconnectAttempts m) (reconnectDelay m) (heartbeatInterval m)
              (listeners m) v (messageId m)) (rt w), []).

Definition assign_messageId (v : Z) : action := fun w =>
  let m := mgr w in
  (mkWorld (mkManager (ws m) (url m) (apiKey m) (projectId m) (reconnectAttempts m)
              (maxReconnectAttempts m) (reconnectDelay m) (heartbeatInterval m)
              (listeners m) (pendingRequests m) v) (rt w), []).

(** Runtime primitives. *)
Definition with_runtime (f : runtime -> runtime) : action := fun w =>
  (mkWorld (mgr w) (f (rt w)), []).

Definition take_handle (r : runtime) : runtime :=
  mkRuntime (sockets r) (timers r) (promises r) (S (fresh r)) (constructor_throws r).

Definition put_socket (s : nat) (v : ReadyState * nat) (r : runtime) : runtime :=
  mkRuntime (<[s := v]> (sockets r)) (timers r) (promises r) (fresh r)
    (constructor_throws r).

Definition put_timer (t : nat) (v : Z * task) (r : runtime) : runtime :=
  mkRuntime (sockets r) (<[t := v]> (timers r)) (promises r) (fresh r)
    (constructor_throws r).

Definition drop_timer (t : nat) (r : runtime) : runtime :=
  mkRuntime (sockets r) (delete t (timers r)) (promises r) (fresh r)
    (constructor_throws r).

Definition put_promise (p : nat) (h : holder) (r : runtime) : runtime :=
  mkRuntime (sockets r) (timers r) (<[p := h]> (promises r)) (fresh r)
    (constructor_throws r).

Definition drop_promise (p : nat) (r : runtime) : runtime :=
  mkRuntime (sockets r) (timers r) (delete p (promises r)) (fresh r)
    (constructor_throws r).

(** [readyState] of a socket the runtime knows. *)
Definition readyState (r : runtime) (s : nat) : option ReadyState :=
  fst <$> sockets r !! s.

Definition set_readyState (s : nat) (st : ReadyState) (r : runtime) : runtime :=
  match sockets r !! s with
  | Some (_, p) => put_socket s (st, p) r
  | None => r
  end.

(** [setInterval(k, ms)] and [setTimeout(k, ms)]: the timer is armed under
    the next unused handle, which [use] receives. *)
Definition arm (ms : Z) (k : task) (use : nat -> action) : action := fun w =>
  let t := fresh (rt w) in
  (with_runtime (fun r => take_handle (put_timer t (ms, k) r))
     >>> tell (SetTimer t ms k) >>> use t) w.

(** [clearInterval(t)] and [clearTimeout(t)]. *)
Definition disarm (t : nat) : action :=
  with_runtime (drop_timer t) >>> tell (ClearTimer t).

(** [new Promise(...)]: pending, waited for by [h]. *)
Definition new_promise (h : holder) (use : nat -> action) : action := fun w =>
  let p := fresh (rt w) in
  (with_runtime (fun r => take_handle (put_promise p h r)) >>> use p) w.

(** A call of [resolve] or [reject] of promise [p].  Only the first call
    settles it; its holder then observes the settlement, and the
    [.catch(console.error)] of a reconnect prints a rejection. *)
Definition settle (p : nat) (r : settlement) : action := fun w =>
  match promises (rt w) !! p with
  | Some Caller => (with_runtime (drop_promise p) >>> tell (Settle p r)) w
  | Some Catcher =>
      (with_runtime (drop_promise p) >>>
       match r with
       | Rejected e => tell (Console (LUncaught e))
       | Resolved _ => skip
       end) w
  | None => (w, [])
  end.

(** [ws.close()]: a socket that is connecting or open starts closing; one
    that is closing or closed stays as it is. *)
Definition socket_close (s : nat) : action := fun w =>
  (match readyState (rt w) s with
   | Some CONNECTING | Some OPEN => with_runtime (set_readyState s CLOSING)
   | _ => skip
   end >>> tell (Close s)) w.

(** [Map.get] with a key that is a value: only a string can be a key. *)
Definition map_get {A : Type} (m : gmap string A) (key : json) : option A :=
  match key with
  | JStr k => m !! k
  | _ => None
  end.

(** [private emit(event, data)]: each callback registered for [event] is
    called in order inside its own try/catch. *)
Definition emit (event : json) (data : DonationEvent) : action := fun w =>
  match map_get (listeners (mgr w)) event with
  | Some callbacks => (w, (fun cb => Call cb data) <$> callbacks)
  | None => (w, [])
  end.

(** [{} as DonationSession]. *)
Definition empty_session : json := JObj [].

(** [private startHeartbeat()]. *)
Definition startHeartbeat : action :=
  arm 30000 Heartbeat (fun t => assign_heartbeatInterval (Some t)).

(** [private stopHeartbeat()].  The handle is a [NodeJS.Timeout] object, so
    [if (this.heartbeatInterval)] holds exactly when it is not [null]. *)
Definition stopHeartbeat : action := fun w =>
  match heartbeatInterval (mgr w) with
  | Some t => (disarm t >>> assign_heartbeatInterval None) w
  | None => (w, [])
  end.

(** [public connect()], waited for by [h].  The handlers installed on the
    new socket are [onopen], [onmessage], [onerror] and [onclose] below;
    [resolve] and [reject] in them are those of this call's promise. *)
Definition connect (h : holder) : action :=
  new_promise h (fun p w =>
    match constructor_throws (rt w) with
    | Some e => settle p (Rejected (Raised e)) w
    | None =>
        let s := fresh (rt w) in
        (with_runtime (fun r => take_handle (put_socket s (CONNECTING, p) r))
           >>> tell (Construct s) >>> assign_ws (Some s)) w
    end).

(** [private attemptReconnect()]. *)
Definition attemptReconnect : action := fun w =>
  if (reconnectAttempts (mgr w) <? maxReconnectAttempts (mgr w))%Z then
    (assign_reconnectAttempts (reconnectAttempts (mgr w) + 1) >>>
     (fun w1 =>
        let delay :=
          (reconnectDelay (mgr w1) * 2 ^ (reconnectAttempts (mgr w1) - 1))%Z in
        (tell (Console (LReconnecting delay (reconnectAttempts (mgr w1))
                          (maxReconnectAttempts (mgr w1)))) >>>
         arm delay Reconnect (fun _ => skip)) w1)) w
  else
    tell (Console LMaxAttempts) w.

(** [ws.onopen]; [p] is the promise of the [connect()] call that made the
    socket, [now] is [Date.now()]. *)
Definition onopen (p : nat) (now : Z) : action :=
  tell (Console LConnected) >>>
  assign_reconnectAttempts 0 >>>
  startHeartbeat >>>
  emit (JStr "connection_open")
    (mkEvent (JStr "connection_open") (Some empty_session) (JNum now) None) >>>
  settle p (Resolved None).

(** [ws.onerror]. *)
Definition onerror (p : nat) (what : string) : action :=
  tell (Console (LSocketError what)) >>>
  settle p (Rejected (Raised what)).

(** [ws.onclose]. *)
Definition onclose (now : Z) : action :=
  tell (Console LDisconnected) >>>
  stopHeartbeat >>>
  emit (JStr "connection_lost")
    (mkEvent (JStr "connection_lost") (Some empty_session) (JNum now) None) >>>
  attemptReconnect.

(** The reply branch of [handleMessage]: [id] is the key found in
    [pendingRequests]. *)
Definition handleReply (id : string) (pending : PendingCallback)
    (err data : option json) : action :=
  disarm (timeout pending) >>>
  (fun w => assign_pendingRequests (delete id (pendingRequests (mgr w))) w) >>>
  match err with
  | Some e =>
      if truthy e then settle (promise pending) (Rejected (ReplyError e))
      else settle (promise pending) (Resolved data)
  | None => settle (promise pending) (Resolved data)
  end.

(** The event of the second branch of [handleMessage]. *)
Definition buildEvent (ty : json) (sess ts err : option json) (now : Z)
    : DonationEvent :=
  mkEvent ty sess (or_else ts (JNum now)) err.

(** What the six reads of [message] yield; the first of them raises a
    TypeError when [message] is [null]. *)
Record frame : Type := mkFrame {
  f_id : option json;
  f_type : option json;
  f_data : option json;
  f_error : option json;
  f_session : option json;
  f_timestamp : option json
}.

Definition read (k : string) (message : json) : option json :=
  match get k message with
  | Got v => v
  | TypeError => None
  end.

Definition fields (message : json) : option frame :=
  match message with
  | JNull => None
  | _ =>
      Some (mkFrame (read "id" message) (read "type" message) (read "data" message)
              (read "error" message) (read "session" message)
              (read "timestamp" message))
  end.

(** [message.id && this.pendingRequests.has(message.id)], with the entry
    [get] then finds. *)
Definition matching (m : WebSocketManager) (mid : option json)
    : option (string * PendingCallback) :=
  if truthy_opt mid then
    match mid with
    | Some (JStr k) => (fun pending => (k, pending)) <$> pendingRequests m !! k
    | _ => None
    end
  else None.

(** [private handleMessage(data)]; [parsed] is the result of
    [JSON.parse(data)], [None] when it throws. *)
Definition handleMessage (parsed : option json) (now : Z) : action := fun w =>
  match parsed with
  | None => tell (Console LParseFailure) w
  | Some message =>
      match fields message with
      | None => tell (Console LParseFailure) w
      | Some f =>
          match matching (mgr w) (f_id f) with
          | Some (k, pending) => handleReply k pending (f_error f) (f_data f) w
          | None =>
              match f_type f with
              | Some ty =>
                  if truthy ty
                  then emit ty (buildEvent ty (f_session f) (f_timestamp f)
                                  (f_error f) now) w
                  else (w, [])
              | None => (w, [])
              end
          end
      end
  end.

(** [String(n)] for the integers [messageId] goes through. *)
Definition String_of (n : Z) : string := pretty n.

(** [public send(data)]; [data] holds the members of the payload object,
    [thrown] is the exception [this.ws.send(JSON.stringify(message))]
    raises, if it raises. *)
Definition send (data : list (string * json)) (thrown : option string) : action :=
  new_promise Caller (fun p w =>
    match ws (mgr w) with
    | None => settle p (Rejected NotConnected) w
    | Some s =>
        match readyState (rt w) s with
        | Some OPEN =>
            let n := (messageId (mgr w) + 1)%Z in
            let id := String_of n in
            let message := JObj (("id", JStr id) :: data) in
            (assign_messageId n >>>
             arm 15000 (RequestTimeout id p) (fun t =>
               (fun w1 => assign_pendingRequests
                            (<[id := mkPending p t]> (pendingRequests (mgr w1))) w1) >>>
               match thrown with
               | None => tell (Transmit s message)
               | Some e =>
                   disarm t >>>
                   (fun w1 => assign_pendingRequests
                                (delete id (pendingRequests (mgr w1))) w1) >>>
                   settle p (Rejected (Raised e))
               end)) w
        | _ => settle p (Rejected NotConnected) w
        end
    end).

(** The timer callback of [send]. *)
Definition requestTimedOut (id : string) (p : nat) : action :=
  (fun w => assign_pendingRequests (delete id (pendingRequests (mgr w))) w) >>>
  settle p (Rejected TimedOut).

(** The interval callback of [startHeartbeat]. *)
Definition heartbeat : action := fun w =>
  match ws (mgr w) with
  | Some s =>
      match readyState (rt w) s with
      | Some OPEN => tell (Ping s) w
      | _ => (w, [])
      end
  | None => (w, [])
  end.

(** [public on(event, callback)]. *)
Definition on (event : string) (callback : EventCallback) : action := fun w =>
  let callbacks := default [] (listeners (mgr w) !! event) in
  assign_listeners (<[event := callbacks ++ [callback]]> (listeners (mgr w))) w.

(** [callbacks.indexOf(callback)] then [splice(index, 1)]. *)
Fixpoint remove_first (callback : EventCallback) (callbacks : list EventCallback)
    : list EventCallback :=
  match callbacks with
  | [] => []
  | cb :: rest =>
      if decide (cb = callback) then rest else cb :: remove_first callback rest
  end.

(** [public off(event, callback)]. *)
Definition off (event : string) (callback : EventCallback) : action := fun w =>
  match listeners (mgr w) !! event with
  | Some callbacks =>
      assign_listeners
        (<[event := remove_first callback callbacks]> (listeners (mgr w))) w
  | None => (w, [])
  end.

(** [public disconnect()]. *)
Definition disconnect : action :=
  stopHeartbeat >>>
  (fun w =>
     match ws (mgr w) with
     | Some s => (socket_close s >>> assign_ws None) w
     | None => (w, [])
     end).

(** [public isConnected()]. *)
Definition isConnected (w : world) : bool :=
  match ws (mgr w) with
  | Some s => bool_decide (readyState (rt w) s = Some OPEN)
  | None => false
  end.

(** [new WebSocketManager(url, apiKey, projectId, max, delay)] in a runtime
    that has handed out nothing yet. *)
Definition create (url apiKey projectId : string) (max delay : Z)
    (throws : option string) : world :=
  mkWorld (mkManager None url apiKey projectId 0 max delay None ∅ ∅ 0)
          (mkRuntime ∅ ∅ ∅ 0 throws).

(** What happens to a manager: calls of its public methods by its owner,
    and the runtime delivering a socket event or firing a timer. *)
Inductive event : Type :=
| CallConnect
| CallDisconnect
| CallSend (data : list (string * json)) (thrown : option string)
| CallOn (kind : string) (cb : EventCallback)
| CallOff (kind : string) (cb : EventCallback)
| Opened (s : nat) (now : Z)
| Message (s : nat) (parsed : option json) (now : Z)
| Errored (s : nat) (what : string)
| Closed (s : nat) (now : Z)
| Fired (t : nat).

(** The runtime sets [readyState] before it calls [onopen] and [onclose];
    a timeout leaves the timer table when it fires, an interval stays. *)
Definition step (e : event) : action := fun w =>
  match e with
  | CallConnect => connect Caller w
  | CallDisconnect => disconnect w
  | CallSend data thrown => send data thrown w
  | CallOn kind cb => on kind cb w
  | CallOff kind cb => off kind cb w
  | Opened s now =>
      match sockets (rt w) !! s with
      | Some (_, p) => (with_runtime (set_readyState s OPEN) >>> onopen p now) w
      | None => (w, [])
      end
  | Message s parsed now =>
      match sockets (rt w) !! s with
      | Some _ => handleMessage parsed now w
      | None => (w, [])
      end
  | Errored s what =>
      match sockets (rt w) !! s with
      | Some (_, p) => onerror p what w
      | None => (w, [])
      end
  | Closed s now =>
      match sockets (rt w) !! s with
      | Some _ => (with_runtime (set_readyState s CLOSED) >>> onclose now) w
      | None => (w, [])
      end
  | Fired t =>
      match timers (rt w) !! t with
      | Some (_, Heartbeat) => heartbeat w
      | Some (_, Reconnect) => (with_runtime (drop_timer t) >>> connect Catcher) w
      | Some (_, RequestTimeout id p) =>
          (with_runtime (drop_timer t) >>> requestTimedOut id p) w
      | None => (w, [])
      end
  end.

(** Whether the runtime can deliver [e] in [w]: [open] comes from a
    connecting socket, a message from one that is open or closing, [error]
    and [close] from one that is not closed yet, and only an armed timer
    fires.  The owner may call any method at any time. *)
Definition deliverable (w : world) (e : event) : bool :=
  match e with
  | Opened s _ => bool_decide (readyState (rt w) s = Some CONNECTING)
  | Message s _ _ =>
      bool_decide (readyState (rt w) s = Some OPEN)
      || bool_decide (readyState (rt w) s = Some CLOSING)
  | Errored s _ | Closed s _ =>
      match readyState (rt w) s with
      | Some CONNECTING | Some OPEN | Some CLOSING => true
      | _ => false
      end
  | Fired t => bool_decide (is_Some (timers (rt w) !! t))
  | _ => true
  end.

(** A history: the events in order, each run on the world the previous one
    left. *)
Fixpoint run (es : list event) : action :=
  match es with
  | [] => skip
  | e :: rest => step e >>> run rest
  end.

(** A history the runtime can produce. *)
Fixpoint possible (w : world) (es : list event) : bool :=
  match es with
  | [] => true
  | e :: rest => deliverable w e && possible (fst (step e w)) rest
  end.

(** An action keeps [Inv] and performs only effects satisfying [Q]. *)
Definition preserves (Inv : world -> Prop) (Q : effect -> Prop) (a : action) : Prop :=
  ∀ w, Inv w -> Inv (a w).1 ∧ Forall Q (a w).2.

End WS.

(* ===================================================================== *)
(** ** src/config.ts *)
(* ===================================================================== *)

Module Config.

Inductive GiveBitMode : Type := testnet | mainnet.

Record endpoints : Type := mkEndpoints {
  apiEndpoint : string;
  wsEndpoint : string;
  chainId : Z;
  contractAddress : string
}.

Definition getConfig (mode : GiveBitMode) : endpoints :=
  match mode with
  | testnet =>
      mkEndpoints "https://testnet.zidanmutaqin.dev/api"
        "wss://testnet.zidanmutaqin.dev/api/ws" 17000
        "0x5081968D6D4a1124D0B61C5E01F60dF928110ECE"
  | mainnet =>
      mkEndpoints "https://mainnet.zidanmutaqin.dev/api"
        "wss://mainnet.zidanmutaqin.dev/api/ws" 1 "0x"
  end.

Definition RECONNECT_ATTEMPTS : Z := 5.
Definition RECONNECT_DELAY : Z := 3000.
Definition WS_HEARTBEAT_INTERVAL : Z := 30000.
Definition REST_FALLBACK_INTERVAL : Z := 5000.
Definition REQUEST_TIMEOUT : Z := 15000.

End Config.

(* ===================================================================== *)
(** ** src/rest.ts: the REST client and its fallback poller *)
(* ===================================================================== *)

Module Rest.
Import JS Types.

(** The fields of [class RestClient]. *)
Record RestClient : Type := mkClient {
  baseUrl : string;
  apiKey : string;
  projectId : string;
  pollingIntervals : gmap string nat
}.

(** The callback given to [startPolling]: a function of the application,
    known by its identity and by the sessions it raises an exception on, or
    the closure of [GiveBit.createDonationSession], whose body is one call
    of [broadcastEvent] and raises nothing. *)
Inductive PollCallback : Type :=
| Observer (n : nat) (raises : DonationSession -> bool)
| Broadcaster.

Definition raises_on (cb : PollCallback) (s : DonationSession) : bool :=
  match cb with
  | Observer _ raises => raises s
  | Broadcaster => false
  end.

(** [amount: number | string]. *)
Inductive Amount : Type :=
| AmountNumber (n : Z)
| AmountString (s : string).

(** The argument of [createDonationSession]; a member that is missing at
    run time is [None]. *)
Record options : Type := mkOptions {
  amount : Amount;
  currency : string;
  network : string;
  creatorWallet : option string;
  donorWallet : option string;
  metadata : option json
}.

(** What [fetch] comes back with: a rejection, or a response with its
    [ok], [statusText], [text()] and [json()] ([None] when the body does
    not parse). *)
Inductive reply : Type :=
| Unreachable (what : string)
| Response (ok : bool) (statusText : string) (text : string)
    (body : option DonationSession).

Inductive request : Type :=
| POST_session (body : json)
| GET_session (sessionId : string).

Inductive failure : Type :=
| WalletRequired
| CreateFailed (text : string)
| GetFailed (statusText : string)
| Raised (what : string).

Inductive outcome : Type :=
| Fulfilled (s : DonationSession)
| Failed (e : failure).

(** The runtime of the client: the armed intervals, each with the
    [sessionId] and [callback] its closure captured; the fetches in flight,
    those of a tick with the same captured pair, those of a create call;
    the next unused handle. *)
Record runtime : Type := mkRuntime {
  intervals : gmap nat (string * PollCallback);
  polls : gmap nat (string * PollCallback);
  creates : gset nat;
  fresh : nat
}.

Record world : Type := mkWorld {
  client : RestClient;
  rt : runtime
}.

Inductive effect : Type :=
| PollingError (sessionId : string)
| Fetch (f : nat) (r : request)
| SetInterval (t : nat) (ms : Z) (sessionId : string) (cb : PollCallback)
| ClearInterval (t : nat)
| CallPoll (cb : PollCallback) (s : DonationSession)
| Settle (c : nat) (r : outcome).

Definition action : Type := world -> world * list effect.

Definition skip : action := fun w => (w, []).

Definition tell (e : effect) : action := fun w => (w, [e]).

Definition andthen (a b : action) : action :=
  fun w =>
    let '(w1, e1) := a w in
    let '(w2, e2) := b w1 in
    (w2, e1 ++ e2).

Notation "a >>> b" := (andthen a b) (at level 90, right associativity).

Definition assign_pollingIntervals (v : gmap string nat) : action := fun w =>
  let c := client w in
  (mkWorld (mkClient (baseUrl c) (apiKey c) (projectId c) v) (rt w), []).

Definition with_runtime (f : runtime -> runtime) : action := fun w =>
  (mkWorld (client w) (f (rt w)), []).

Definition take_handle (r : runtime) : runtime :=
  mkRuntime (intervals r) (polls r) (creates r) (S (fresh r)).

Definition put_interval (t : nat) (v : string * PollCallback) (r : runtime) : runtime :=
  mkRuntime (<[t := v]> (intervals r)) (polls r) (creates r) (fresh r).

Definition drop_interval (t : nat) (r : runtime) : runtime :=
  mkRuntime (delete t (intervals r)) (polls r) (creates r) (fresh r).

Definition put_poll (f : nat) (v : string * PollCallback) (r : runtime) : runtime :=
  mkRuntime (intervals r) (<[f := v]> (polls r)) (creates r) (fresh r).

Definition drop_poll (f : nat) (r : runtime) : runtime :=
  mkRuntime (intervals r) (delete f (polls r)) (creates r) (fresh r).

Definition put_create (c : nat) (r : runtime) : runtime :=
  mkRuntime (intervals r) (polls r) ({[c]} ∪ creates r) (fresh r).

Definition drop_create (c : nat) (r : runtime) : runtime :=
  mkRuntime (intervals r) (polls r) (creates r ∖ {[c]}) (fresh r).

(** [clearInterval(t)]. *)
Definition clearInterval (t : nat) : action :=
  with_runtime (drop_interval t) >>> tell (ClearInterval t).

(** A string holds a JavaScript string by the bytes of its UTF-8 encoding
    (a lone surrogate encoded like any other code point, so that every
    JavaScript string has one).  [encode] is the string of a list of byte
    values. *)
Definition encode (bytes : list nat) : string :=
  foldr (fun n s => String (Ascii.ascii_of_nat n) s) EmptyString bytes.

(** What [String.prototype.trim] strips, the WhiteSpace and LineTerminator
    code points of ECMAScript, each by its encoding: U+0009 to U+000D,
    U+0020, U+00A0, U+1680, U+2000 to U+200A, U+2028, U+2029, U+202F,
    U+205F, U+3000 and U+FEFF. *)
Definition white_space : list string :=
  encode <$>
    [ [9]; [10]; [11]; [12]; [13]; [32];
      [194; 160];
      [225; 154; 128];
      [226; 128; 128]; [226; 128; 129]; [226; 128; 130]; [226; 128; 131];
      [226; 128; 132]; [226; 128; 133]; [226; 128; 134]; [226; 128; 135];
      [226; 128; 136]; [226; 128; 137]; [226; 128; 138];
      [226; 128; 168]; [226; 128; 169];
      [226; 128; 175];
      [226; 129; 159];
      [227; 128; 128];
      [239; 187; 191] ]%nat.

(** Whether [c], the encoding of one code point, is one [trim] strips. *)
Definition is_whitespace (c : string) : bool := bool_decide (c ∈ white_space).

(** The string without the white space it starts with.  An encoded code
    point takes one to four bytes and no encoding begins another, so the
    first code point is white space exactly when the first byte, the first
    two or the first three are the encoding of one. *)
Fixpoint trim_start (s : string) : string :=
  match s with
  | EmptyString => s
  | String a r1 =>
      if is_whitespace (String a EmptyString) then trim_start r1
      else
        match r1 with
        | EmptyString => s
        | String b r2 =>
            if is_whitespace (String a (String b EmptyString)) then trim_start r2
            else
              match r2 with
              | EmptyString => s
              | String c r3 =>
                  if is_whitespace (String a (String b (String c EmptyString)))
                  then trim_start r3
                  else s
              end
        end
  end.

(** The same from the end, on the string read backwards: [s] begins with
    the last byte.  The encoding of a code point begins with a byte that
    occurs nowhere else in an encoding, so the last code point is white
    space exactly when the last byte, the last two or the last three are
    the encoding of one. *)
Fixpoint trim_backwards (s : string) : string :=
  match s with
  | EmptyString => s
  | String c r1 =>
      if is_whitespace (String c EmptyString) then trim_backwards r1
      else
        match r1 with
        | EmptyString => s
        | String b r2 =>
            if is_whitespace (String b (String c EmptyString)) then trim_backwards r2
            else
              match r2 with
              | EmptyString => s
              | String a r3 =>
                  if is_whitespace (String a (String b (String c EmptyString)))
                  then trim_backwards r3
                  else s
              end
        end
  end.

(** The string without the white space it ends with. *)
Definition trim_end (s : string) : string :=
  String.rev (trim_backwards (String.rev s)).

(** [s.trim()]. *)
Definition trim (s : string) : string := trim_end (trim_start s).

(** A string made of white space only: the encodings of any number of the
    code points [trim] strips, one after the other. *)
Inductive blank : string -> Prop :=
| blank_empty : blank EmptyString
| blank_more (c s : string) : c ∈ white_space -> blank s -> blank (c +:+ s).

(** [!options.creatorWallet || options.creatorWallet.trim() === ''] *)
Definition wallet_missing (o : options) : bool :=
  match creatorWallet o with
  | None => true
  | Some w => String.eqb w "" || String.eqb (trim w) ""
  end.

(** The body of the POST: [JSON.stringify] leaves out a member whose value
    is [undefined]. *)
Definition create_body (o : options) : json :=
  let amountStr :=
    match amount o with
    | AmountNumber n => pretty n
    | AmountString s => s
    end in
  JObj ([ ("amount", JStr amountStr); ("currency", JStr (currency o));
          ("network", JStr (network o)) ]
        ++ match creatorWallet o with
           | Some w => [ ("creator_wallet", JStr w) ]
           | None => []
           end
        ++ match donorWallet o with
           | Some w => [ ("donor_wallet", JStr w) ]
           | None => []
           end
        ++ [ ("metadata", or_else (metadata o) (JObj [])) ]).

(** [public async createDonationSession(options)] up to its first
    [await]: the promise it returns is [c]. *)
Definition createDonationSession (o : options) : action := fun w =>
  let c := fresh (rt w) in
  if wallet_missing o then
    (with_runtime take_handle >>> tell (Settle c (Failed WalletRequired))) w
  else
    (with_runtime (fun r => take_handle (put_create c r)) >>>
     tell (Fetch c (POST_session (create_body o)))) w.

(** The rest of [createDonationSession], run when the fetch answers. *)
Definition created (c : nat) (r : reply) : action :=
  with_runtime (drop_create c) >>>
  match r with
  | Unreachable what => tell (Settle c (Failed (Raised what)))
  | Response false _ text _ => tell (Settle c (Failed (CreateFailed text)))
  | Response true _ _ None => tell (Settle c (Failed (Raised "json")))
  | Response true _ _ (Some s) => tell (Settle c (Fulfilled s))
  end.

(** What [await this.getDonationSession(sessionId)] yields for a reply. *)
Definition getDonationSession (r : reply) : outcome :=
  match r with
  | Unreachable what => Failed (Raised what)
  | Response false statusText _ _ => Failed (GetFailed statusText)
  | Response true _ _ None => Failed (Raised "json")
  | Response true _ _ (Some s) => Fulfilled s
  end.

(** [public stopPolling(sessionId)].  A timer handle is a [NodeJS.Timeout]
    object, so [if (interval)] holds exactly when the map has the entry. *)
Definition stopPolling (sessionId : string) : action := fun w =>
  match pollingIntervals (client w) !! sessionId with
  | Some interval =>
      (clearInterval interval >>>
       (fun w1 => assign_pollingIntervals
                    (delete sessionId (pollingIntervals (client w1))) w1)) w
  | None => (w, [])
  end.

(** The test at the end of a tick. *)
Definition terminal (status : string) : bool :=
  String.eqb status "finalized" || String.eqb status "failed"
  || String.eqb status "expired".

(** [public startPolling(sessionId, callback)]. *)
Definition startPolling (sessionId : string) (callback : PollCallback) : action :=
  fun w =>
    match pollingIntervals (client w) !! sessionId with
    | Some _ => (w, [])
    | None =>
        let interval := fresh (rt w) in
        (with_runtime (fun r => take_handle (put_interval interval (sessionId, callback) r))
         >>> tell (SetInterval interval Config.REST_FALLBACK_INTERVAL sessionId callback)
         >>> (fun w1 => assign_pollingIntervals
                          (<[sessionId := interval]> (pollingIntervals (client w1))) w1)) w
    end.

(** The interval callback of [startPolling] up to its [await]: the fetch
    [f] is issued and remembers the closure it belongs to. *)
Definition tick (sessionId : string) (callback : PollCallback) : action := fun w =>
  let f := fresh (rt w) in
  (with_runtime (fun r => take_handle (put_poll f (sessionId, callback) r)) >>>
   tell (Fetch f (GET_session sessionId))) w.

(** The rest of the interval callback, run when the fetch answers: the
    [try] block after the [await], and the [catch]. *)
Definition resume (sessionId : string) (callback : PollCallback) (r : reply)
    : action :=
  match getDonationSession r with
  | Failed _ => tell (PollingError sessionId)
  | Fulfilled session =>
      tell (CallPoll callback session) >>>
      if raises_on callback session then tell (PollingError sessionId)
      else if terminal (status session) then stopPolling sessionId
      else skip
  end.

(** [public stopAllPolling()]. *)
Definition stopAllPolling : action := fun w =>
  let handles := snd <$> map_to_list (pollingIntervals (client w)) in
  (with_runtime (fun r => foldr drop_interval r handles) >>>
   (fun w1 => (w1, ClearInterval <$> handles)) >>>
   assign_pollingIntervals ∅) w.

(** [new RestClient(baseUrl, apiKey, projectId)]. *)
Definition create (baseUrl apiKey projectId : string) : world :=
  mkWorld (mkClient baseUrl apiKey projectId ∅) (mkRuntime ∅ ∅ ∅ 0).

Inductive event : Type :=
| CallCreate (o : options)
| CallStartPolling (sessionId : string) (cb : PollCallback)
| CallStopPolling (sessionId : string)
| CallStopAllPolling
| Ticked (t : nat)
| Polled (f : nat) (r : reply)
| Answered (c : nat) (r : reply).

Definition step (e : event) : action := fun w =>
  match e with
  | CallCreate o => createDonationSession o w
  | CallStartPolling sessionId cb => startPolling sessionId cb w
  | CallStopPolling sessionId => stopPolling sessionId w
  | CallStopAllPolling => stopAllPolling w
  | Ticked t =>
      match intervals (rt w) !! t with
      | Some (sessionId, cb) => tick sessionId cb w
      | None => (w, [])
      end
  | Polled f r =>
      match polls (rt w) !! f with
      | Some (sessionId, cb) =>
          (with_runtime (drop_poll f) >>> resume sessionId cb r) w
      | None => (w, [])
      end
  | Answered c r =>
      if bool_decide (c ∈ creates (rt w)) then created c r w else (w, [])
  end.

(** Only an armed interval ticks and only a fetch in flight answers. *)
Definition deliverable (w : world) (e : event) : bool :=
  match e with
  | Ticked t => bool_decide (is_Some (intervals (rt w) !! t))
  | Polled f _ => bool_decide (is_Some (polls (rt w) !! f))
  | Answered c _ => bool_decide (c ∈ creates (rt w))
  | _ => true
  end.

Fixpoint run (es : list event) : action :=
  match es with
  | [] => skip
  | e :: rest => step e >>> run rest
  end.

Fixpoint possible (w : world) (es : list event) : bool :=
  match es with
  | [] => true
  | e :: rest => deliverable w e && possible (fst (step e w)) rest
  end.

(** The map [pollingIntervals] and the armed intervals describe each other:
    the handle kept for a session is an armed interval of that session, an
    armed interval is the one kept for its session, and every armed handle
    has been handed out. *)
Definition consistent (w : world) : Prop :=
  (∀ sessionId t, pollingIntervals (client w) !! sessionId = Some t ->
     ∃ cb, intervals (rt w) !! t = Some (sessionId, cb))
  ∧ (∀ t sessionId cb, intervals (rt w) !! t = Some (sessionId, cb) ->
       pollingIntervals (client w) !! sessionId = Some t)
  ∧ (∀ t, is_Some (intervals (rt w) !! t) -> t < fresh (rt w)).

(** Exactly one interval is armed for the session: [t], calling [cb]. *)
Definition one_timer (w : world) (sessionId : string) (t : nat) (cb : PollCallback)
    : Prop :=
  pollingIntervals (client w) !! sessionId = Some t
  ∧ ∀ t' cb', intervals (rt w) !! t' = Some (sessionId, cb') <-> t' = t ∧ cb' = cb.

(** Every polling closure, armed or waiting for its fetch, is the
    facade's. *)
Definition broadcasting (r : runtime) : Prop :=
  (∀ t sessionId cb, intervals r !! t = Some (sessionId, cb) -> cb = Broadcaster)
  ∧ (∀ f sessionId cb, polls r !! f = Some (sessionId, cb) -> cb = Broadcaster).

End Rest.

(* ===================================================================== *)
(** ** src/index.ts: the facade *)
(* ===================================================================== *)

Module Facade.
Import JS Types.

(** [interface GiveBitConfig]. *)
Record GiveBitConfig : Type := mkConfig {
  projectId : string;
  apiKey : string;
  mode : Config.GiveBitMode;
  wsEndpoint : option string;
  apiEndpoint : option string;
  reconnectAttempts : option Z;
  reconnectDelay : option Z
}.

(** The fields of [class GiveBit]. *)
Record GiveBit : Type := mkGiveBit {
  wsManager : option WS.WebSocketManager;
  restClient : option Rest.RestClient;
  config : GiveBitConfig;
  eventListeners : gmap string (list EventCallback);
  activeSessions : gset string
}.

(** The facade with the runtimes of its two collaborators. *)
Record world : Type := mkWorld {
  sdk : GiveBit;
  channel : WS.runtime;
  http : Rest.runtime
}.

(** How a call of an [async] method of the facade ends. *)
Inductive returned (A : Type) : Type :=
| Done (v : A)
| Thrown (what : string).
Arguments Done {A} v.
Arguments Thrown {A} what.

Inductive effect : Type :=
| Channel (e : WS.effect)
| Poller (e : Rest.effect)
| Warn (e : WS.failure)
| Deliver (cb : EventCallback) (ev : DonationEvent)
| ConnectReturned (r : returned unit)
| CreateReturned (r : Rest.outcome).

Definition action : Type := world -> world * list effect.

Definition skip : action := fun w => (w, []).

Definition tell (e : effect) : action := fun w => (w, [e]).

Definition andthen (a b : action) : action :=
  fun w =>
    let '(w1, e1) := a w in
    let '(w2, e2) := b w1 in
    (w2, e1 ++ e2).

Notation "a >>> b" := (andthen a b) (at level 90, right associativity).

(** The actions of a list in order. *)
Fixpoint each {A : Type} (f : A -> action) (l : list A) : action :=
  match l with
  | [] => skip
  | x :: rest => f x >>> each f rest
  end.

Definition assign_eventListeners (v : gmap string (list EventCallback)) : action :=
  fun w =>
    let g := sdk w in
    (mkWorld (mkGiveBit (wsManager g) (restClient g) (config g) v (activeSessions g))
       (channel w) (http w), []).

Definition assign_activeSessions (v : gset string) : action := fun w =>
  let g := sdk w in
  (mkWorld (mkGiveBit (wsManager g) (restClient g) (config g) (eventListeners g) v)
     (channel w) (http w), []).

(** [private broadcastEvent(event)]. *)
Definition broadcastEvent (ev : DonationEvent) : action := fun w =>
  let callbacks := default [] (WS.map_get (eventListeners (sdk w)) (type ev)) in
  (w, (fun cb => Deliver cb ev) <$> callbacks).

(** What follows in the facade from an effect of its channel manager: a
    call of a forwarding closure runs [broadcastEvent]; a settlement of a
    promise held by a caller resumes [connect()] after its [await], in the
    [try] or in the [catch]. *)
Definition after_channel (e : WS.effect) : action :=
  tell (Channel e) >>>
  match e with
  | WS.Call Forwarder ev => broadcastEvent ev
  | WS.Settle _ (WS.Resolved _) => tell (ConnectReturned (Done tt))
  | WS.Settle _ (WS.Rejected err) =>
      tell (Warn err) >>> tell (ConnectReturned (Done tt))
  | _ => skip
  end.

(** The facade around the channel manager and runtime [cw]. *)
Definition put_channel (cw : WS.world) (w : world) : world :=
  let g := sdk w in
  mkWorld (mkGiveBit (Some (WS.mgr cw)) (restClient g) (config g)
             (eventListeners g) (activeSessions g))
    (WS.rt cw) (http w).

(** The facade around the REST client and runtime [rw]. *)
Definition put_rest (rw : Rest.world) (w : world) : world :=
  let g := sdk w in
  mkWorld (mkGiveBit (wsManager g) (Some (Rest.client rw)) (config g)
             (eventListeners g) (activeSessions g))
    (channel w) (Rest.rt rw).

(** A method or handler of [this.wsManager], when there is one. *)
Definition on_channel (a : WS.action) : action := fun w =>
  match wsManager (sdk w) with
  | Some m =>
      let '(cw, es) := a (WS.mkWorld m (channel w)) in
      each after_channel es (put_channel cw w)
  | None => (w, [])
  end.

(** A method or handler of [this.restClient], when there is one; its
    effects are handed to [after]. *)
Definition on_rest (a : Rest.action) (after : Rest.effect -> action) : action :=
  fun w =>
    match restClient (sdk w) with
    | Some c =>
        let '(rw, es) := a (Rest.mkWorld c (http w)) in
        each after es (put_rest rw w)
    | None => (w, [])
    end.

Definition plain (e : Rest.effect) : action := tell (Poller e).

(** The event the closure of [createDonationSession] builds on a tick. *)
Definition pollEvent (updatedSession : DonationSession) (now : Z) : DonationEvent :=
  mkEvent (JStr ("donation_" +:+ status updatedSession))
    (Some (session_json updatedSession)) (JNum now) None.

(** What follows in the facade from a tick of its REST client: a call of
    the polling closure runs [broadcastEvent]; [now] is [Date.now()]. *)
Definition after_poll (now : Z) (e : Rest.effect) : action :=
  tell (Poller e) >>>
  match e with
  | Rest.CallPoll Rest.Broadcaster updatedSession =>
      broadcastEvent (pollEvent updatedSession now)
  | _ => skip
  end.

(** What follows in the facade from the settlement of a create call of its
    REST client: [createDonationSession] resumes after its [await]. *)
Definition after_create (e : Rest.effect) : action :=
  tell (Poller e) >>>
  match e with
  | Rest.Settle _ (Rest.Fulfilled session) =>
      (fun w => assign_activeSessions ({[id session]} ∪ activeSessions (sdk w)) w) >>>
      on_rest (Rest.startPolling (id session) Rest.Broadcaster) plain >>>
      tell (CreateReturned (Rest.Fulfilled session))
  | Rest.Settle _ (Rest.Failed e) => tell (CreateReturned (Rest.Failed e))
  | _ => skip
  end.

(** [private setupEventForwarding()]. *)
Definition setupEventForwarding : action := fun w =>
  match wsManager (sdk w) with
  | Some _ => each (fun kind => on_channel (WS.on kind Forwarder)) event_kinds w
  | None => (w, [])
  end.

(** [a || b] on an optional string. *)
Definition string_or (a : option string) (b : string) : string :=
  match a with
  | Some s => if String.eqb s "" then b else s
  | None => b
  end.

(** [new GiveBit(config)]: the defaults, [initializeEndpoints()] and
    [setupEventForwarding()].  [throws] is what the socket constructor
    raises for the chosen endpoint. *)
Definition create (cfg : GiveBitConfig) (throws : option string) : world :=
  let modeConfig := Config.getConfig (mode cfg) in
  let ws_url := string_or (wsEndpoint cfg) (Config.wsEndpoint modeConfig) in
  let api_url := string_or (apiEndpoint cfg) (Config.apiEndpoint modeConfig) in
  let cw :=
    WS.create ws_url (apiKey cfg) (projectId cfg)
      (default Config.RECONNECT_ATTEMPTS (reconnectAttempts cfg))
      (default Config.RECONNECT_DELAY (reconnectDelay cfg)) throws in
  let rw := Rest.create api_url (apiKey cfg) (projectId cfg) in
  fst (setupEventForwarding
         (mkWorld (mkGiveBit (Some (WS.mgr cw)) (Some (Rest.client rw)) cfg ∅ ∅)
            (WS.rt cw) (Rest.rt rw))).

(** [public async connect()]. *)
Definition connect : action := fun w =>
  match wsManager (sdk w) with
  | None => tell (ConnectReturned (Thrown "WebSocket manager not initialized")) w
  | Some _ => on_channel (WS.connect WS.Caller) w
  end.

(** [public async createDonationSession(options)]. *)
Definition createDonationSession (o : Rest.options) : action := fun w =>
  match restClient (sdk w) with
  | None => tell (CreateReturned (Rest.Failed (Rest.Raised "REST client not initialized"))) w
  | Some _ => on_rest (Rest.createDonationSession o) after_create w
  end.

(** [public on(event, callback)]. *)
Definition on (event : string) (callback : EventCallback) : action := fun w =>
  let callbacks := default [] (eventListeners (sdk w) !! event) in
  assign_eventListeners (<[event := callbacks ++ [callback]]> (eventListeners (sdk w))) w.

(** [public off(event, callback)]. *)
Definition off (event : string) (callback : EventCallback) : action := fun w =>
  match eventListeners (sdk w) !! event with
  | Some callbacks =>
      assign_eventListeners
        (<[event := WS.remove_first callback callbacks]> (eventListeners (sdk w))) w
  | None => (w, [])
  end.

(** [public isConnected()]. *)
Definition isConnected (w : world) : bool :=
  match wsManager (sdk w) with
  | Some m => WS.isConnected (WS.mkWorld m (channel w))
  | None => false
  end.

(** [public disconnect()]. *)
Definition disconnect : action :=
  on_channel WS.disconnect >>>
  on_rest Rest.stopAllPolling plain >>>
  assign_activeSessions ∅.

(** What happens to a facade: calls of its public methods, and the two
    runtimes delivering socket events, timers and fetch answers to its
    collaborators, which only the facade can reach. *)
Inductive event : Type :=
| CallConnect
| CallCreate (o : Rest.options)
| CallOn (kind : string) (cb : EventCallback)
| CallOff (kind : string) (cb : EventCallback)
| CallDisconnect
| Opened (s : nat) (now : Z)
| Message (s : nat) (parsed : option json) (now : Z)
| Errored (s : nat) (what : string)
| Closed (s : nat) (now : Z)
| Fired (t : nat)
| Ticked (t : nat)
| Polled (f : nat) (r : Rest.reply) (now : Z)
| Answered (c : nat) (r : Rest.reply).

Definition step (e : event) : action :=
  match e with
  | CallConnect => connect
  | CallCreate o => createDonationSession o
  | CallOn kind cb => on kind cb
  | CallOff kind cb => off kind cb
  | CallDisconnect => disconnect
  | Opened s now => on_channel (WS.step (WS.Opened s now))
  | Message s parsed now => on_channel (WS.step (WS.Message s parsed now))
  | Errored s what => on_channel (WS.step (WS.Errored s what))
  | Closed s now => on_channel (WS.step (WS.Closed s now))
  | Fired t => on_channel (WS.step (WS.Fired t))
  | Ticked t => on_rest (Rest.step (Rest.Ticked t)) plain
  | Polled f r now => on_rest (Rest.step (Rest.Polled f r)) (after_poll now)
  | Answered c r => on_rest (Rest.step (Rest.Answered c r)) after_create
  end.

Definition deliverable (w : world) (e : event) : bool :=
  match e with
  | Opened s now =>
      match wsManager (sdk w) with
      | Some m => WS.deliverable (WS.mkWorld m (channel w)) (WS.Opened s now)
      | None => false
      end
  | Message s parsed now =>
      match wsManager (sdk w) with
      | Some m => WS.deliverable (WS.mkWorld m (channel w)) (WS.Message s parsed now)
      | None => false
      end
  | Errored s what =>
      match wsManager (sdk w) with
      | Some m => WS.deliverable (WS.mkWorld m (channel w)) (WS.Errored s what)
      | None => false
      end
  | Closed s now =>
      match wsManager (sdk w) with
      | Some m => WS.deliverable (WS.mkWorld m (channel w)) (WS.Closed s now)
      | None => false
      end
  | Fired t =>
      match wsManager (sdk w) with
      | Some m => WS.deliverable (WS.mkWorld m (channel w)) (WS.Fired t)
      | None => false
      end
  | Ticked t => bool_decide (is_Some (Rest.intervals (http w) !! t))
  | Polled f _ _ => bool_decide (is_Some (Rest.polls (http w) !! f))
  | Answered c _ => bool_decide (c ∈ Rest.creates (http w))
  | _ => true
  end.

Fixpoint run (es : list event) : action :=
  match es with
  | [] => skip
  | e :: rest => step e >>> run rest
  end.

Fixpoint possible (w : world) (es : list event) : bool :=
  match es with
  | [] => true
  | e :: rest => deliverable w e && possible (fst (step e w)) rest
  end.

(** The REST client of the facade with its runtime, when there is one. *)
Definition poller (w : world) : option Rest.world :=
  (fun c => Rest.mkWorld c (http w)) <$> restClient (sdk w).

(** What the constructor establishes and every method keeps: both
    collaborators exist, the poller's map and intervals describe each other
    and every polling closure is the facade's own. *)
Definition sound (w : world) : Prop :=
  is_Some (wsManager (sdk w))
  ∧ ∃ rw, poller w = Some rw ∧ Rest.consistent rw ∧ Rest.broadcasting (Rest.rt rw).

(** Effects other than a rejection of [connect()]. *)
Definition resolves (e : effect) : Prop :=
  match e with
  | ConnectReturned (Thrown _) => False
  | _ => True
  end.

End Facade.

(* ===================================================================== *)
(** ** The reconnect counter in the words of the specification *)
(* ===================================================================== *)

Module Backoff.

(** What the channel does in a history of opens and closes. *)
Inductive change : Type := SuccessfulOpen | UnexpectedClose.

(** "The reconnect-attempt counter resets to zero on every successful open
    and increases by exactly one per unexpected close, up to the configured
    maximum": the counter after a sequence, from the value [n]. *)
Fixpoint counter (maximum n : Z) (l : list change) : Z :=
  match l with
  | [] => n
  | SuccessfulOpen :: rest => counter maximum 0 rest
  | UnexpectedClose :: rest =>
      if (n <? maximum)%Z then counter maximum (n + 1) rest
      else counter maximum n rest
  end.

(** "delay = base-delay × 2^(counter−1)" with the counter already
    incremented: the delay before attempt number [n]. *)
Definition delay_of_attempt (base n : Z) : Z := (base * 2 ^ (n - 1))%Z.

(** The delays of the reconnects a sequence schedules, in order: one per
    close below the maximum, none at the maximum. *)
Fixpoint delays (maximum base n : Z) (l : list change) : list Z :=
  match l with
  | [] => []
  | SuccessfulOpen :: rest => delays maximum base 0 rest
  | UnexpectedClose :: rest =>
      if (n <? maximum)%Z
      then delay_of_attempt base (n + 1) :: delays maximum base (n + 1) rest
      else delays maximum base n rest
  end.

(** The change of the channel that an event of the runtime is: the [open]
    event of a socket is a successful open, its [close] event an unexpected
    close, and no other event is either. *)
Definition change_of (e : WS.event) : option change :=
  match e with
  | WS.Opened _ _ => Some SuccessfulOpen
  | WS.Closed _ _ => Some UnexpectedClose
  | _ => None
  end.

(** The opens and closes of a history, in order. *)
Definition changes (es : list WS.event) : list change := omap change_of es.
(** The delays of the reconnects among the effects of a run. *)
Definition scheduled (es : list WS.effect) : list Z :=
  omap (fun e => match e with
                 | WS.SetTimer _ ms WS.Reconnect => Some ms
                 | _ => None
                 end) es.

(** The sockets constructed among the effects of a run: the connection
    attempts. *)
Definition attempts (es : list WS.effect) : list nat :=
  omap (fun e => match e with
                 | WS.Construct s => Some s
                 | _ => None
                 end) es.

(** Effects other than constructing a socket and arming a reconnect. *)
Definition calm (e : WS.effect) : Prop :=
  match e with
  | WS.Construct _ => False
  | WS.SetTimer _ _ WS.Reconnect => False
  | _ => True
  end.

(** No reconnect is waiting in the timer table and no socket is still
    connecting. *)
Definition idle (r : WS.runtime) : Prop :=
  (∀ t ms, WS.timers r !! t ≠ Some (ms, WS.Reconnect))
  ∧ (∀ s p, WS.sockets r !! s ≠ Some (WS.CONNECTING, p)).

(** The manager has given up: the counter is at the maximum and the
    runtime is idle. *)
Definition given_up (w : WS.world) : Prop :=
  (WS.maxReconnectAttempts (WS.mgr w) <= WS.reconnectAttempts (WS.mgr w))%Z
  ∧ idle (WS.rt w).

(** An action that has no part in reconnecting: it leaves the counter, the
    maximum, the base delay and the set of sockets as they are, keeps an
    idle runtime idle and performs calm effects only. *)
Definition steady (a : WS.action) : Prop :=
  ∀ w,
    WS.reconnectAttempts (WS.mgr (a w).1) = WS.reconnectAttempts (WS.mgr w)
    ∧ WS.maxReconnectAttempts (WS.mgr (a w).1) = WS.maxReconnectAttempts (WS.mgr w)
    ∧ WS.reconnectDelay (WS.mgr (a w).1) = WS.reconnectDelay (WS.mgr w)
    ∧ dom (WS.sockets (WS.rt (a w).1)) = dom (WS.sockets (WS.rt w))
    ∧ (idle (WS.rt w) -> idle (WS.rt (a w).1))
    ∧ Forall calm (a w).2.

(** The same of a change of the runtime alone. *)
Definition steady_runtime (f : WS.runtime -> WS.runtime) : Prop :=
  ∀ r, dom (WS.sockets (f r)) = dom (WS.sockets r) ∧ (idle r -> idle (f r)).

(** No call of [connect()] by the owner. *)
Definition no_connect (es : list WS.event) : Prop :=
  WS.CallConnect ∉ es.

End Backoff.


(* ===================================================================== *)
(** ** The correlation of requests and replies: its invariant *)
(* ===================================================================== *)

Module Correlator.
Import WS.

(** Every pending request has a non-empty identifier and a promise that is
    still pending for its caller; no two requests share a promise; the
    timer of a request names that request; the promise of a [connect()] is
    no request's. *)
Definition tracked (w : world) : Prop :=
  (∀ k pc, pendingRequests (mgr w) !! k = Some pc ->
     k ≠ "" ∧ promises (rt w) !! promise pc = Some Caller ∧ promise pc < fresh (rt w))
  ∧ (∀ k1 k2 pc1 pc2,
       pendingRequests (mgr w) !! k1 = Some pc1 ->
       pendingRequests (mgr w) !! k2 = Some pc2 ->
       promise pc1 = promise pc2 -> k1 = k2)
  ∧ (∀ t ms id p, timers (rt w) !! t = Some (ms, RequestTimeout id p) ->
       p < fresh (rt w)
       ∧ ∀ k pc, pendingRequests (mgr w) !! k = Some pc -> promise pc = p -> k = id)
  ∧ (∀ s st p, sockets (rt w) !! s = Some (st, p) ->
       p < fresh (rt w)
       ∧ ∀ k pc, pendingRequests (mgr w) !! k = Some pc -> promise pc ≠ p).

(** An action that has no part in the correlation of requests: it leaves
    the pending requests and the promises handed out so far as they are,
    arms no request timer and makes no socket. *)
Definition neutral (a : action) : Prop :=
  ∀ w,
    pendingRequests (mgr (a w).1) = pendingRequests (mgr w)
    ∧ fresh (rt w) <= fresh (rt (a w).1)
    ∧ (∀ q, q < fresh (rt w) -> promises (rt (a w).1) !! q = promises (rt w) !! q)
    ∧ (∀ t ms id p, timers (rt (a w).1) !! t = Some (ms, RequestTimeout id p) ->
         timers (rt w) !! t = Some (ms, RequestTimeout id p))
    ∧ (∀ s st p, sockets (rt (a w).1) !! s = Some (st, p) ->
         ∃ st0, sockets (rt w) !! s = Some (st0, p)).

(** No pending request waits on promise [p]. *)
Definition unclaimed (p : nat) (w : world) : Prop :=
  ∀ k pc, pendingRequests (mgr w) !! k = Some pc -> promise pc ≠ p.

(** Promise [p] is named by no request timer and no socket. *)
Definition novel (p : nat) (w : world) : Prop :=
  (∀ t ms id q, timers (rt w) !! t = Some (ms, RequestTimeout id q) -> q ≠ p)
  ∧ (∀ s st q, sockets (rt w) !! s = Some (st, q) -> q ≠ p).

(** From a world satisfying [P] the action leads to one satisfying [Q]. *)
Definition leads (P : world -> Prop) (a : action) (Q : world -> Prop) : Prop :=
  ∀ w, P w -> Q (a w).1.

(** Promise [p] was handed out and is pending no longer. *)
Definition settled (p : nat) (w : world) : Prop :=
  promises (rt w) !! p = None ∧ p < fresh (rt w).

(** An effect other than a settlement of promise [p]. *)
Definition spares (p : nat) (e : effect) : Prop :=
  match e with
  | Settle q _ => q ≠ p
  | _ => True
  end.

End Correlator.

(* ===================================================================== *)
(** ** The registry of listeners: definitions *)
(* ===================================================================== *)

Module Registry.
Import Types WS.

(** The callbacks [emit(event, ...)] finds, in the order it calls them. *)
Definition registered (w : world) (event : string) : list EventCallback :=
  default [] (listeners (mgr w) !! event).

(** The owner registers the callbacks of the list for the event, one call
    of [on] each. *)
Definition subscribe (event : string) (cbs : list EventCallback) (w : world) : world :=
  (run (CallOn event <$> cbs) w).1.
End Registry.

(* ===================================================================== *)
(** ** Settlement of promises, counted: definitions *)
(* ===================================================================== *)

Module Ledger.
Import WS Correlator.

(** The promises settled among the effects of a run, in order. *)
Definition settlements (es : list effect) : list nat :=
  omap (fun e => match e with
                 | Settle p _ => Some p
                 | _ => None
                 end) es.

(** Every pending promise has been handed out. *)
Definition bounded (w : world) : Prop :=
  ∀ p, is_Some (promises (rt w) !! p) -> p < fresh (rt w).

(** An action that settles no promise twice and leaves each promise it
    settles pending no longer. *)
Definition sealing (a : action) : Prop :=
  ∀ w, bounded w ->
    bounded (a w).1
    ∧ NoDup (settlements (a w).2)
    ∧ ∀ p, p ∈ settlements (a w).2 -> settled p (a w).1.
End Ledger.

(* ===================================================================== *)
(** ** Requests and their timeouts: definitions *)
(* ===================================================================== *)

Module Clock.
Import WS.

(** Every pending request has its timer armed: 15000 ms, naming the
    request and its promise.  Every armed timer has been handed out.  The
    recorded heartbeat handle has been handed out and is no request's
    timer.  The identifier of a pending request is [String(n)] for a
    counter value [n] already used. *)
Definition timed (w : world) : Prop :=
  (∀ k pc, pendingRequests (mgr w) !! k = Some pc ->
     timers (rt w) !! timeout pc = Some (15000%Z, RequestTimeout k (promise pc)))
  ∧ (∀ t, is_Some (timers (rt w) !! t) -> t < fresh (rt w))
  ∧ (∀ t, heartbeatInterval (mgr w) = Some t ->
       t < fresh (rt w)
       ∧ ∀ ms id p, timers (rt w) !! t ≠ Some (ms, RequestTimeout id p))
  ∧ (∀ k pc, pendingRequests (mgr w) !! k = Some pc ->
       ∃ n, (1 <= n <= messageId (mgr w))%Z ∧ k = String_of n)
  ∧ (0 <= messageId (mgr w))%Z.

(** An action that leaves the pending requests, the heartbeat handle, the
    message counter and the timers as they are. *)
Definition inert (a : action) : Prop :=
  ∀ w,
    pendingRequests (mgr (a w).1) = pendingRequests (mgr w)
    ∧ heartbeatInterval (mgr (a w).1) = heartbeatInterval (mgr w)
    ∧ messageId (mgr (a w).1) = messageId (mgr w)
    ∧ timers (rt (a w).1) = timers (rt w)
    ∧ fresh (rt w) <= fresh (rt (a w).1).
End Clock.

(* ===================================================================== *)
(** ** Forwarding of channel events: definitions *)
(* ===================================================================== *)

Module Relay.
Import Types.

(** What [setupEventForwarding] registers on the channel manager: the
    forwarding closure, once for each of the six kinds. *)
Definition forwarders : gmap string (list EventCallback) :=
  foldr (fun kind l => <[kind := [Forwarder]]> l) ∅ event_kinds.

(** An action of the channel manager that leaves its listeners and its
    pending requests as they are. *)
Definition aloof (a : WS.action) : Prop :=
  ∀ w,
    WS.listeners (WS.mgr (a w).1) = WS.listeners (WS.mgr w)
    ∧ WS.pendingRequests (WS.mgr (a w).1) = WS.pendingRequests (WS.mgr w).

(** The channel manager as the facade keeps it: only the forwarding
    closures listen, and no request is pending, since the facade sends
    none. *)
Definition relaying (m : WS.WebSocketManager) : Prop :=
  WS.listeners m = forwarders ∧ WS.pendingRequests m = ∅.

(** An action of the facade that keeps the channel manager it has. *)
Definition keeps_manager (a : Facade.action) : Prop :=
  ∀ w, Facade.wsManager (Facade.sdk (a w).1) = Facade.wsManager (Facade.sdk w).
End Relay.

(* ===================================================================== *)
(** ** Properties of the channel manager *)
(* ===================================================================== *)

Section ChannelManager.
Import JS Types WS.

(** Sequencing, spelled out. *)
Lemma andthen_run (a b : action) (w : world) :
  (a >>> b) w = ((b (a w).1).1, (a w).2 ++ (b (a w).1).2).
Proof.
  unfold andthen. destruct (a w) as [w1 e1]. simpl.
  destruct (b w1) as [w2 e2]. reflexivity.
Qed.

(** A promise that was just created is settled by the first call of its
    [resolve] or [reject], whatever else is pending. *)
Lemma settle_new (p : nat) (r : settlement) (m : WebSocketManager) (k : runtime) :
  settle p r (mkWorld m (take_handle (put_promise p Caller k)))
  = (mkWorld m (drop_promise p (take_handle (put_promise p Caller k))), [Settle p r]).
Proof.
  unfold settle. simpl. rewrite lookup_insert_eq. reflexivity.
Qed.

(** C8. A [send] issued while the handle is [null] or its socket is not
    open rejects the promise it returns at once with the "not connected"
    error, and that is all it does: the manager's fields, among them the
    pending requests and the message counter, and the timer table are as
    before. *)
Theorem send_while_not_connected
    (w : world) (data : list (string * json)) (thrown : option string) :
  (ws (mgr w) = None
   ∨ ∃ s, ws (mgr w) = Some s ∧ readyState (rt w) s ≠ Some OPEN) ->
  (send data thrown w).2 = [Settle (fresh (rt w)) (Rejected NotConnected)]
  ∧ mgr (send data thrown w).1 = mgr w
  ∧ pendingRequests (mgr (send data thrown w).1) = pendingRequests (mgr w)
  ∧ timers (rt (send data thrown w).1) = timers (rt w)
  ∧ sockets (rt (send data thrown w).1) = sockets (rt w).
Proof.
  intros Hclosed. destruct w as [m k].
  assert (Hsend : send data thrown (mkWorld m k)
                  = settle (fresh k) (Rejected NotConnected)
                      (mkWorld m (take_handle (put_promise (fresh k) Caller k)))).
  { unfold send, new_promise. rewrite andthen_run. simpl.
    destruct Hclosed as [Hnull | (s & Hs & Hstate)]; simpl in *.
    - rewrite Hnull. destruct (settle _ _ _); reflexivity.
    - rewrite Hs. unfold readyState in *. simpl in *.
      destruct (sockets k !! s) as [[[] q]|]; simpl in *;
        try (destruct (settle _ _ _); reflexivity).
      congruence. }
  rewrite Hsend, settle_new. simpl. auto.
Qed.

(** C8 at a manager that was never connected. *)
Lemma send_while_not_connected_witness :
  let w := create "wss://example.test/ws" "key" "project" 5 3000 None in
  (send [("action", JStr "x")] None w).2 = [Settle 0 (Rejected NotConnected)]
  ∧ pendingRequests (mgr (send [("action", JStr "x")] None w).1) = ∅.
Proof.
  intros w.
  destruct (send_while_not_connected w [("action", JStr "x")] None) as (He & _ & Hp & _).
  - left. reflexivity.
  - split; [exact He | exact Hp].
Defined.

(** What [handleMessage] does with a frame that parsed to something other
    than [null]. *)
Lemma handleMessage_fields (w : world) (message : json) (f : frame) (now : Z) :
  fields message = Some f ->
  handleMessage (Some message) now w
  = match matching (mgr w) (f_id f) with
    | Some (k, pending) => handleReply k pending (f_error f) (f_data f) w
    | None =>
        match f_type f with
        | Some ty =>
            if truthy ty
            then emit ty (buildEvent ty (f_session f) (f_timestamp f) (f_error f) now) w
            else (w, [])
        | None => (w, [])
        end
    end.
Proof. intros Hf. unfold handleMessage. rewrite Hf. reflexivity. Qed.

(** C10. A frame routed as an event keeps the time stamp it carries only
    when that value is truthy: a carried [0] (or [""], [null], [false]) is
    replaced by the receive time, exactly as a missing one is. *)
Theorem falsy_timestamp_is_replaced
    (w : world) (message : json) (f : frame) (ty : json) (now : Z) :
  fields message = Some f ->
  matching (mgr w) (f_id f) = None ->
  f_type f = Some ty ->
  truthy ty = true ->
  ∃ ev : DonationEvent,
    handleMessage (Some message) now w = emit ty ev w
    ∧ type ev = ty
    ∧ (∀ carried, f_timestamp f = Some carried -> truthy carried = false ->
         timestamp ev = JNum now)
    ∧ (∀ carried, f_timestamp f = Some carried -> truthy carried = true ->
         timestamp ev = carried)
    ∧ (f_timestamp f = None -> timestamp ev = JNum now).
Proof.
  intros Hf Hunmatched Hty Htruthy.
  exists (buildEvent ty (f_session f) (f_timestamp f) (f_error f) now).
  split.
  - rewrite (handleMessage_fields _ _ _ _ Hf), Hunmatched, Hty, Htruthy.
    reflexivity.
  - split; [reflexivity|].
    unfold buildEvent, or_else; simpl.
    repeat split.
    + intros carried -> ->. reflexivity.
    + intros carried -> ->. reflexivity.
    + intros ->. reflexivity.
Qed.

(** C10 on the frame [{"type": "donation_pending", "timestamp": 0}] received
    at time 1700 by a manager with one subscriber. *)
Lemma falsy_timestamp_is_replaced_witness :
  let w := (on "donation_pending" (Subscriber 0)
              (create "wss://example.test/ws" "key" "project" 5 3000 None)).1 in
  let message := JObj [("type", JStr "donation_pending"); ("timestamp", JNum 0)] in
  ∃ ev : DonationEvent,
    handleMessage (Some message) 1700 w = (w, [Call (Subscriber 0) ev])
    ∧ timestamp ev = JNum 1700.
Proof.
  intros w message.
  destruct (falsy_timestamp_is_replaced w message
              (mkFrame None (Some (JStr "donation_pending")) None None None
                 (Some (JNum 0)))
              (JStr "donation_pending") 1700)
    as (ev & Hrun & _ & Hfalsy & _); try reflexivity.
  exists ev. split.
  - rewrite Hrun. reflexivity.
  - apply (Hfalsy (JNum 0)); reflexivity.
Defined.

(** The reply branch: the request's timer is cleared, its entry leaves the
    pending set, and its promise, when still pending, is settled by the one
    call of [resolve] or [reject]. *)
Lemma handleReply_run
    (w : world) (k : string) (pending : PendingCallback) (err data : option json) :
  promises (rt w) !! promise pending = Some Caller ->
  let result :=
    if truthy_opt err then Rejected (ReplyError (default JNull err))
    else Resolved data in
  (handleReply k pending err data w).2
  = [ClearTimer (timeout pending); Settle (promise pending) result]
  ∧ mgr (handleReply k pending err data w).1
    = (assign_pendingRequests (delete k (pendingRequests (mgr w))) w).1.(mgr)
  ∧ promises (rt (handleReply k pending err data w).1)
    = delete (promise pending) (promises (rt w))
  ∧ timers (rt (handleReply k pending err data w).1)
    = delete (timeout pending) (timers (rt w))
  ∧ sockets (rt (handleReply k pending err data w).1) = sockets (rt w)
  ∧ fresh (rt (handleReply k pending err data w).1) = fresh (rt w).
Proof.
  intros Hpending result. destruct w as [m r].
  unfold handleReply. rewrite !andthen_run. simpl in *.
  assert (Hsettle : ∀ res,
    settle (promise pending) res
      (mkWorld (mkManager (ws m) (url m) (apiKey m) (projectId m)
                  (reconnectAttempts m) (maxReconnectAttempts m) (reconnectDelay m)
                  (heartbeatInterval m) (listeners m)
                  (delete k (pendingRequests m)) (messageId m))
         (drop_timer (timeout pending) r))
    = (mkWorld (mkManager (ws m) (url m) (apiKey m) (projectId m)
                  (reconnectAttempts m) (maxReconnectAttempts m) (reconnectDelay m)
                  (heartbeatInterval m) (listeners m)
                  (delete k (pendingRequests m)) (messageId m))
         (drop_promise (promise pending) (drop_timer (timeout pending) r)),
       [Settle (promise pending) res])).
  { intros res. unfold settle. simpl. rewrite Hpending. reflexivity. }
  subst result.
  destruct err as [e|]; simpl; [destruct (truthy e)|]; rewrite Hsettle; simpl;
    repeat split; reflexivity.
Qed.

End ChannelManager.

(* ===================================================================== *)
(** ** Reconnection *)
(* ===================================================================== *)

Section Reconnection.
Import JS Types WS Backoff.

Create HintDb steady.

Ltac frame :=
  simpl;
  repeat match goal with |- _ ∧ _ => split end;
  try reflexivity; try (let H := fresh in intros H; exact H);
  try (constructor; fail); auto.

Lemma steady_skip : steady skip.
Proof. intros w. frame. Qed.

Lemma steady_tell (e : effect) : calm e -> steady (tell e).
Proof. intros He w. frame. Qed.

Lemma steady_andthen (a b : action) : steady a -> steady b -> steady (a >>> b).
Proof.
  intros Ha Hb w. rewrite andthen_run. simpl.
  destruct (Ha w) as (A1 & A2 & A3 & A4 & A5 & A6).
  destruct (Hb (a w).1) as (B1 & B2 & B3 & B4 & B5 & B6).
  repeat match goal with |- _ ∧ _ => split end; try congruence; auto.
  apply Forall_app; auto.
Qed.

Lemma steady_reading (a : world -> action) :
  (∀ v, steady (a v)) -> steady (fun w => a w w).
Proof. intros Ha w. exact (Ha w w). Qed.

Lemma steady_assign_ws v : steady (assign_ws v).
Proof. intros [m r]. frame. Qed.
Lemma steady_assign_heartbeatInterval v : steady (assign_heartbeatInterval v).
Proof. intros [m r]. frame. Qed.
Lemma steady_assign_listeners v : steady (assign_listeners v).
Proof. intros [m r]. frame. Qed.
Lemma steady_assign_pendingRequests v : steady (assign_pendingRequests v).
Proof. intros [m r]. frame. Qed.
Lemma steady_assign_messageId v : steady (assign_messageId v).
Proof. intros [m r]. frame. Qed.

Lemma steady_with_runtime f : steady_runtime f -> steady (with_runtime f).
Proof. intros Hf [m r]. destruct (Hf r) as [Hd Hi]. frame. Qed.

Lemma steady_runtime_compose f g :
  steady_runtime f -> steady_runtime g -> steady_runtime (fun r => f (g r)).
Proof.
  intros Hf Hg r. destruct (Hg r) as [G1 G2]. destruct (Hf (g r)) as [F1 F2].
  split; [congruence | auto].
Qed.

Lemma steady_take_handle : steady_runtime take_handle.
Proof. intros r. split; [reflexivity | intros H; exact H]. Qed.
Lemma steady_put_promise p h : steady_runtime (put_promise p h).
Proof. intros r. split; [reflexivity | intros H; exact H]. Qed.
Lemma steady_drop_promise p : steady_runtime (drop_promise p).
Proof. intros r. split; [reflexivity | intros H; exact H]. Qed.
Lemma steady_drop_timer t : steady_runtime (drop_timer t).
Proof.
  intros r. split; [reflexivity|].
  intros [Ht Hs]. split; [|exact Hs]. intros t' ms H. simpl in H.
  apply lookup_delete_Some in H as [_ H']. exact (Ht _ _ H').
Qed.
Lemma steady_put_timer t ms k : k ≠ Reconnect -> steady_runtime (put_timer t (ms, k)).
Proof.
  intros Hk r. split; [reflexivity|].
  intros [Ht Hs]. split; [|exact Hs]. intros t' ms' H. simpl in H.
  apply lookup_insert_Some in H as [[_ H']|[_ H']]; [congruence | exact (Ht _ _ H')].
Qed.
Lemma steady_set_readyState s st : st ≠ CONNECTING -> steady_runtime (set_readyState s st).
Proof.
  intros Hst r. unfold set_readyState.
  destruct (sockets r !! s) as [[st0 p]|] eqn:Hs; [|split; auto].
  split; simpl.
  - rewrite dom_insert_L. apply subseteq_union_1_L, singleton_subseteq_l.
    apply elem_of_dom. eauto.
  - intros [Ht Hk]. split; [exact Ht|]. intros s' p' H. simpl in H.
    apply lookup_insert_Some in H as [[_ H']|[_ H']]; [congruence | exact (Hk _ _ H')].
Qed.

#[local] Hint Resolve steady_skip steady_tell steady_andthen steady_assign_ws
  steady_assign_heartbeatInterval steady_assign_listeners steady_assign_pendingRequests
  steady_assign_messageId steady_with_runtime steady_runtime_compose steady_take_handle
  steady_put_promise steady_drop_promise steady_drop_timer steady_put_timer
  steady_set_readyState : steady.
#[local] Hint Extern 1 (calm _) => exact I : steady.
#[local] Hint Extern 1 (_ ≠ _) => discriminate : steady.

Lemma steady_disarm t : steady (disarm t).
Proof. unfold disarm. auto with steady. Qed.

Lemma steady_arm ms k use :
  k ≠ Reconnect -> (∀ t, steady (use t)) -> steady (arm ms k use).
Proof.
  intros Hk Huse. unfold arm.
  apply (steady_reading (fun v =>
    with_runtime (fun r => take_handle (put_timer (fresh (rt v)) (ms, k) r))
    >>> tell (SetTimer (fresh (rt v)) ms k) >>> use (fresh (rt v)))).
  intros v. apply steady_andthen; [|apply steady_andthen; [|apply Huse]].
  - apply steady_with_runtime.
    apply (steady_runtime_compose take_handle); auto with steady.
  - apply steady_tell. destruct k; (exact I || congruence).
Qed.

Lemma steady_new_promise h use : (∀ p, steady (use p)) -> steady (new_promise h use).
Proof.
  intros Huse. unfold new_promise.
  apply (steady_reading (fun v =>
    with_runtime (fun r => take_handle (put_promise (fresh (rt v)) h r))
    >>> use (fresh (rt v)))).
  intros v. apply steady_andthen; [|apply Huse].
  apply steady_with_runtime. apply (steady_runtime_compose take_handle); auto with steady.
Qed.

Lemma steady_settle p r : steady (settle p r).
Proof.
  intros w. unfold settle.
  destruct (promises (rt w) !! p) as [[]|].
  - apply steady_andthen; auto with steady.
  - apply steady_andthen; [auto with steady|]. destruct r; auto with steady.
  - apply steady_skip.
Qed.

Lemma calm_calls (ev : DonationEvent) (l : list EventCallback) :
  Forall calm ((fun cb => Call cb ev) <$> l).
Proof. apply Forall_fmap, Forall_true. intros cb. exact I. Qed.

Lemma steady_emit event data : steady (emit event data).
Proof.
  intros w. unfold emit. destruct (map_get _ _); [|apply steady_skip].
  frame. apply calm_calls.
Qed.

Lemma steady_socket_close s : steady (socket_close s).
Proof.
  intros w. unfold socket_close. apply steady_andthen; [|auto with steady].
  destruct (readyState (rt w) s) as [[]|]; auto with steady.
Qed.

Lemma steady_stopHeartbeat : steady stopHeartbeat.
Proof.
  intros w. unfold stopHeartbeat.
  destruct (heartbeatInterval (mgr w)); [|apply steady_skip].
  apply steady_andthen; auto using steady_disarm with steady.
Qed.

Lemma steady_startHeartbeat : steady startHeartbeat.
Proof. unfold startHeartbeat. apply steady_arm; auto with steady. Qed.

#[local] Hint Resolve steady_disarm steady_settle steady_emit steady_socket_close
  steady_stopHeartbeat steady_startHeartbeat : steady.

Lemma steady_drop_pending k :
  steady (fun w => assign_pendingRequests (delete k (pendingRequests (mgr w))) w).
Proof.
  apply (steady_reading (fun v =>
    assign_pendingRequests (delete k (pendingRequests (mgr v))))).
  auto with steady.
Qed.

Lemma steady_handleMessage parsed now : steady (handleMessage parsed now).
Proof.
  intros w. unfold handleMessage.
  destruct parsed as [message|]; [|apply steady_tell; exact I].
  destruct (fields message) as [f|]; [|apply steady_tell; exact I].
  destruct (matching _ _) as [[k pending]|].
  - unfold handleReply.
    apply steady_andthen; [auto with steady|].
    apply steady_andthen; [apply steady_drop_pending|].
    destruct (f_error f) as [e|]; [destruct (truthy e)|]; auto with steady.
  - destruct (f_type f) as [ty|]; [|apply steady_skip].
    destruct (truthy ty); [apply steady_emit | apply steady_skip].
Qed.

Lemma steady_send data thrown : steady (send data thrown).
Proof.
  unfold send. apply steady_new_promise. intros p w.
  destruct (ws (mgr w)) as [s|]; [|apply steady_settle].
  destruct (readyState (rt w) s) as [[]|]; try apply steady_settle.
  apply steady_andthen; [auto with steady|].
  apply steady_arm; [discriminate|]. intros t.
  apply steady_andthen.
  - apply (steady_reading (fun v =>
      assign_pendingRequests (<[_ := _]> (pendingRequests (mgr v))))).
    auto with steady.
  - destruct thrown; [|auto with steady].
    apply steady_andthen; [auto with steady|].
    apply steady_andthen; [apply steady_drop_pending | auto with steady].
Qed.

Lemma steady_disconnect : steady disconnect.
Proof.
  unfold disconnect. apply steady_andthen; [auto with steady|].
  intros w. destruct (ws (mgr w)); [|apply steady_skip].
  apply steady_andthen; auto with steady.
Qed.

Lemma steady_on kind cb : steady (on kind cb).
Proof. intros w. unfold on. apply steady_assign_listeners. Qed.

Lemma steady_off kind cb : steady (off kind cb).
Proof.
  intros w. unfold off. destruct (listeners (mgr w) !! kind); [|apply steady_skip].
  apply steady_assign_listeners.
Qed.

Lemma steady_onerror p what : steady (onerror p what).
Proof. unfold onerror. auto with steady. Qed.

Lemma steady_requestTimedOut id p : steady (requestTimedOut id p).
Proof.
  unfold requestTimedOut. apply steady_andthen; [apply steady_drop_pending | auto with steady].
Qed.

Lemma steady_heartbeat : steady heartbeat.
Proof.
  intros w. unfold heartbeat. destruct (ws (mgr w)) as [s|]; [|apply steady_skip].
  destruct (readyState (rt w) s) as [[]|]; try apply steady_skip.
  apply steady_tell. exact I.
Qed.

(** What precedes [attemptReconnect] in [onclose]. *)
Lemma steady_before_reconnect s now :
  steady (with_runtime (set_readyState s CLOSED) >>>
          tell (Console LDisconnected) >>> stopHeartbeat >>>
          emit (JStr "connection_lost")
            (mkEvent (JStr "connection_lost") (Some empty_session) (JNum now) None)).
Proof. auto 10 with steady. Qed.

(** What follows the reset of the counter in [onopen]. *)
Lemma steady_after_reset p now :
  steady (startHeartbeat >>>
          emit (JStr "connection_open")
            (mkEvent (JStr "connection_open") (Some empty_session) (JNum now) None) >>>
          settle p (Resolved None)).
Proof. auto 10 with steady. Qed.


Lemma andthen_assoc (a b c : action) (w : world) :
  (a >>> b >>> c) w = ((a >>> b) >>> c) w.
Proof. rewrite !andthen_run. simpl. rewrite app_assoc. reflexivity. Qed.

Lemma scheduled_app (a b : list effect) : scheduled (a ++ b) = scheduled a ++ scheduled b.
Proof. apply omap_app. Qed.

Lemma attempts_app (a b : list effect) : attempts (a ++ b) = attempts a ++ attempts b.
Proof. apply omap_app. Qed.

Lemma calm_scheduled (es : list effect) :
  Forall calm es -> scheduled es = [] ∧ attempts es = [].
Proof.
  induction 1 as [|e es He _ [IH1 IH2]]; [split; reflexivity|].
  change (e :: es) with ([e] ++ es).
  rewrite scheduled_app, attempts_app, IH1, IH2.
  destruct e as [| | | | |t ms []| | |]; simpl in *; try contradiction;
    split; reflexivity.
Qed.

(** [attemptReconnect] below the maximum and at the maximum. *)
Lemma attemptReconnect_run (w : world) :
  let n := reconnectAttempts (mgr w) in
  let r := attemptReconnect w in
  maxReconnectAttempts (mgr r.1) = maxReconnectAttempts (mgr w)
  ∧ reconnectDelay (mgr r.1) = reconnectDelay (mgr w)
  ∧ dom (sockets (rt r.1)) = dom (sockets (rt w))
  ∧ attempts r.2 = []
  ∧ if (n <? maxReconnectAttempts (mgr w))%Z
    then reconnectAttempts (mgr r.1) = (n + 1)%Z
         ∧ scheduled r.2 = [delay_of_attempt (reconnectDelay (mgr w)) (n + 1)]
    else r = (w, [Console LMaxAttempts]).
Proof.
  destruct w as [m k]. unfold attemptReconnect. simpl.
  destruct (reconnectAttempts m <? maxReconnectAttempts m)%Z; simpl.
  - unfold arm, assign_reconnectAttempts, andthen, with_runtime, tell, skip. simpl.
    repeat split; reflexivity.
  - repeat split; reflexivity.
Qed.

(** One close: the counter and the reconnect it schedules. *)
Lemma closed_counter (w : world) (s : nat) (now : Z) :
  is_Some (sockets (rt w) !! s) ->
  let n := reconnectAttempts (mgr w) in
  let r := step (Closed s now) w in
  maxReconnectAttempts (mgr r.1) = maxReconnectAttempts (mgr w)
  ∧ reconnectDelay (mgr r.1) = reconnectDelay (mgr w)
  ∧ dom (sockets (rt r.1)) = dom (sockets (rt w))
  ∧ attempts r.2 = []
  ∧ if (n <? maxReconnectAttempts (mgr w))%Z
    then reconnectAttempts (mgr r.1) = (n + 1)%Z
         ∧ scheduled r.2 = [delay_of_attempt (reconnectDelay (mgr w)) (n + 1)]
    else reconnectAttempts (mgr r.1) = n ∧ scheduled r.2 = [].
Proof.
  intros [v Hs] n r. subst n r. simpl. rewrite Hs. unfold onclose.
  rewrite !andthen_assoc.
  set (before := (((with_runtime (set_readyState s CLOSED) >>> tell (Console LDisconnected))
                   >>> stopHeartbeat) >>> emit _ _)).
  assert (Hbefore : steady before).
  { subst before. auto 10 with steady. }
  rewrite andthen_run. cbn [fst snd].
  destruct (Hbefore w) as (B1 & B2 & B3 & B4 & _ & B6).
  destruct (calm_scheduled _ B6) as [S1 S2].
  destruct (attemptReconnect_run (before w).1) as (A2 & A3 & A4 & A5 & A6).
  rewrite scheduled_app, attempts_app, S1, S2, A2, A3, A4, A5. cbn [app].
  rewrite B1, B2, B3 in *.
  repeat match goal with |- _ ∧ _ => split end; auto.
  destruct (reconnectAttempts (mgr w) <? maxReconnectAttempts (mgr w))%Z.
  - exact A6.
  - rewrite A6. simpl. auto.
Qed.

(** One open: the counter is zero again and nothing is scheduled. *)
Lemma opened_counter (w : world) (s : nat) (now : Z) :
  is_Some (sockets (rt w) !! s) ->
  let r := step (Opened s now) w in
  reconnectAttempts (mgr r.1) = 0%Z
  ∧ maxReconnectAttempts (mgr r.1) = maxReconnectAttempts (mgr w)
  ∧ reconnectDelay (mgr r.1) = reconnectDelay (mgr w)
  ∧ dom (sockets (rt r.1)) = dom (sockets (rt w))
  ∧ attempts r.2 = []
  ∧ scheduled r.2 = [].
Proof.
  intros [[st p] Hs] r. subst r. simpl. rewrite Hs. unfold onopen.
  rewrite andthen_assoc.
  set (before := with_runtime (set_readyState s OPEN) >>> tell (Console LConnected)).
  set (after := startHeartbeat >>> emit _ _ >>> settle p (Resolved None)).
  assert (Hbefore : steady before) by (subst before; auto with steady).
  assert (Hafter : steady after) by (subst after; auto 10 with steady).
  rewrite andthen_run, (andthen_run (assign_reconnectAttempts 0)). cbn [fst snd].
  destruct (Hbefore w) as (_ & B2 & B3 & B4 & _ & B6).
  destruct (calm_scheduled _ B6) as [S1 S2].
  set (w1 := (before w).1) in *.
  destruct (Hafter (assign_reconnectAttempts 0 w1).1) as (A1 & A2 & A3 & A4 & _ & A6).
  destruct (calm_scheduled _ A6) as [T1 T2].
  rewrite !scheduled_app, !attempts_app, S1, S2, T1, T2, A1, A2, A3, A4.
  destruct w1 as [m1 k1]. simpl in *.
  repeat match goal with |- _ ∧ _ => split end; auto.
Qed.

Lemma changes_cons (e : event) (es : list event) :
  changes (e :: es)
  = match change_of e with
    | Some c => c :: changes es
    | None => changes es
    end.
Proof. reflexivity. Qed.

(** [connect()] has no part in the backoff: it leaves the counter, the
    maximum and the base delay as they are and schedules nothing. *)
Lemma connect_backoff (h : holder) (w : world) :
  reconnectAttempts (mgr (connect h w).1) = reconnectAttempts (mgr w)
  ∧ maxReconnectAttempts (mgr (connect h w).1) = maxReconnectAttempts (mgr w)
  ∧ reconnectDelay (mgr (connect h w).1) = reconnectDelay (mgr w)
  ∧ scheduled (connect h w).2 = [].
Proof.
  destruct w as [m k]. unfold connect, new_promise. rewrite andthen_run. cbn [fst snd].
  unfold with_runtime. cbn [fst snd rt mgr constructor_throws take_handle put_promise].
  destruct (constructor_throws k).
  - destruct (steady_settle (fresh k) (Rejected (Raised s))
                (mkWorld m (take_handle (put_promise (fresh k) h k))))
      as (H1 & H2 & H3 & _ & _ & Hcalm).
    destruct (calm_scheduled _ Hcalm) as [Hs _]. cbn [app]. auto.
  - rewrite !andthen_run. cbn. auto.
Qed.

(** One event of a history: the counter and the schedule move as the
    change it is says, and not at all when it is none. *)
Lemma step_follows_backoff (e : event) (w : world) :
  deliverable w e = true ->
  let n := reconnectAttempts (mgr w) in
  let r := step e w in
  maxReconnectAttempts (mgr r.1) = maxReconnectAttempts (mgr w)
  ∧ reconnectDelay (mgr r.1) = reconnectDelay (mgr w)
  ∧ match change_of e with
    | Some SuccessfulOpen => reconnectAttempts (mgr r.1) = 0%Z ∧ scheduled r.2 = []
    | Some UnexpectedClose =>
        if (n <? maxReconnectAttempts (mgr w))%Z
        then reconnectAttempts (mgr r.1) = (n + 1)%Z
             ∧ scheduled r.2 = [delay_of_attempt (reconnectDelay (mgr w)) (n + 1)]
        else reconnectAttempts (mgr r.1) = n ∧ scheduled r.2 = []
    | None => reconnectAttempts (mgr r.1) = n ∧ scheduled r.2 = []
    end.
Proof.
  intros Hdel n r. subst n r.
  assert (Hsteady : ∀ a, steady a ->
            maxReconnectAttempts (mgr (a w).1) = maxReconnectAttempts (mgr w)
            ∧ reconnectDelay (mgr (a w).1) = reconnectDelay (mgr w)
            ∧ reconnectAttempts (mgr (a w).1) = reconnectAttempts (mgr w)
            ∧ scheduled (a w).2 = []).
  { intros a Ha. destruct (Ha w) as (A1 & A2 & A3 & _ & _ & A6).
    destruct (calm_scheduled _ A6) as [Hs _]. auto. }
  assert (Hconnect : ∀ h v,
            maxReconnectAttempts (mgr v) = maxReconnectAttempts (mgr w) ->
            reconnectDelay (mgr v) = reconnectDelay (mgr w) ->
            reconnectAttempts (mgr v) = reconnectAttempts (mgr w) ->
            maxReconnectAttempts (mgr (connect h v).1) = maxReconnectAttempts (mgr w)
            ∧ reconnectDelay (mgr (connect h v).1) = reconnectDelay (mgr w)
            ∧ reconnectAttempts (mgr (connect h v).1) = reconnectAttempts (mgr w)
            ∧ scheduled (connect h v).2 = []).
  { intros h v V1 V2 V3. destruct (connect_backoff h v) as (C1 & C2 & C3 & C4).
    rewrite C1, C2, C3, V1, V2, V3. auto. }
  destruct e as [| |data thrown|kind cb|kind cb|s now|s parsed now|s what|s now|t];
    cbn [step change_of].
  - apply Hconnect; reflexivity.
  - apply Hsteady, steady_disconnect.
  - apply Hsteady, steady_send.
  - apply Hsteady, steady_on.
  - apply Hsteady, steady_off.
  - cbn [deliverable] in Hdel. apply bool_decide_eq_true in Hdel. unfold readyState in Hdel.
    destruct (sockets (rt w) !! s) as [[st p]|] eqn:Hs; [|discriminate].
    destruct (opened_counter w s now (mk_is_Some _ _ Hs)) as (O1 & O2 & O3 & _ & _ & O6).
    cbn [step] in O1, O2, O3, O6. rewrite Hs in O1, O2, O3, O6. auto.
  - destruct (sockets (rt w) !! s); [apply Hsteady, steady_handleMessage|].
    apply (Hsteady skip), steady_skip.
  - destruct (sockets (rt w) !! s) as [[st p]|]; [apply Hsteady, steady_onerror|].
    apply (Hsteady skip), steady_skip.
  - cbn [deliverable] in Hdel. unfold readyState in Hdel.
    destruct (sockets (rt w) !! s) as [v|] eqn:Hs; [|discriminate].
    destruct (closed_counter w s now (mk_is_Some _ _ Hs)) as (C2 & C3 & _ & _ & C6).
    cbn [step] in C2, C3, C6. rewrite Hs in C2, C3, C6. auto.
  - destruct (timers (rt w) !! t) as [[ms [| |id p]]|].
    + apply Hsteady, steady_heartbeat.
    + rewrite andthen_run. cbn [fst snd app]. apply Hconnect; reflexivity.
    + apply (Hsteady (with_runtime (drop_timer t) >>> requestTimedOut id p)).
      apply steady_andthen; [auto with steady | apply steady_requestTimedOut].
    + apply (Hsteady skip), steady_skip.
Qed.

(** Over every history the runtime can deliver, whatever else happens in
    it, the counter and the schedule are those of its opens and closes. *)
Lemma history_follows_backoff (es : list event) (w : world) :
  possible w es = true ->
  reconnectAttempts (mgr (run es w).1)
  = counter (maxReconnectAttempts (mgr w)) (reconnectAttempts (mgr w)) (changes es)
  ∧ scheduled (run es w).2
    = delays (maxReconnectAttempts (mgr w)) (reconnectDelay (mgr w))
        (reconnectAttempts (mgr w)) (changes es)
  ∧ maxReconnectAttempts (mgr (run es w).1) = maxReconnectAttempts (mgr w)
  ∧ reconnectDelay (mgr (run es w).1) = reconnectDelay (mgr w).
Proof.
  revert w. induction es as [|e es IH]; intros w Hposs.
  - repeat split; reflexivity.
  - cbn [possible] in Hposs. apply andb_true_iff in Hposs as [Hdel Hposs].
    destruct (step_follows_backoff e w Hdel) as (S1 & S2 & S3).
    destruct (IH _ Hposs) as (I1 & I2 & I3 & I4).
    change (run (e :: es)) with (step e >>> run es).
    rewrite andthen_run. cbn [fst snd].
    rewrite scheduled_app, I1, I2, I3, I4, S1, S2, changes_cons.
    destruct (change_of e) as [[]|]; cbn [counter delays].
    + destruct S3 as [-> ->]. auto.
    + destruct (reconnectAttempts (mgr w) <? maxReconnectAttempts (mgr w))%Z;
        destruct S3 as [-> ->]; auto.
    + destruct S3 as [-> ->]. auto.
Qed.

(** A manager that has given up stays so under every event but a call of
    [connect()]. *)
Lemma given_up_step (e : event) (w : world) :
  e ≠ CallConnect ->
  deliverable w e = true ->
  given_up w ->
  given_up (step e w).1
  ∧ reconnectAttempts (mgr (step e w).1) = reconnectAttempts (mgr w)
  ∧ Forall calm (step e w).2.
Proof.
  intros Hne Hdel Hw.
  assert (Hsteady : ∀ a, steady a ->
            given_up (a w).1
            ∧ reconnectAttempts (mgr (a w).1) = reconnectAttempts (mgr w)
            ∧ Forall calm (a w).2).
  { intros a Ha. destruct (Ha w) as (A1 & A2 & _ & _ & A5 & A6).
    destruct Hw as [Hmax Hidle]. split; [|split; [exact A1 | exact A6]].
    split; [rewrite A1, A2; exact Hmax | exact (A5 Hidle)]. }
  destruct e as [| |data thrown|kind cb|kind cb|s now|s parsed now|s what|s now|t];
    cbn [step].
  - congruence.
  - apply Hsteady, steady_disconnect.
  - apply Hsteady, steady_send.
  - apply Hsteady, steady_on.
  - apply Hsteady, steady_off.
  - cbn [deliverable] in Hdel. apply bool_decide_eq_true in Hdel. unfold readyState in Hdel.
    destruct (sockets (rt w) !! s) as [[st p]|] eqn:Hs; [|discriminate].
    simpl in Hdel. injection Hdel as ->.
    destruct Hw as [_ [_ Hsock]]. exfalso. exact (Hsock _ _ Hs).
  - destruct (sockets (rt w) !! s).
    + apply Hsteady, steady_handleMessage.
    + apply (Hsteady skip), steady_skip.
  - destruct (sockets (rt w) !! s) as [[st p]|].
    + apply Hsteady, steady_onerror.
    + apply (Hsteady skip), steady_skip.
  - destruct (sockets (rt w) !! s) as [v|] eqn:Hs; [|apply (Hsteady skip), steady_skip].
    unfold onclose. rewrite !andthen_assoc, andthen_run. cbn [fst snd].
    match goal with |- context [attemptReconnect (?b w).1] => set (before := b) end.
    destruct (Hsteady before) as ([Hmax1 Hidle1] & Hn1 & Hcalm1).
    { subst before. auto 10 with steady. }
    destruct (attemptReconnect_run (before w).1) as (_ & _ & _ & _ & Hrun).
    destruct (Z.ltb_spec (reconnectAttempts (mgr (before w).1))
                (maxReconnectAttempts (mgr (before w).1))); [lia|].
    rewrite Hrun. cbn [fst snd].
    split; [split; assumption|]. split; [exact Hn1|].
    apply Forall_app. split; [exact Hcalm1 | repeat constructor].
  - destruct (timers (rt w) !! t) as [[ms [| |id p]]|] eqn:Ht.
    + apply Hsteady, steady_heartbeat.
    + destruct Hw as [_ [Htim _]]. exfalso. exact (Htim _ _ Ht).
    + apply (Hsteady (with_runtime (drop_timer t) >>> requestTimedOut id p)).
      apply steady_andthen; [auto with steady | apply steady_requestTimedOut].
    + apply (Hsteady skip), steady_skip.
Qed.

(** A manager that has given up attempts and schedules nothing until its
    owner calls [connect()]. *)
Lemma given_up_persists (es : list event) (w : world) :
  given_up w ->
  no_connect es ->
  possible w es = true ->
  given_up (run es w).1
  ∧ reconnectAttempts (mgr (run es w).1) = reconnectAttempts (mgr w)
  ∧ attempts (run es w).2 = []
  ∧ scheduled (run es w).2 = [].
Proof.
  revert w. induction es as [|e es IH]; intros w Hw Hno Hposs.
  - split; [exact Hw|]. repeat split; reflexivity.
  - cbn [possible] in Hposs. apply andb_true_iff in Hposs as [Hdel Hposs].
    assert (Hne : e ≠ CallConnect).
    { intros ->. apply Hno. left. }
    assert (Hno' : no_connect es).
    { intros Hin. apply Hno. right. exact Hin. }
    destruct (given_up_step e w Hne Hdel Hw) as (Hw1 & Hn1 & Hcalm1).
    destruct (IH _ Hw1 Hno' Hposs) as (Hw2 & Hn2 & Ha2 & Hs2).
    destruct (calm_scheduled _ Hcalm1) as [Hs1 Ha1].
    change (run (e :: es)) with (step e >>> run es).
    rewrite andthen_run. cbn [fst snd].
    rewrite attempts_app, scheduled_app, Ha1, Ha2, Hs1, Hs2, Hn2, Hn1.
    split; [exact Hw2|]. repeat split; reflexivity.
Qed.
(** [connect()] leaves the counter alone. *)
Lemma connect_counter (h : holder) (w : world) :
  reconnectAttempts (mgr (connect h w).1) = reconnectAttempts (mgr w).
Proof.
  destruct w as [m k]. unfold connect, new_promise. rewrite andthen_run. cbn [fst snd].
  unfold with_runtime. cbn [fst snd rt mgr constructor_throws take_handle put_promise].
  destruct (constructor_throws k).
  - destruct (steady_settle (fresh k) (Rejected (Raised s))
                (mkWorld m (take_handle (put_promise (fresh k) h k)))) as (H & _).
    exact H.
  - rewrite !andthen_run. reflexivity.
Qed.

(** The counter is never negative, so the exponent of the delay never is. *)
Lemma counter_never_negative (es : list event) (w : world) :
  (0 <= reconnectAttempts (mgr w))%Z ->
  (0 <= reconnectAttempts (mgr (run es w).1))%Z.
Proof.
  revert w. induction es as [|e es IH]; intros w Hw; [exact Hw|].
  change (run (e :: es)) with (step e >>> run es).
  rewrite andthen_run. cbn [fst snd]. apply IH.
  assert (Hsteady : ∀ a, steady a -> (0 <= reconnectAttempts (mgr (a w).1))%Z).
  { intros a Ha. destruct (Ha w) as (A1 & _). rewrite A1. exact Hw. }
  destruct e as [| |data thrown|kind cb|kind cb|s now|s parsed now|s what|s now|t];
    cbn [step].
  - rewrite connect_counter. exact Hw.
  - apply Hsteady, steady_disconnect.
  - apply Hsteady, steady_send.
  - apply Hsteady, steady_on.
  - apply Hsteady, steady_off.
  - destruct (sockets (rt w) !! s) as [[st p]|] eqn:Hs; [|exact Hw].
    destruct (opened_counter w s now (mk_is_Some _ _ Hs)) as (O1 & _).
    cbn [step] in O1. rewrite Hs in O1. rewrite O1. lia.
  - destruct (sockets (rt w) !! s); [apply Hsteady, steady_handleMessage | exact Hw].
  - destruct (sockets (rt w) !! s) as [[st p]|]; [apply Hsteady, steady_onerror | exact Hw].
  - destruct (sockets (rt w) !! s) as [v|] eqn:Hs; [|exact Hw].
    destruct (closed_counter w s now (mk_is_Some _ _ Hs)) as (_ & _ & _ & _ & C6).
    cbn [step] in C6. rewrite Hs in C6.
    destruct (reconnectAttempts (mgr w) <? maxReconnectAttempts (mgr w))%Z;
      destruct C6 as [C6 _]; rewrite C6; lia.
  - destruct (timers (rt w) !! t) as [[ms [| |id p]]|].
    + apply Hsteady, steady_heartbeat.
    + rewrite andthen_run. cbn [fst snd]. rewrite connect_counter. exact Hw.
    + apply (Hsteady (with_runtime (drop_timer t) >>> requestTimedOut id p)).
      apply steady_andthen; [auto with steady | apply steady_requestTimedOut].
    + exact Hw.
Qed.

Lemma settle_catcher (p : nat) (res : settlement) (m : WebSocketManager) (r : runtime) :
  promises r !! p = Some Catcher ->
  settle p res (mkWorld m r)
  = (mkWorld m (drop_promise p r),
     match res with
     | Rejected e => [Console (LUncaught e)]
     | Resolved _ => []
     end).
Proof. intros Hp. unfold settle. cbn [rt]. rewrite Hp. destruct res; reflexivity. Qed.

(** A reconnect that fires is a fresh [connect()]: the timer is spent, a
    socket is constructed and becomes the manager's, and the counter is
    the one the close left. *)
Lemma reconnect_fires_connect (w : world) (t : nat) (ms : Z) :
  timers (rt w) !! t = Some (ms, Reconnect) ->
  let r := step (Fired t) w in
  timers (rt r.1) !! t = None
  ∧ reconnectAttempts (mgr r.1) = reconnectAttempts (mgr w)
  ∧ (constructor_throws (rt w) = None ->
     r.2 = [Construct (S (fresh (rt w)))]
     ∧ ws (mgr r.1) = Some (S (fresh (rt w)))
     ∧ sockets (rt r.1) !! S (fresh (rt w)) = Some (CONNECTING, fresh (rt w)))
  ∧ (∀ e, constructor_throws (rt w) = Some e ->
       r.2 = [Console (LUncaught (Raised e))]).
Proof.
  intros Ht r. subst r. cbn [step]. rewrite Ht.
  destruct w as [m [sk tm pr fr ct]]. cbn [rt mgr timers fresh constructor_throws] in *.
  destruct ct as [e|].
  - unfold andthen, connect, new_promise. cbn -[settle].
    rewrite settle_catcher by exact (lookup_insert_eq _ _ _). cbn.
    split; [apply lookup_delete_eq|]. split; [reflexivity|].
    split; [discriminate|]. intros e' [= <-]. reflexivity.
  - cbn. split; [apply lookup_delete_eq|]. split; [reflexivity|].
    split; [|discriminate]. intros _. split; [reflexivity|]. split; [reflexivity|].
    apply lookup_insert_eq.
Qed.

(** C2. Over every history the runtime can deliver, whatever happens in
    it besides the opens and closes (calls of [connect()], [disconnect()]
    and [send], frames, errors, timers that fire, reconnects among them),
    the counter is the one the specification describes for its opens and
    closes (zero after an open, one more after a close below the maximum,
    unchanged at the maximum) and the reconnects scheduled are those it
    describes (attempt number [n] after [base * 2 ^ (n - 1)] milliseconds,
    none at the maximum); the maximum and the base delay never change.  A
    reconnect that fires is a fresh [connect()], which constructs a socket
    and leaves the counter alone.  Once the manager has given up (the
    counter at the maximum, no reconnect waiting, no socket connecting) no
    history without a call of [connect()] by the owner constructs a socket
    or schedules a reconnect, and the counter stays. *)
Theorem reconnect_counter_follows_backoff (w : world) :
  (∀ es : list event,
     possible w es = true ->
     reconnectAttempts (mgr (run es w).1)
     = counter (maxReconnectAttempts (mgr w)) (reconnectAttempts (mgr w)) (changes es)
     ∧ scheduled (run es w).2
       = delays (maxReconnectAttempts (mgr w)) (reconnectDelay (mgr w))
           (reconnectAttempts (mgr w)) (changes es)
     ∧ maxReconnectAttempts (mgr (run es w).1) = maxReconnectAttempts (mgr w)
     ∧ reconnectDelay (mgr (run es w).1) = reconnectDelay (mgr w))
  ∧ (∀ t ms,
       timers (rt w) !! t = Some (ms, Reconnect) ->
       timers (rt (step (Fired t) w).1) !! t = None
       ∧ reconnectAttempts (mgr (step (Fired t) w).1) = reconnectAttempts (mgr w)
       ∧ (constructor_throws (rt w) = None ->
          (step (Fired t) w).2 = [Construct (S (fresh (rt w)))]
          ∧ ws (mgr (step (Fired t) w).1) = Some (S (fresh (rt w)))
          ∧ sockets (rt (step (Fired t) w).1) !! S (fresh (rt w))
            = Some (CONNECTING, fresh (rt w)))
       ∧ (∀ e, constructor_throws (rt w) = Some e ->
            (step (Fired t) w).2 = [Console (LUncaught (Raised e))]))
  ∧ (∀ es : list event,
       given_up w ->
       no_connect es ->
       possible w es = true ->
       given_up (run es w).1
       ∧ reconnectAttempts (mgr (run es w).1) = reconnectAttempts (mgr w)
       ∧ attempts (run es w).2 = []
       ∧ scheduled (run es w).2 = []).
Proof.
  split; [|split].
  - intros es Hposs. exact (history_follows_backoff es w Hposs).
  - intros t ms Ht. exact (reconnect_fires_connect w t ms Ht).
  - intros es Hw Hno Hposs. exact (given_up_persists es w Hw Hno Hposs).
Qed.

(** C2 on a manager with maximum 2 and base delay 3000.  Its first attempt
    fails and the socket closes; the reconnect fires, its socket opens and
    closes; the owner disconnects; the next reconnect's socket closes
    unopened, and so does that of the one after: the counter ends at 2 and
    the reconnects waited 3000, 3000 and 6000 ms.  The first of them, when
    it fires, constructs socket 4.  And on a manager with maximum 1 whose
    first attempt and whose one reconnect both failed: it has given up, and
    neither a disconnect nor a send brings a new attempt. *)
Lemma reconnect_counter_follows_backoff_witness :
  let w0 := create "wss://example.test/ws" "key" "project" 2 3000 None in
  let es := [CallConnect; Errored 1 "refused"; Closed 1 1; CallSend [] None; Fired 2;
             Opened 5 2; Message 5 None 3; Closed 5 4; CallDisconnect; Fired 7;
             Closed 9 5; Fired 10; Errored 12 "refused"; Closed 12 6] in
  let armed := (run [CallConnect; Errored 1 "refused"; Closed 1 1] w0).1 in
  let g := (run [CallConnect; Errored 1 "refused"; Closed 1 1; Fired 2;
                 Errored 4 "refused"; Closed 4 2]
              (create "wss://example.test/ws" "key" "project" 1 3000 None)).1 in
  (possible w0 es = true
   ∧ reconnectAttempts (mgr (run es w0).1) = 2%Z
   ∧ scheduled (run es w0).2 = [3000%Z; 3000%Z; 6000%Z])
  ∧ (step (Fired 2) armed).2 = [Construct 4]
  ∧ attempts (run [CallDisconnect; CallSend [] None] g).2 = [].
Proof.
  intros w0 es armed g. split; [|split].
  - destruct (reconnect_counter_follows_backoff w0) as [Hhistory _].
    destruct (Hhistory es) as (Hcounter & Hdelays & _); [vm_compute; reflexivity|].
    split; [vm_compute; reflexivity|]. split.
    + rewrite Hcounter. vm_compute. reflexivity.
    + rewrite Hdelays. vm_compute. reflexivity.
  - destruct (reconnect_counter_follows_backoff armed) as (_ & Hfires & _).
    destruct (Hfires 2%nat 3000%Z) as (_ & _ & Hmakes & _); [vm_compute; reflexivity|].
    destruct (Hmakes eq_refl) as (Heff & _). exact Heff.
  - destruct (reconnect_counter_follows_backoff g) as (_ & _ & Hquiet).
    destruct (Hquiet [CallDisconnect; CallSend [] None]) as (_ & _ & Hattempts & _).
    + split; [vm_compute; discriminate|]. split.
      * intros t ms. replace (timers (rt g)) with (∅ : gmap nat (Z * task))
          by (vm_compute; reflexivity).
        rewrite lookup_empty. discriminate.
      * intros s p.
        replace (sockets (rt g))
          with (<[4%nat := (CLOSED, 3%nat)]> (<[1%nat := (CLOSED, 0%nat)]>
                  (∅ : gmap nat (ReadyState * nat))))
          by (vm_compute; reflexivity).
        intros H. apply lookup_insert_Some in H as [[_ H]|[_ H]]; [discriminate|].
        apply lookup_insert_Some in H as [[_ H]|[_ H]]; [discriminate|].
        rewrite lookup_empty in H. discriminate.
    + intros Hin. repeat (apply elem_of_cons in Hin as [Hin|Hin]; [discriminate|]).
      apply elem_of_nil in Hin. contradiction.
    + vm_compute. reflexivity.
    + exact Hattempts.
Defined.

(** What [disconnect()] does, by cases on the heartbeat handle, the socket
    handle and the socket's state. *)
Lemma disconnect_run (w : world) :
  let r := disconnect w in
  heartbeatInterval (mgr r.1) = None
  ∧ ws (mgr r.1) = None
  ∧ (∀ t, heartbeatInterval (mgr w) = Some t ->
       timers (rt r.1) !! t = None ∧ ClearTimer t ∈ r.2)
  ∧ (∀ s, ws (mgr w) = Some s ->
       Close s ∈ r.2
       ∧ readyState (rt r.1) s ≠ Some OPEN
       ∧ readyState (rt r.1) s ≠ Some CONNECTING)
  ∧ (∀ t, heartbeatInterval (mgr w) ≠ Some t ->
       timers (rt r.1) !! t = timers (rt w) !! t)
  ∧ pendingRequests (mgr r.1) = pendingRequests (mgr w).
Proof.
  destruct w as [[ws0 url0 key0 project0 n0 max0 delay0 hb0 listeners0 pending0 id0]
                 [sockets0 timers0 promises0 fresh0 throws0]].
  unfold disconnect, stopHeartbeat, socket_close, disarm, readyState, set_readyState,
    with_runtime, assign_ws, assign_heartbeatInterval, tell, skip, andthen.
  cbn.
  destruct hb0 as [t|]; destruct ws0 as [s|]; cbn;
    try (destruct (sockets0 !! s) as [[[] p]|] eqn:Hs; cbn; rewrite ?Hs; cbn).
  all: repeat match goal with |- _ ∧ _ => split end; try reflexivity.
  all: try (intros ? [=]; subst).
  all: repeat match goal with |- _ ∧ _ => split end.
  all: rewrite ?lookup_delete_eq, ?lookup_insert_eq, ?Hs; cbn.
  all: try reflexivity; try discriminate.
  all: try (apply list_elem_of_In; cbn; tauto).
  all: try (intros t' Ht'; try reflexivity; apply lookup_delete_ne; congruence).
Qed.

(** X16.  What [disconnect()] does in every state: it clears the recorded
    heartbeat timer, closes the socket behind the handle when there is one
    and sets the handle to [null], so that [isConnected()] is false
    afterwards.  It assigns nothing else: the reconnect counter and every
    other timer are as before, and the call itself constructs no socket
    and arms no timer. *)
Lemma disconnect_closes_and_clears_the_handle (w : world) :
  let r := disconnect w in
  heartbeatInterval (mgr r.1) = None
  ∧ ws (mgr r.1) = None
  ∧ isConnected r.1 = false
  ∧ (∀ t, heartbeatInterval (mgr w) = Some t ->
       timers (rt r.1) !! t = None ∧ ClearTimer t ∈ r.2)
  ∧ (∀ s, ws (mgr w) = Some s ->
       Close s ∈ r.2
       ∧ readyState (rt r.1) s ≠ Some OPEN
       ∧ readyState (rt r.1) s ≠ Some CONNECTING)
  ∧ reconnectAttempts (mgr r.1) = reconnectAttempts (mgr w)
  ∧ (∀ t, heartbeatInterval (mgr w) ≠ Some t ->
       timers (rt r.1) !! t = timers (rt w) !! t)
  ∧ attempts r.2 = []
  ∧ scheduled r.2 = [].
Proof.
  intros r. subst r.
  destruct (disconnect_run w) as (Hhb & Hws & Hstop & Hclose & Hkeep & _).
  destruct (steady_disconnect w) as (Hcounter & _ & _ & _ & _ & Hcalm).
  destruct (calm_scheduled _ Hcalm) as [Hscheduled Hattempts].
  repeat match goal with |- _ ∧ _ => split end; auto.
  unfold isConnected. rewrite Hws. reflexivity.
Qed.

(** The same on a manager whose channel is open (socket 1, heartbeat
    timer 2). *)
Lemma disconnect_closes_and_clears_the_handle_witness :
  let w := (run [CallConnect; Opened 1 0]
              (create "wss://example.test/ws" "key" "project" 5 3000 None)).1 in
  ws (mgr (disconnect w).1) = None
  ∧ timers (rt (disconnect w).1) !! 2%nat = None
  ∧ Close 1 ∈ (disconnect w).2
  ∧ readyState (rt (disconnect w).1) 1 ≠ Some OPEN.
Proof.
  intros w.
  destruct (disconnect_closes_and_clears_the_handle w)
    as (_ & Hws & _ & Hstop & Hclose & _).
  destruct (Hstop 2%nat) as [Htimer _]; [reflexivity|].
  destruct (Hclose 1%nat) as (Hcall & Hopen & _); [reflexivity|].
  auto.
Defined.

End Reconnection.

(* ===================================================================== *)
(** ** A settled promise stays settled *)
(* ===================================================================== *)

Section Settlement.
Import JS Types WS Correlator.
Context (p : nat).

(** The action keeps [p] settled and does not settle it again. *)
Local Abbreviation final := (preserves (settled p) (spares p)).

Lemma final_skip : final skip.
Proof. intros w Hw. split; [exact Hw | constructor]. Qed.

Lemma final_tell (e : effect) : spares p e -> final (tell e).
Proof. intros He w Hw. split; [exact Hw | repeat constructor; exact He]. Qed.

Lemma final_andthen (a b : action) : final a -> final b -> final (a >>> b).
Proof.
  intros Ha Hb w Hw. rewrite andthen_run. cbn [fst snd].
  destruct (Ha w Hw) as [H1 E1]. destruct (Hb _ H1) as [H2 E2].
  split; [exact H2 | apply Forall_app; split; assumption].
Qed.

Lemma final_reading (a : world -> action) :
  (∀ v, final (a v)) -> final (fun w => a w w).
Proof. intros Ha w Hw. exact (Ha w w Hw). Qed.

Lemma final_assign_ws v : final (assign_ws v).
Proof. intros [m r] H. exact (conj H (Forall_nil_2 _)). Qed.
Lemma final_assign_reconnectAttempts v : final (assign_reconnectAttempts v).
Proof. intros [m r] H. exact (conj H (Forall_nil_2 _)). Qed.
Lemma final_assign_heartbeatInterval v : final (assign_heartbeatInterval v).
Proof. intros [m r] H. exact (conj H (Forall_nil_2 _)). Qed.
Lemma final_assign_listeners v : final (assign_listeners v).
Proof. intros [m r] H. exact (conj H (Forall_nil_2 _)). Qed.
Lemma final_assign_pendingRequests v : final (assign_pendingRequests v).
Proof. intros [m r] H. exact (conj H (Forall_nil_2 _)). Qed.
Lemma final_assign_messageId v : final (assign_messageId v).
Proof. intros [m r] H. exact (conj H (Forall_nil_2 _)). Qed.

(** A change of the runtime that hands out handles and drops promises. *)
Lemma final_with_runtime (f : runtime -> runtime) :
  (∀ r, promises r !! p = None -> p < fresh r ->
        promises (f r) !! p = None ∧ p < fresh (f r)) ->
  final (with_runtime f).
Proof.
  intros Hf [m r] [H1 H2]. split; [apply Hf; assumption | constructor].
Qed.

Lemma final_drop_timer t : final (with_runtime (drop_timer t)).
Proof. apply final_with_runtime. intros r H1 H2. auto. Qed.

Lemma final_set_readyState s st : final (with_runtime (set_readyState s st)).
Proof.
  apply final_with_runtime. intros r H1 H2. unfold set_readyState.
  destruct (sockets r !! s) as [[st0 q]|]; auto.
Qed.

Lemma final_drop_promise q : final (with_runtime (drop_promise q)).
Proof.
  apply final_with_runtime. intros r H1 H2. split; [|exact H2]. cbn.
  apply lookup_delete_None. auto.
Qed.

Create HintDb final.
#[local] Hint Resolve final_skip final_tell final_andthen final_assign_ws
  final_assign_reconnectAttempts final_assign_heartbeatInterval final_assign_listeners
  final_assign_pendingRequests final_assign_messageId final_drop_timer
  final_set_readyState final_drop_promise : final.
#[local] Hint Extern 1 (spares _ _) => exact I : final.

Lemma final_disarm t : final (disarm t).
Proof. unfold disarm. auto with final. Qed.

Lemma final_arm ms k use : (∀ t, final (use t)) -> final (arm ms k use).
Proof.
  intros Huse. unfold arm.
  apply (final_reading (fun v =>
    with_runtime (fun r => take_handle (put_timer (fresh (rt v)) (ms, k) r))
    >>> tell (SetTimer (fresh (rt v)) ms k) >>> use (fresh (rt v)))).
  intros v. apply final_andthen; [|apply final_andthen; [auto with final | apply Huse]].
  apply final_with_runtime. intros r H1 H2. cbn. split; [exact H1 | lia].
Qed.

Lemma final_settle q r : final (settle q r).
Proof.
  intros w Hw. unfold settle.
  destruct (promises (rt w) !! q) as [[]|] eqn:Hq.
  - apply final_andthen; [auto with final| |exact Hw].
    apply final_tell. cbn. intros ->. destruct Hw as [Hw _]. congruence.
  - apply final_andthen; [auto with final| |exact Hw].
    destruct r; auto with final.
  - split; [exact Hw | constructor].
Qed.

(** A new promise is not [p], which was handed out before. *)
Lemma final_new_promise h use : (∀ q, final (use q)) -> final (new_promise h use).
Proof.
  intros Huse [m r] [H1 H2]. unfold new_promise. rewrite andthen_run.
  cbn [fst snd rt mgr with_runtime app] in *.
  apply Huse. split; cbn.
  - rewrite lookup_insert_ne by lia. exact H1.
  - lia.
Qed.

Lemma final_socket_close s : final (socket_close s).
Proof.
  intros w Hw. unfold socket_close.
  apply final_andthen; [|auto with final|exact Hw].
  destruct (readyState (rt w) s) as [[]|]; auto with final.
Qed.

Lemma final_emit ev d : final (emit ev d).
Proof.
  intros w Hw. unfold emit. destruct (map_get _ _); split; try exact Hw.
  - apply Forall_fmap, Forall_forall. intros cb _. exact I.
  - constructor.
Qed.

Lemma final_startHeartbeat : final startHeartbeat.
Proof. apply final_arm. auto with final. Qed.

Lemma final_stopHeartbeat : final stopHeartbeat.
Proof.
  intros w Hw. unfold stopHeartbeat. destruct (heartbeatInterval (mgr w)).
  - apply final_andthen; [apply final_disarm|auto with final|exact Hw].
  - exact (final_skip w Hw).
Qed.

Lemma final_connect h : final (connect h).
Proof.
  apply final_new_promise. intros q w Hw.
  destruct (constructor_throws (rt w)).
  - exact (final_settle q _ w Hw).
  - refine (final_andthen _ _ _ _ w Hw); [|auto with final].
    apply final_with_runtime. intros r H1 H2. cbn. split; [exact H1 | lia].
Qed.

Lemma final_attemptReconnect : final attemptReconnect.
Proof.
  intros w Hw. unfold attemptReconnect. case_match.
  - refine (final_andthen _ _ _ _ w Hw); [auto with final|].
    apply (final_reading (fun v => tell _ >>> arm _ Reconnect (fun _ => skip))).
    intros v. apply final_andthen; [auto with final|]. apply final_arm. auto with final.
  - exact (final_tell (Console _) I w Hw).
Qed.

#[local] Hint Resolve final_disarm final_settle final_socket_close final_emit
  final_startHeartbeat final_stopHeartbeat final_connect final_attemptReconnect : final.

Lemma final_onopen q now : final (onopen q now).
Proof. unfold onopen. auto 10 with final. Qed.

Lemma final_onerror q what : final (onerror q what).
Proof. unfold onerror. auto with final. Qed.

Lemma final_onclose now : final (onclose now).
Proof. unfold onclose. auto 10 with final. Qed.

Lemma final_forget id :
  final (fun w => assign_pendingRequests (delete id (pendingRequests (mgr w))) w).
Proof.
  apply (final_reading (fun v => assign_pendingRequests (delete id (pendingRequests (mgr v))))).
  auto with final.
Qed.

Lemma final_handleReply id pending err data : final (handleReply id pending err data).
Proof.
  unfold handleReply.
  apply final_andthen; [apply final_disarm | apply final_andthen; [apply final_forget|]].
  destruct err as [e|]; [destruct (truthy e)|]; auto with final.
Qed.

Lemma final_handleMessage parsed now : final (handleMessage parsed now).
Proof.
  intros w Hw. unfold handleMessage.
  destruct parsed as [message|]; [|exact (final_tell (Console _) I w Hw)].
  destruct (fields message) as [f|]; [|exact (final_tell (Console _) I w Hw)].
  destruct (matching (mgr w) (f_id f)) as [[k pending]|].
  - exact (final_handleReply _ _ _ _ w Hw).
  - destruct (f_type f) as [ty|]; [destruct (truthy ty)|];
      first [exact (final_emit _ _ w Hw) | exact (final_skip w Hw)].
Qed.

Lemma final_send data thrown : final (send data thrown).
Proof.
  apply final_new_promise. intros q w Hw.
  destruct (ws (mgr w)) as [s|]; [|exact (final_settle _ _ w Hw)].
  destruct (readyState (rt w) s) as [[]|]; try exact (final_settle _ _ w Hw).
  refine (final_andthen _ _ _ _ w Hw); [auto with final|].
  apply final_arm. intros t. apply final_andthen.
  - apply (final_reading (fun v => assign_pendingRequests (<[_ := _]> (pendingRequests (mgr v))))).
    auto with final.
  - destruct thrown; [|auto with final].
    apply final_andthen; [apply final_disarm | apply final_andthen; [apply final_forget|]].
    apply final_settle.
Qed.

Lemma final_requestTimedOut id q : final (requestTimedOut id q).
Proof. apply final_andthen; [apply final_forget | apply final_settle]. Qed.

Lemma final_heartbeat : final heartbeat.
Proof.
  intros w Hw. unfold heartbeat. destruct (ws (mgr w)) as [s|]; [|exact (final_skip w Hw)].
  destruct (readyState (rt w) s) as [[]|];
    first [exact (final_tell (Ping _) I w Hw) | exact (final_skip w Hw)].
Qed.

Lemma final_on kind cb : final (on kind cb).
Proof.
  apply (final_reading (fun v => assign_listeners (<[kind := _ ++ [cb]]> (listeners (mgr v))))).
  auto with final.
Qed.

Lemma final_off kind cb : final (off kind cb).
Proof.
  intros w Hw. unfold off. destruct (listeners (mgr w) !! kind).
  - exact (final_assign_listeners _ w Hw).
  - exact (final_skip w Hw).
Qed.

Lemma final_disconnect : final disconnect.
Proof.
  unfold disconnect. apply final_andthen; [auto with final|].
  intros w Hw. destruct (ws (mgr w)).
  - refine (final_andthen _ _ _ _ w Hw); auto with final.
  - exact (final_skip w Hw).
Qed.

Lemma final_step e : final (step e).
Proof.
  intros w Hw. destruct e; cbn [step].
  - exact (final_connect _ w Hw).
  - exact (final_disconnect w Hw).
  - exact (final_send _ _ w Hw).
  - exact (final_on _ _ w Hw).
  - exact (final_off _ _ w Hw).
  - destruct (sockets (rt w) !! s) as [[st q]|]; [|exact (final_skip w Hw)].
    refine (final_andthen _ _ _ _ w Hw); [auto with final | apply final_onopen].
  - destruct (sockets (rt w) !! s); [|exact (final_skip w Hw)].
    exact (final_handleMessage _ _ w Hw).
  - destruct (sockets (rt w) !! s) as [[st q]|]; [|exact (final_skip w Hw)].
    exact (final_onerror _ _ w Hw).
  - destruct (sockets (rt w) !! s); [|exact (final_skip w Hw)].
    refine (final_andthen _ _ _ _ w Hw); [auto with final | apply final_onclose].
  - destruct (timers (rt w) !! t) as [[ms []]|]; [| | |exact (final_skip w Hw)].
    + exact (final_heartbeat w Hw).
    + refine (final_andthen _ _ _ _ w Hw); auto with final.
    + refine (final_andthen _ _ _ _ w Hw); [auto with final | apply final_requestTimedOut].
Qed.

Lemma final_run es : final (run es).
Proof.
  induction es as [|e es IH]; [apply final_skip|].
  change (run (e :: es)) with (step e >>> run es).
  apply final_andthen; [apply final_step | exact IH].
Qed.
End Settlement.

(* ===================================================================== *)
(** ** Requests and replies *)
(* ===================================================================== *)

Section Requests.
Import JS Types WS Correlator.

Lemma leads_andthen (P Q R : world -> Prop) (a b : action) :
  leads P a Q -> leads Q b R -> leads P (a >>> b) R.
Proof. intros Ha Hb w Hw. rewrite andthen_run. cbn [fst]. apply Hb, Ha, Hw. Qed.

Lemma neutral_skip : neutral skip.
Proof. intros w. cbn. repeat split; eauto. Qed.

Lemma neutral_tell e : neutral (tell e).
Proof. intros w. cbn. repeat split; eauto. Qed.

Lemma neutral_andthen (a b : action) : neutral a -> neutral b -> neutral (a >>> b).
Proof.
  intros Ha Hb w. rewrite andthen_run. cbn [fst].
  destruct (Ha w) as (A1 & A2 & A3 & A4 & A5).
  destruct (Hb (a w).1) as (B1 & B2 & B3 & B4 & B5).
  split; [congruence|]. split; [lia|]. split; [|split].
  - intros q Hq. rewrite B3 by lia. apply A3, Hq.
  - intros t ms id p Ht. apply A4, B4, Ht.
  - intros s st p Hs. destruct (B5 _ _ _ Hs) as [st1 Hs1]. exact (A5 _ _ _ Hs1).
Qed.

Lemma neutral_reading (a : world -> action) :
  (∀ v, neutral (a v)) -> neutral (fun w => a w w).
Proof. intros Ha w. exact (Ha w w). Qed.

Lemma neutral_assign_ws v : neutral (assign_ws v).
Proof. intros [m r]. cbn. repeat split; eauto. Qed.
Lemma neutral_assign_reconnectAttempts v : neutral (assign_reconnectAttempts v).
Proof. intros [m r]. cbn. repeat split; eauto. Qed.
Lemma neutral_assign_heartbeatInterval v : neutral (assign_heartbeatInterval v).
Proof. intros [m r]. cbn. repeat split; eauto. Qed.
Lemma neutral_assign_listeners v : neutral (assign_listeners v).
Proof. intros [m r]. cbn. repeat split; eauto. Qed.
Lemma neutral_assign_messageId v : neutral (assign_messageId v).
Proof. intros [m r]. cbn. repeat split; eauto. Qed.

Lemma neutral_take_handle : neutral (with_runtime take_handle).
Proof. intros [m r]. cbn. repeat split; eauto. Qed.

Lemma neutral_drop_timer t : neutral (with_runtime (drop_timer t)).
Proof.
  intros [m r]. cbn. repeat split; eauto.
  intros t' ms id p H. apply lookup_delete_Some in H as [_ H']. exact H'.
Qed.

Lemma neutral_set_readyState s st : neutral (with_runtime (set_readyState s st)).
Proof.
  intros [m r]. unfold with_runtime, set_readyState. cbn [fst mgr rt].
  destruct (sockets r !! s) as [[st0 p]|] eqn:Hs; cbn; repeat split; eauto.
  intros s' st' p' H. apply lookup_insert_Some in H as [[<- [= <- <-]]|[_ H']]; eauto.
Qed.

Lemma neutral_arm ms k use :
  (∀ id p, k ≠ RequestTimeout id p) -> (∀ t, neutral (use t)) -> neutral (arm ms k use).
Proof.
  intros Hk Huse. unfold arm.
  apply (neutral_reading (fun v =>
    with_runtime (fun r => take_handle (put_timer (fresh (rt v)) (ms, k) r))
    >>> tell (SetTimer (fresh (rt v)) ms k) >>> use (fresh (rt v)))).
  intros v. apply neutral_andthen; [|apply neutral_andthen; [apply neutral_tell | apply Huse]].
  intros [m r]. cbn. repeat split; eauto.
  intros t' ms' id p H. apply lookup_insert_Some in H as [[_ [= _ Hk']]|[_ H']]; [|exact H'].
  exfalso. exact (Hk _ _ Hk').
Qed.

Create HintDb neutral.
#[local] Hint Resolve neutral_skip neutral_tell neutral_andthen neutral_assign_ws
  neutral_assign_reconnectAttempts neutral_assign_heartbeatInterval
  neutral_assign_listeners neutral_assign_messageId neutral_take_handle
  neutral_drop_timer neutral_set_readyState : neutral.

Lemma neutral_disarm t : neutral (disarm t).
Proof. unfold disarm. auto with neutral. Qed.

Lemma neutral_emit event data : neutral (emit event data).
Proof.
  intros w. unfold emit. destruct (map_get _ _); cbn; repeat split; eauto.
Qed.

Lemma neutral_socket_close s : neutral (socket_close s).
Proof.
  intros w. unfold socket_close. apply neutral_andthen; [|auto with neutral].
  destruct (readyState (rt w) s) as [[]|]; auto with neutral.
Qed.

Lemma neutral_stopHeartbeat : neutral stopHeartbeat.
Proof.
  intros w. unfold stopHeartbeat. destruct (heartbeatInterval (mgr w)); [|apply neutral_skip].
  apply neutral_andthen; auto using neutral_disarm with neutral.
Qed.

Lemma neutral_startHeartbeat : neutral startHeartbeat.
Proof. unfold startHeartbeat. apply neutral_arm; [discriminate | auto with neutral]. Qed.

Lemma neutral_attemptReconnect : neutral attemptReconnect.
Proof.
  intros w. unfold attemptReconnect.
  destruct (reconnectAttempts (mgr w) <? maxReconnectAttempts (mgr w))%Z;
    [|apply neutral_tell].
  apply neutral_andthen; [auto with neutral|].
  apply (neutral_reading (fun w1 =>
    tell (Console (LReconnecting
                     (reconnectDelay (mgr w1) * 2 ^ (reconnectAttempts (mgr w1) - 1))
                     (reconnectAttempts (mgr w1)) (maxReconnectAttempts (mgr w1))))
    >>> arm (reconnectDelay (mgr w1) * 2 ^ (reconnectAttempts (mgr w1) - 1))
          Reconnect (fun _ => skip))).
  intros v. apply neutral_andthen; [apply neutral_tell|].
  apply neutral_arm; [discriminate | auto with neutral].
Qed.

Lemma neutral_heartbeat : neutral heartbeat.
Proof.
  intros w. unfold heartbeat. destruct (ws (mgr w)) as [s|]; [|apply neutral_skip].
  destruct (readyState (rt w) s) as [[]|]; apply neutral_skip.
Qed.

Lemma neutral_on kind cb : neutral (on kind cb).
Proof. intros w. unfold on. apply neutral_assign_listeners. Qed.

Lemma neutral_off kind cb : neutral (off kind cb).
Proof.
  intros w. unfold off. destruct (listeners (mgr w) !! kind); [|apply neutral_skip].
  apply neutral_assign_listeners.
Qed.

Lemma neutral_disconnect : neutral disconnect.
Proof.
  unfold disconnect. apply neutral_andthen; [apply neutral_stopHeartbeat|].
  intros w. destruct (ws (mgr w)); [|apply neutral_skip].
  apply neutral_andthen; auto using neutral_socket_close with neutral.
Qed.

#[local] Hint Resolve neutral_disarm neutral_emit neutral_socket_close
  neutral_stopHeartbeat neutral_startHeartbeat neutral_attemptReconnect
  neutral_heartbeat neutral_on neutral_off neutral_disconnect : neutral.

(** A neutral action keeps the invariant, and keeps a promise unclaimed. *)
Lemma neutral_tracked (a : action) (w : world) :
  neutral a -> tracked w -> tracked (a w).1.
Proof.
  intros Ha (K1 & K2 & K3 & K4). destruct (Ha w) as (A1 & A2 & A3 & A4 & A5).
  unfold tracked. rewrite A1. split; [|split; [|split]].
  - intros k pc Hk. destruct (K1 k pc Hk) as (Hne & Hp & Hlt).
    split; [exact Hne|]. split; [|lia]. rewrite A3 by exact Hlt. exact Hp.
  - exact K2.
  - intros t ms id p Ht. destruct (K3 _ _ _ _ (A4 _ _ _ _ Ht)) as [Hlt Hkey].
    split; [lia | exact Hkey].
  - intros s st p Hs. destruct (A5 _ _ _ Hs) as [st0 Hold].
    destruct (K4 _ _ _ Hold) as [Hlt Hne]. split; [lia | exact Hne].
Qed.

Lemma neutral_leads (P : gmap string PendingCallback -> Prop) (a : action) :
  neutral a ->
  leads (fun w => tracked w ∧ P (pendingRequests (mgr w))) a
        (fun w => tracked w ∧ P (pendingRequests (mgr w))).
Proof.
  intros Ha w [Hw HP]. split; [apply neutral_tracked; assumption|].
  destruct (Ha w) as (A1 & _). rewrite A1. exact HP.
Qed.

(** Whatever [settle] finds, the promise is not pending afterwards and
    nothing else changes. *)
Lemma settle_world (p : nat) (r : settlement) (w : world) :
  mgr (settle p r w).1 = mgr w
  ∧ promises (rt (settle p r w).1) = delete p (promises (rt w))
  ∧ timers (rt (settle p r w).1) = timers (rt w)
  ∧ sockets (rt (settle p r w).1) = sockets (rt w)
  ∧ fresh (rt (settle p r w).1) = fresh (rt w).
Proof.
  unfold settle. destruct (promises (rt w) !! p) as [[]|] eqn:Hp.
  - rewrite andthen_run. cbn. auto.
  - rewrite andthen_run. cbn. destruct r; cbn; auto.
  - cbn. rewrite delete_id by exact Hp. auto.
Qed.

(** Settling a promise no request waits on keeps the invariant. *)
Lemma settle_tracked (p : nat) (r : settlement) :
  leads (fun w => tracked w ∧ unclaimed p w) (settle p r) tracked.
Proof.
  intros w [(K1 & K2 & K3 & K4) Hp].
  destruct (settle_world p r w) as (S1 & S2 & S3 & S4 & S5).
  unfold tracked. rewrite S1, S2, S3, S4, S5. split; [|split; [|split]]; auto.
  intros k pc Hk. destruct (K1 k pc Hk) as (Hne & Hq & Hlt).
  split; [exact Hne|]. split; [|exact Hlt].
  rewrite lookup_delete_ne; [exact Hq|]. intros Heq. exact (Hp k pc Hk (eq_sym Heq)).
Qed.

(** Forgetting a request keeps the invariant and leaves its promise
    unclaimed. *)
Lemma forget_tracked (k : string) (p : nat) :
  leads (fun w => tracked w
                  ∧ ∀ k' pc, pendingRequests (mgr w) !! k' = Some pc ->
                             promise pc = p -> k' = k)
        (fun w => assign_pendingRequests (delete k (pendingRequests (mgr w))) w)
        (fun w => tracked w ∧ unclaimed p w).
Proof.
  intros [m r] [(K1 & K2 & K3 & K4) Hp]. cbn in *. split.
  - split; [|split; [|split]]; cbn.
    + intros k' pc Hk. apply lookup_delete_Some in Hk as [_ Hk]. eauto.
    + intros k1 k2 pc1 pc2 H1 H2. apply lookup_delete_Some in H1 as [_ H1].
      apply lookup_delete_Some in H2 as [_ H2]. eauto.
    + intros t ms id q Ht. destruct (K3 _ _ _ _ Ht) as [Hlt Hkey]. split; [exact Hlt|].
      intros k' pc Hk. apply lookup_delete_Some in Hk as [_ Hk]. eauto.
    + intros s st q Hs. destruct (K4 _ _ _ Hs) as [Hlt Hne]. split; [exact Hlt|].
      intros k' pc Hk. apply lookup_delete_Some in Hk as [_ Hk]. eauto.
  - intros k' pc Hk Heq. cbn in Hk. apply lookup_delete_Some in Hk as [Hne Hk].
    apply Hne. symmetry. exact (Hp _ _ Hk Heq).
Qed.


Lemma leads_weaken (P P' Q Q' : world -> Prop) (a : action) :
  (∀ w, P' w -> P w) -> (∀ w, Q w -> Q' w) -> leads P a Q -> leads P' a Q'.
Proof. intros HP HQ Ha w Hw. apply HQ, Ha, HP, Hw. Qed.

Lemma neutral_unclaimed (p : nat) (a : action) :
  neutral a ->
  leads (fun w => tracked w ∧ unclaimed p w) a (fun w => tracked w ∧ unclaimed p w).
Proof.
  intros Ha.
  exact (neutral_leads (fun pend => ∀ k pc, pend !! k = Some pc -> promise pc ≠ p) a Ha).
Qed.

(** [onopen] and [onerror] settle the promise of a [connect()]. *)
Lemma onopen_tracked (p : nat) (now : Z) :
  leads (fun w => tracked w ∧ unclaimed p w) (onopen p now) tracked.
Proof.
  unfold onopen.
  repeat (eapply leads_andthen; [apply neutral_unclaimed; auto with neutral|]).
  apply settle_tracked.
Qed.

Lemma onerror_tracked (p : nat) (what : string) :
  leads (fun w => tracked w ∧ unclaimed p w) (onerror p what) tracked.
Proof.
  unfold onerror.
  eapply leads_andthen; [apply neutral_unclaimed; auto with neutral|].
  apply settle_tracked.
Qed.

Lemma neutral_onclose (now : Z) : neutral (onclose now).
Proof. unfold onclose. auto 10 with neutral. Qed.

(** A new promise is unclaimed. *)
Lemma new_promise_tracked (h : holder) (use : nat -> action) (w : world) :
  tracked w ->
  (∀ p, leads (fun v => tracked v ∧ unclaimed p v ∧ p < fresh (rt v)
                        ∧ promises (rt v) !! p = Some h ∧ novel p v)
              (use p) tracked) ->
  tracked (new_promise h use w).1.
Proof.
  intros Hw Huse. unfold new_promise. rewrite andthen_run. cbn [fst].
  apply Huse. destruct w as [m r]. destruct Hw as (K1 & K2 & K3 & K4). cbn in *.
  split; [|split; [|split; [|split]]].
  - split; [|split; [|split]]; cbn.
    + intros k pc Hk. destruct (K1 k pc Hk) as (Hne & Hp & Hlt).
      split; [exact Hne|]. split; [|lia]. rewrite lookup_insert_ne by lia. exact Hp.
    + exact K2.
    + intros t ms id p Ht. destruct (K3 _ _ _ _ Ht) as [Hlt Hkey]. split; [lia|exact Hkey].
    + intros s st p Hs. destruct (K4 _ _ _ Hs) as [Hlt Hne]. split; [lia|exact Hne].
  - intros k pc Hk. cbn in Hk. destruct (K1 k pc Hk) as (_ & _ & Hlt). lia.
  - cbn. lia.
  - cbn. apply lookup_insert_eq.
  - split; cbn.
    + intros t ms id q Ht. destruct (K3 _ _ _ _ Ht) as [Hlt _]. lia.
    + intros s st q Hs. destruct (K4 _ _ _ Hs) as [Hlt _]. lia.
Qed.

(** [connect()] keeps the invariant. *)
Lemma connect_tracked (h : holder) (w : world) :
  tracked w -> tracked (connect h w).1.
Proof.
  intros Hw. unfold connect. apply new_promise_tracked; [exact Hw|].
  intros p v (Hv & Hp & Hlt & _ & _). destruct (constructor_throws (rt v)).
  - apply settle_tracked. auto.
  - rewrite !andthen_run. cbn [fst].
    apply neutral_tracked; [auto with neutral|].
    destruct v as [m r]. destruct Hv as (K1 & K2 & K3 & K4). cbn in *.
    split; [|split; [|split]]; cbn.
    + intros k pc Hk. destruct (K1 k pc Hk) as (Hne & Hq & Hlt'). auto.
    + exact K2.
    + intros t ms id q Ht. destruct (K3 _ _ _ _ Ht) as [Hlt' Hkey]. auto.
    + intros s st q Hs. apply lookup_insert_Some in Hs as [[_ [= _ <-]]|[_ Hs]].
      * split; [lia | exact Hp].
      * destruct (K4 _ _ _ Hs) as [Hlt' Hne]. auto.
Qed.

(** The reply branch keeps the invariant. *)
Lemma handleReply_tracked (k : string) (pending : PendingCallback)
    (err data : option json) (w : world) :
  tracked w ->
  pendingRequests (mgr w) !! k = Some pending ->
  tracked (handleReply k pending err data w).1.
Proof.
  intros Hw Hk. unfold handleReply.
  assert (Hkey : ∀ k' pc, pendingRequests (mgr w) !! k' = Some pc ->
                          promise pc = promise pending -> k' = k).
  { intros k' pc Hk' Heq. destruct Hw as (_ & K2 & _). exact (K2 _ _ _ _ Hk' Hk Heq). }
  revert w Hw Hk Hkey.
  cut (leads (fun w => tracked w
                ∧ ∀ k' pc, pendingRequests (mgr w) !! k' = Some pc ->
                           promise pc = promise pending -> k' = k)
         (disarm (timeout pending) >>>
          (fun w => assign_pendingRequests (delete k (pendingRequests (mgr w))) w) >>>
          match err with
          | Some e =>
              if truthy e then settle (promise pending) (Rejected (ReplyError e))
              else settle (promise pending) (Resolved data)
          | None => settle (promise pending) (Resolved data)
          end) tracked).
  { intros Hcut w Hw Hk Hkey. apply Hcut. auto. }
  eapply leads_andthen.
  { apply (neutral_leads (fun pend => ∀ k' pc, pend !! k' = Some pc ->
                                        promise pc = promise pending -> k' = k)).
    apply neutral_disarm. }
  eapply leads_andthen; [apply forget_tracked|].
  destruct err as [e|]; [destruct (truthy e)|]; apply settle_tracked.
Qed.

Lemma handleMessage_tracked (parsed : option json) (now : Z) (w : world) :
  tracked w -> tracked (handleMessage parsed now w).1.
Proof.
  intros Hw. unfold handleMessage. destruct parsed as [message|]; [|exact Hw].
  destruct (fields message) as [f|]; [|exact Hw].
  destruct (matching (mgr w) (f_id f)) as [[k pending]|] eqn:Hm.
  - apply handleReply_tracked; [exact Hw|].
    unfold matching in Hm. destruct (truthy_opt (f_id f)); [|discriminate].
    destruct (f_id f) as [[| | |k'| |]|]; try discriminate.
    destruct (pendingRequests (mgr w) !! k') as [pc|] eqn:Hk; [|discriminate].
    cbn in Hm. injection Hm as <- <-. exact Hk.
  - destruct (f_type f) as [ty|]; [|exact Hw]. destruct (truthy ty); [|exact Hw].
    apply neutral_tracked; [apply neutral_emit | exact Hw].
Qed.

(** The timer of a request keeps the invariant when it fires. *)
Lemma requestTimedOut_tracked (t : nat) (ms : Z) (id : string) (p : nat) (w : world) :
  tracked w ->
  timers (rt w) !! t = Some (ms, RequestTimeout id p) ->
  tracked ((with_runtime (drop_timer t) >>> requestTimedOut id p) w).1.
Proof.
  intros Hw Ht.
  assert (Hkey : ∀ k' pc, pendingRequests (mgr w) !! k' = Some pc ->
                          promise pc = p -> k' = id).
  { destruct Hw as (_ & _ & K3 & _). destruct (K3 _ _ _ _ Ht) as [_ Hkey]. exact Hkey. }
  revert w Hw Hkey Ht.
  cut (leads (fun w => tracked w
                ∧ ∀ k' pc, pendingRequests (mgr w) !! k' = Some pc ->
                           promise pc = p -> k' = id)
         (with_runtime (drop_timer t) >>> requestTimedOut id p) tracked).
  { intros Hcut w Hw Hkey _. apply Hcut. auto. }
  eapply leads_andthen.
  { apply (neutral_leads (fun pend => ∀ k' pc, pend !! k' = Some pc ->
                                        promise pc = p -> k' = id)).
    apply neutral_drop_timer. }
  unfold requestTimedOut. eapply leads_andthen; [apply forget_tracked|].
  apply settle_tracked.
Qed.


(** Decimal numerals are not empty. *)
Lemma pretty_N_go_grows (x : N) (s : string) :
  String.length s <= String.length (pretty_N_go x s).
Proof.
  revert s. induction (N.lt_wf_0 x) as [x _ IH]. intros s.
  destruct (decide (x = 0%N)) as [->|Hx].
  - rewrite pretty_N_go_0. lia.
  - rewrite pretty_N_go_step by lia.
    etrans; [|apply IH; apply N.div_lt; lia]. cbn. lia.
Qed.

Lemma String_of_not_empty (n : Z) : String_of n ≠ "".
Proof.
  assert (Hpos : ∀ p : positive, pretty (Npos p) ≠ "").
  { intros p. unfold pretty, pretty_N. rewrite decide_False by discriminate.
    rewrite pretty_N_go_step by lia. intros Hempty.
    pose proof (pretty_N_go_grows (N.pos p `div` 10)
                  (String (pretty_N_char (N.pos p `mod` 10)) "")) as Hlen.
    rewrite Hempty in Hlen. cbn in Hlen. lia. }
  unfold String_of, pretty, pretty_Z. destruct n as [|p|p].
  - discriminate.
  - apply Hpos.
  - discriminate.
Qed.

(** [send] keeps the invariant. *)
Lemma send_tracked (data : list (string * json)) (thrown : option string) (w : world) :
  tracked w -> tracked (send data thrown w).1.
Proof.
  intros Hw. unfold send. apply new_promise_tracked; [exact Hw|].
  intros p v (Hv & Hp & Hlt & Hcaller & Htimers & Hsockets).
  destruct (ws (mgr v)) as [s|]; [|apply settle_tracked; auto].
  destruct (readyState (rt v) s) as [[]|]; try (apply settle_tracked; auto).
  unfold arm. rewrite !andthen_run. cbn [fst].
  set (id := String_of (messageId (mgr v) + 1)).
  match goal with |- tracked (?tail ?v3).1 => set (w3 := v3) end.
  assert (Hw3 : tracked w3
                ∧ ∀ k' pc, pendingRequests (mgr w3) !! k' = Some pc ->
                           promise pc = p -> k' = id).
  { subst w3. destruct v as [m r]. destruct Hv as (K1 & K2 & K3 & K4). cbn in *.
    split; [split; [|split; [|split]]|]; cbn.
    - intros k pc Hk. apply lookup_insert_Some in Hk as [[<- <-]|[_ Hk]]; cbn.
      + split; [apply String_of_not_empty|]. split; [exact Hcaller | lia].
      + destruct (K1 k pc Hk) as (Hne & Hq & Hlt'). auto.
    - intros k1 k2 pc1 pc2 H1 H2 Heq.
      apply lookup_insert_Some in H1 as [[<- <-]|[_ H1]];
        apply lookup_insert_Some in H2 as [[<- <-]|[_ H2]]; cbn in *.
      + reflexivity.
      + exfalso. exact (Hp _ _ H2 (eq_sym Heq)).
      + exfalso. exact (Hp _ _ H1 Heq).
      + exact (K2 _ _ _ _ H1 H2 Heq).
    - intros t ms id' q Ht. apply lookup_insert_Some in Ht as [[_ [= _ <- <-]]|[_ Ht]].
      + split; [lia|]. intros k pc Hk Heq.
        apply lookup_insert_Some in Hk as [[<- _]|[_ Hk]]; [reflexivity|].
        exfalso. exact (Hp _ _ Hk Heq).
      + destruct (K3 _ _ _ _ Ht) as [Hlt' Hkey]. split; [lia|].
        intros k pc Hk Heq. apply lookup_insert_Some in Hk as [[<- <-]|[_ Hk]].
        * cbn in Heq. exfalso. exact (Htimers _ _ _ _ Ht (eq_sym Heq)).
        * exact (Hkey _ _ Hk Heq).
    - intros s' st q Hs. destruct (K4 _ _ _ Hs) as [Hlt' Hne]. split; [lia|].
      intros k pc Hk. apply lookup_insert_Some in Hk as [[<- <-]|[_ Hk]]; cbn.
      + intros Heq. exact (Hsockets _ _ _ Hs (eq_sym Heq)).
      + exact (Hne _ _ Hk).
    - intros k' pc Hk Heq. apply lookup_insert_Some in Hk as [[<- _]|[_ Hk]]; [reflexivity|].
      exfalso. exact (Hp _ _ Hk Heq). }
  destruct thrown as [e|].
  - revert Hw3. generalize w3.
    change (leads (fun w0 => tracked w0
                     ∧ ∀ k' pc, pendingRequests (mgr w0) !! k' = Some pc ->
                                promise pc = p -> k' = id)
              (disarm (fresh (rt (assign_messageId (messageId (mgr v) + 1) v).1))
               >>> (fun w1 => assign_pendingRequests (delete id (pendingRequests (mgr w1))) w1)
               >>> settle p (Rejected (Raised e))) tracked).
    eapply leads_andthen.
    { apply (neutral_leads (fun pend => ∀ k' pc, pend !! k' = Some pc ->
                                          promise pc = p -> k' = id)).
      apply neutral_disarm. }
    eapply leads_andthen; [apply forget_tracked | apply settle_tracked].
  - exact (proj1 Hw3).
Qed.

(** Every event keeps the invariant. *)
Lemma tracked_step (e : event) (w : world) : tracked w -> tracked (step e w).1.
Proof.
  intros Hw.
  destruct e as [| |data thrown|kind cb|kind cb|s now|s parsed now|s what|s now|t];
    cbn [step].
  - apply connect_tracked, Hw.
  - apply neutral_tracked; [apply neutral_disconnect | exact Hw].
  - apply send_tracked, Hw.
  - apply neutral_tracked; [apply neutral_on | exact Hw].
  - apply neutral_tracked; [apply neutral_off | exact Hw].
  - destruct (sockets (rt w) !! s) as [[st p]|] eqn:Hs; [|exact Hw].
    rewrite andthen_run. cbn [fst]. apply onopen_tracked.
    apply (neutral_unclaimed p (with_runtime (set_readyState s OPEN)));
      [apply neutral_set_readyState|].
    split; [exact Hw|]. destruct Hw as (_ & _ & _ & K4).
    destruct (K4 _ _ _ Hs) as [_ Hne]. exact Hne.
  - destruct (sockets (rt w) !! s); [apply handleMessage_tracked, Hw | exact Hw].
  - destruct (sockets (rt w) !! s) as [[st p]|] eqn:Hs; [|exact Hw].
    apply onerror_tracked. split; [exact Hw|]. destruct Hw as (_ & _ & _ & K4).
    destruct (K4 _ _ _ Hs) as [_ Hne]. exact Hne.
  - destruct (sockets (rt w) !! s); [|exact Hw].
    apply neutral_tracked; [|exact Hw].
    apply neutral_andthen; [apply neutral_set_readyState | apply neutral_onclose].
  - destruct (timers (rt w) !! t) as [[ms [| |id p]]|] eqn:Ht.
    + apply neutral_tracked; [apply neutral_heartbeat | exact Hw].
    + rewrite andthen_run. cbn [fst]. apply connect_tracked.
      apply neutral_tracked; [apply neutral_drop_timer | exact Hw].
    + exact (requestTimedOut_tracked t ms id p w Hw Ht).
    + exact Hw.
Qed.

Lemma tracked_create (u k p : string) (max delay : Z) (throws : option string) :
  tracked (create u k p max delay throws).
Proof.
  split; [|split; [|split]]; cbn; intros *; rewrite lookup_empty; discriminate.
Qed.

Lemma tracked_run (es : list event) (w : world) : tracked w -> tracked (run es w).1.
Proof.
  revert w. induction es as [|e es IH]; intros w Hw; [exact Hw|].
  change (run (e :: es)) with (step e >>> run es).
  rewrite andthen_run. cbn [fst]. apply IH, tracked_step, Hw.
Qed.

(** A frame whose identifier names no pending request is not a reply. *)
Lemma matching_none (m : WebSocketManager) (mid : option json) :
  (∀ k, mid = Some (JStr k) -> pendingRequests m !! k = None) ->
  matching m mid = None.
Proof.
  intros Hnone. unfold matching.
  destruct (truthy_opt mid); [|reflexivity].
  destruct mid as [[| | |k| |]|]; try reflexivity.
  rewrite (Hnone k eq_refl). reflexivity.
Qed.

Lemma matching_some (m : WebSocketManager) (k : string) (pending : PendingCallback) :
  k ≠ "" ->
  pendingRequests m !! k = Some pending ->
  matching m (Some (JStr k)) = Some (k, pending).
Proof.
  intros Hk Hp. unfold matching. simpl.
  destruct (String.eqb_spec k ""); [contradiction|]. simpl.
  rewrite Hp. reflexivity.
Qed.

(** [emit] changes nothing. *)
Lemma emit_world (event : json) (data : DonationEvent) (w : world) :
  (emit event data w).1 = w.
Proof. unfold emit. destruct (map_get _ _); reflexivity. Qed.

(** C4, as the code has it.  In every state the manager can be in, a reply
    whose identifier matches a pending request settles that request by
    exactly one call: [reject] with an [Error] made of the error field when
    that field is truthy, [resolve] with the data field when the error field
    is missing or falsy.  The request's timer is cleared, its entry leaves
    the pending set, its promise is pending no longer, and nothing that
    happens later settles that promise again.  A frame whose identifier
    matches no pending request leaves the pending set as it was. *)
Theorem reply_settles_once_by_truthiness
    (es : list event) (u key project : string) (max delay : Z)
    (throws : option string) (parsed : option json) (now : Z) :
  let w := (run es (create u key project max delay throws)).1 in
  (∀ message f k pending,
     parsed = Some message ->
     fields message = Some f ->
     f_id f = Some (JStr k) ->
     pendingRequests (mgr w) !! k = Some pending ->
     (handleMessage parsed now w).2
     = [ClearTimer (timeout pending);
        Settle (promise pending)
          (if truthy_opt (f_error f)
           then Rejected (ReplyError (default JNull (f_error f)))
           else Resolved (f_data f))]
     ∧ pendingRequests (mgr (handleMessage parsed now w).1)
       = delete k (pendingRequests (mgr w))
     ∧ promises (rt (handleMessage parsed now w).1) !! promise pending = None
     ∧ timers (rt (handleMessage parsed now w).1) !! timeout pending = None
     ∧ ∀ later,
         Forall (spares (promise pending))
           (run later (handleMessage parsed now w).1).2)
  ∧ ((∀ message f k,
        parsed = Some message ->
        fields message = Some f ->
        f_id f = Some (JStr k) ->
        pendingRequests (mgr w) !! k = None) ->
     pendingRequests (mgr (handleMessage parsed now w).1) = pendingRequests (mgr w)).
Proof.
  intros w.
  assert (Hw : tracked w) by apply tracked_run, tracked_create.
  split.
  - intros message f k pending -> Hf Hid Hentry.
    destruct Hw as (K1 & _). destruct (K1 k pending Hentry) as (Hk & Hpromise & Hlt).
    rewrite (handleMessage_fields _ _ _ _ Hf), Hid,
      (matching_some _ _ _ Hk Hentry).
    destruct (handleReply_run w k pending (f_error f) (f_data f) Hpromise)
      as (Heff & Hmgr & Hprom & Htim & _ & Hfresh).
    assert (Hgone : promises (rt (handleReply k pending (f_error f) (f_data f) w).1)
                    !! promise pending = None)
      by (rewrite Hprom; apply lookup_delete_eq).
    repeat match goal with |- _ ∧ _ => split end.
    + exact Heff.
    + rewrite Hmgr. reflexivity.
    + exact Hgone.
    + rewrite Htim. apply lookup_delete_eq.
    + intros later. apply (final_run (promise pending) later).
      split; [exact Hgone | rewrite Hfresh; exact Hlt].
  - intros Hnone. destruct parsed as [message|]; [|reflexivity].
    destruct (fields message) as [f|] eqn:Hf.
    + rewrite (handleMessage_fields _ _ _ _ Hf).
      rewrite matching_none by (intros k Hk; exact (Hnone message f k eq_refl Hf Hk)).
      destruct (f_type f) as [ty|]; [|reflexivity].
      destruct (truthy ty); [|reflexivity].
      rewrite emit_world. reflexivity.
    + unfold handleMessage. rewrite Hf. reflexivity.
Qed.

(** C4 on a manager that connected, opened and sent one request (its
    identifier is ["1"], its promise 3, its timer 4): the reply
    [{"id": "1", "data": 7}] resolves the request with 7, the same reply
    delivered again settles nothing, and a reply to an identifier nobody
    waits for changes nothing. *)
Lemma reply_settles_once_by_truthiness_witness :
  let w := (run [CallConnect; Opened 1 0; CallSend [("action", JStr "x")] None]
              (create "wss://example.test/ws" "key" "project" 5 3000 None)).1 in
  let reply := JObj [("id", JStr "1"); ("data", JNum 7)] in
  let stray := JObj [("id", JStr "2"); ("data", JNum 7)] in
  ((handleMessage (Some reply) 9 w).2
   = [ClearTimer 4; Settle 3 (Resolved (Some (JNum 7)))]
   ∧ pendingRequests (mgr (handleMessage (Some reply) 9 w).1) !! "1" = None
   ∧ Forall (spares 3)
       (run [Message 1 (Some reply) 10; Fired 4] (handleMessage (Some reply) 9 w).1).2)
  ∧ pendingRequests (mgr (handleMessage (Some stray) 9 w).1)
    = pendingRequests (mgr w).
Proof.
  intros w reply stray. split.
  - destruct (reply_settles_once_by_truthiness
                [CallConnect; Opened 1 0; CallSend [("action", JStr "x")] None]
                "wss://example.test/ws" "key" "project" 5 3000 None (Some reply) 9)
      as [Hreply _].
    destruct (Hreply reply
                (mkFrame (Some (JStr "1")) None (Some (JNum 7)) None None None)
                "1" (mkPending 3 4))
      as (Heff & Hpending & _ & _ & Hlater); try reflexivity.
    split; [exact Heff|]. split; [|apply Hlater].
    fold w in Hpending. rewrite Hpending. apply lookup_delete_eq.
  - destruct (reply_settles_once_by_truthiness
                [CallConnect; Opened 1 0; CallSend [("action", JStr "x")] None]
                "wss://example.test/ws" "key" "project" 5 3000 None (Some stray) 9)
      as [_ Hstray].
    apply Hstray. intros message f k Hmessage Hf Hid.
    injection Hmessage as <-. vm_compute in Hf. injection Hf as <-.
    simpl in Hid. injection Hid as <-. reflexivity.
Defined.

(** C4 as stated does not hold: the reply [{"id": "1", "error": "",
    "data": 7}] to a pending request carries an error field, and the request
    is resolved with the data, not rejected. *)
Lemma reply_with_empty_error_is_resolved :
  let w0 := create "wss://example.test/ws" "key" "project" 5 3000 None in
  let history := [CallConnect; Opened 1 0; CallSend [("action", JStr "x")] None] in
  let reply := JObj [("id", JStr "1"); ("error", JStr ""); ("data", JNum 7)] in
  possible w0 (history ++ [Message 1 (Some reply) 9]) = true
  ∧ pendingRequests (mgr (run history w0).1) !! "1" = Some (mkPending 3 4)
  ∧ get "error" reply = Got (Some (JStr ""))
  ∧ (step (Message 1 (Some reply) 9) (run history w0).1).2
    = [ClearTimer 4; Settle 3 (Resolved (Some (JNum 7)))].
Proof. vm_compute. repeat split; reflexivity. Qed.

End Requests.

(* ===================================================================== *)
(** ** What [trim] strips *)
(* ===================================================================== *)

Section Trimming.
Import Rest.

(** The encodings of white space take one, two or three bytes, and none
    is the beginning of another. *)
Lemma white_space_cases (c : string) :
  c ∈ white_space ->
  ∃ a r, c = String a r
         ∧ (r = EmptyString ∧ is_whitespace (String a EmptyString) = true
            ∨ (∃ b, r = String b EmptyString
                    ∧ is_whitespace (String a EmptyString) = false
                    ∧ is_whitespace (String a (String b EmptyString)) = true)
            ∨ (∃ b d, r = String b (String d EmptyString)
                      ∧ is_whitespace (String a EmptyString) = false
                      ∧ is_whitespace (String a (String b EmptyString)) = false
                      ∧ is_whitespace (String a (String b (String d EmptyString))) = true)).
Proof.
  intros Hc. vm_compute in Hc.
  repeat (apply elem_of_cons in Hc as [->|Hc]);
    try (apply elem_of_nil in Hc; contradiction).
  all: eexists _, _; split; [reflexivity|].
  all: first [ left; split; [reflexivity | vm_compute; reflexivity]
             | right; left; eexists; split; [reflexivity|]; split; vm_compute; reflexivity
             | right; right; eexists _, _; split; [reflexivity|];
               split; [|split]; vm_compute; reflexivity ].
Qed.

Lemma append_empty (s : string) : s +:+ "" = s.
Proof. induction s as [|a s IH]; [reflexivity|]. change (String a (s +:+ "") = String a s). rewrite IH. reflexivity. Qed.

Lemma append_associative (s t u : string) : (s +:+ t) +:+ u = s +:+ (t +:+ u).
Proof.
  induction s as [|a s IH]; [reflexivity|].
  change (String a ((s +:+ t) +:+ u) = String a (s +:+ (t +:+ u))). rewrite IH. reflexivity.
Qed.

Lemma rev_app_append (s t : string) : String.rev_app s t = String.rev s +:+ t.
Proof.
  revert t. induction s as [|a s IH]; intros t; [reflexivity|].
  unfold String.rev. cbn [String.rev_app]. rewrite (IH (String a t)), (IH (String a "")).
  rewrite append_associative. reflexivity.
Qed.

Lemma rev_cons (a : Ascii.ascii) (s : string) :
  String.rev (String a s) = String.rev s +:+ String a "".
Proof. unfold String.rev at 1. cbn [String.rev_app]. apply rev_app_append. Qed.

Lemma rev_app_rev_app (s t u : string) :
  String.rev_app (String.rev_app s t) u = String.rev_app t (s +:+ u).
Proof.
  revert t u. induction s as [|a s IH]; intros t u; [reflexivity|].
  cbn [String.rev_app]. rewrite IH. reflexivity.
Qed.

Lemma rev_rev (s : string) : String.rev (String.rev s) = s.
Proof. unfold String.rev. rewrite rev_app_rev_app. cbn [String.rev_app]. apply append_empty. Qed.

Lemma rev_empty (s : string) : String.rev s = "" -> s = "".
Proof.
  destruct s as [|a s]; [reflexivity|]. rewrite rev_cons.
  destruct (String.rev s); discriminate.
Qed.

Lemma blank_append (s t : string) : blank s -> blank t -> blank (s +:+ t).
Proof.
  intros Hs Ht. induction Hs as [|c s Hc Hs IH]; [exact Ht|].
  rewrite append_associative. apply blank_more; assumption.
Qed.

Lemma blank_one (c : string) : is_whitespace c = true -> blank c.
Proof.
  intros Hc. apply bool_decide_eq_true in Hc. rewrite <- (append_empty c).
  apply blank_more; [exact Hc | apply blank_empty].
Qed.

(** White space at the start is stripped. *)
Lemma trim_start_white (c s : string) :
  c ∈ white_space -> trim_start (c +:+ s) = trim_start s.
Proof.
  intros Hc. destruct (white_space_cases c Hc) as (a & r & -> & Hcases).
  destruct Hcases as [[-> H1]|[(b & -> & H1 & H2)|(b & d & -> & H1 & H2 & H3)]].
  - change (String a "" +:+ s) with (String a s). cbn [trim_start]. rewrite H1. reflexivity.
  - change (String a (String b "") +:+ s) with (String a (String b s)).
    cbn [trim_start]. rewrite H1, H2. reflexivity.
  - change (String a (String b (String d "")) +:+ s) with (String a (String b (String d s))).
    cbn [trim_start]. rewrite H1, H2, H3. reflexivity.
Qed.

Lemma blank_trim_start (s : string) : blank s -> trim_start s = "".
Proof.
  intros Hs. induction Hs as [|c s Hc Hs IH]; [reflexivity|].
  rewrite trim_start_white by exact Hc. exact IH.
Qed.

(** What [trim_start] leaves is [s] without a blank prefix, and it does
    not start with white space. *)
Lemma trim_start_spec (n : nat) (s : string) :
  String.length s <= n ->
  (∃ p, blank p ∧ s = p +:+ trim_start s)
  ∧ trim_start (trim_start s) = trim_start s.
Proof.
  revert s. induction n as [|n IH]; intros s Hn.
  { destruct s; [|cbn in Hn; lia]. split; [exists ""; split; [apply blank_empty | reflexivity] | reflexivity]. }
  assert (Hstop : ∀ x, trim_start x = x ->
            (∃ p, blank p ∧ x = p +:+ trim_start x) ∧ trim_start (trim_start x) = trim_start x).
  { intros x Hx. rewrite !Hx. split; [|reflexivity].
    exists "". split; [apply blank_empty | reflexivity]. }
  assert (Hmore : ∀ c r, is_whitespace c = true -> String.length r <= n ->
            trim_start (c +:+ r) = trim_start r ->
            (∃ p, blank p ∧ c +:+ r = p +:+ trim_start (c +:+ r))
            ∧ trim_start (trim_start (c +:+ r)) = trim_start (c +:+ r)).
  { intros c r Hc Hr Heq. destruct (IH r Hr) as [(p & Hp & Hsplit) Hfix].
    rewrite Heq. split; [|exact Hfix]. exists (c +:+ p). split.
    - apply blank_append; [apply blank_one, Hc | exact Hp].
    - rewrite append_associative. rewrite <- Hsplit. reflexivity. }
  destruct s as [|a r1]; [apply Hstop; reflexivity|]. cbn [String.length] in Hn.
  destruct (is_whitespace (String a "")) eqn:H1.
  { apply (Hmore (String a "") r1 H1); [lia|]. change (String a "" +:+ r1) with (String a r1).
    cbn [trim_start]. rewrite H1. reflexivity. }
  destruct r1 as [|b r2]; [apply Hstop; cbn [trim_start]; rewrite H1; reflexivity|].
  cbn [String.length] in Hn.
  destruct (is_whitespace (String a (String b ""))) eqn:H2.
  { apply (Hmore (String a (String b "")) r2 H2); [lia|].
    change (String a (String b "") +:+ r2) with (String a (String b r2)).
    cbn [trim_start]. rewrite H1, H2. reflexivity. }
  destruct r2 as [|d r3]; [apply Hstop; cbn [trim_start]; rewrite H1, H2; reflexivity|].
  cbn [String.length] in Hn.
  destruct (is_whitespace (String a (String b (String d "")))) eqn:H3.
  { apply (Hmore (String a (String b (String d ""))) r3 H3); [lia|].
    change (String a (String b (String d "")) +:+ r3) with (String a (String b (String d r3))).
    cbn [trim_start]. rewrite H1, H2, H3. reflexivity. }
  apply Hstop. cbn [trim_start]. rewrite H1, H2, H3. reflexivity.
Qed.

(** What [trim_backwards] removes from a string read backwards is blank
    when read forwards. *)
Lemma trim_backwards_spec (n : nat) (s : string) :
  String.length s <= n ->
  ∃ p, blank p ∧ String.rev s = String.rev (trim_backwards s) +:+ p.
Proof.
  revert s. induction n as [|n IH]; intros s Hn.
  { destruct s; [|cbn in Hn; lia]. exists "". split; [apply blank_empty | reflexivity]. }
  assert (Hstop : ∀ x, trim_backwards x = x ->
            ∃ p, blank p ∧ String.rev x = String.rev (trim_backwards x) +:+ p).
  { intros x Hx. rewrite Hx. exists "". split; [apply blank_empty|].
    rewrite append_empty. reflexivity. }
  assert (Hmore : ∀ c x r, is_whitespace c = true -> String.length r <= n ->
            String.rev x = String.rev r +:+ c ->
            trim_backwards x = trim_backwards r ->
            ∃ p, blank p ∧ String.rev x = String.rev (trim_backwards x) +:+ p).
  { intros c x r Hc Hr Hrev Heq. destruct (IH r Hr) as (p & Hp & Hsplit).
    rewrite Heq, Hrev, Hsplit. exists (p +:+ c). split.
    - apply blank_append; [exact Hp | apply blank_one, Hc].
    - apply append_associative. }
  destruct s as [|c r1]; [apply Hstop; reflexivity|]. cbn [String.length] in Hn.
  destruct (is_whitespace (String c "")) eqn:H1.
  { apply (Hmore (String c "") _ r1 H1); [lia | apply rev_cons|].
    cbn [trim_backwards]. rewrite H1. reflexivity. }
  destruct r1 as [|b r2]; [apply Hstop; cbn [trim_backwards]; rewrite H1; reflexivity|].
  cbn [String.length] in Hn.
  destruct (is_whitespace (String b (String c ""))) eqn:H2.
  { apply (Hmore (String b (String c "")) _ r2 H2); [lia| |].
    - rewrite !rev_cons, append_associative. reflexivity.
    - cbn [trim_backwards]. rewrite H1, H2. reflexivity. }
  destruct r2 as [|a r3]; [apply Hstop; cbn [trim_backwards]; rewrite H1, H2; reflexivity|].
  cbn [String.length] in Hn.
  destruct (is_whitespace (String a (String b (String c "")))) eqn:H3.
  { apply (Hmore (String a (String b (String c ""))) _ r3 H3); [lia| |].
    - rewrite !rev_cons, !append_associative. reflexivity.
    - cbn [trim_backwards]. rewrite H1, H2, H3. reflexivity. }
  apply Hstop. cbn [trim_backwards]. rewrite H1, H2, H3. reflexivity.
Qed.

(** [s.trim()] is the empty string exactly when [s] is blank. *)
Lemma trim_empty_iff (s : string) : trim s = "" <-> blank s.
Proof.
  split.
  - intros Hs. unfold trim, trim_end in Hs. apply rev_empty in Hs.
    destruct (trim_start_spec _ s (le_n _)) as [(p & Hp & Hsplit) Hfix].
    destruct (trim_backwards_spec _ (String.rev (trim_start s)) (le_n _)) as (q & Hq & Hend).
    rewrite Hs, rev_rev in Hend. change (String.rev "" +:+ q) with q in Hend.
    rewrite Hend in Hfix. rewrite (blank_trim_start q Hq) in Hfix.
    rewrite Hsplit, Hend, <- Hfix, append_empty. exact Hp.
  - intros Hs. unfold trim. rewrite (blank_trim_start s Hs). reflexivity.
Qed.

(** Both ends are trimmed, and what lies between is kept. *)
Lemma trim_spec (s : string) :
  ∃ p q, blank p ∧ blank q ∧ s = p +:+ trim s +:+ q.
Proof.
  destruct (trim_start_spec _ s (le_n _)) as [(p & Hp & Hsplit) _].
  destruct (trim_backwards_spec _ (String.rev (trim_start s)) (le_n _)) as (q & Hq & Hend).
  rewrite rev_rev in Hend. exists p, q. split; [exact Hp|]. split; [exact Hq|].
  unfold trim, trim_end. rewrite <- Hend. exact Hsplit.
Qed.
End Trimming.

(* ===================================================================== *)
(** ** Properties of the fallback poller *)
(* ===================================================================== *)

Section Poller.
Import JS Types Rest.

Lemma rest_andthen_run (a b : action) (w : world) :
  (a >>> b) w = ((b (a w).1).1, (a w).2 ++ (b (a w).1).2).
Proof.
  unfold andthen. destruct (a w) as [w1 e1]. simpl.
  destruct (b w1) as [w2 e2]. reflexivity.
Qed.

(** [startPolling] for a session that is not polled. *)
Lemma startPolling_new (sessionId : string) (cb : PollCallback) (w : world) :
  pollingIntervals (client w) !! sessionId = None ->
  startPolling sessionId cb w
  = (mkWorld (mkClient (baseUrl (client w)) (apiKey (client w)) (projectId (client w))
                (<[sessionId := fresh (rt w)]> (pollingIntervals (client w))))
       (take_handle (put_interval (fresh (rt w)) (sessionId, cb) (rt w))),
     [SetInterval (fresh (rt w)) Config.REST_FALLBACK_INTERVAL sessionId cb]).
Proof. intros Hnone. unfold startPolling. rewrite Hnone. reflexivity. Qed.

(** [startPolling] for a session that is polled already. *)
Lemma startPolling_again (sessionId : string) (cb : PollCallback) (w : world) :
  is_Some (pollingIntervals (client w) !! sessionId) ->
  startPolling sessionId cb w = (w, []).
Proof. intros [t Ht]. unfold startPolling. rewrite Ht. reflexivity. Qed.

(** [stopPolling] for a session that is polled. *)
Lemma stopPolling_armed (sessionId : string) (t : nat) (w : world) :
  pollingIntervals (client w) !! sessionId = Some t ->
  stopPolling sessionId w
  = (mkWorld (mkClient (baseUrl (client w)) (apiKey (client w)) (projectId (client w))
                (delete sessionId (pollingIntervals (client w))))
       (drop_interval t (rt w)),
     [ClearInterval t]).
Proof. intros Ht. unfold stopPolling. rewrite Ht. reflexivity. Qed.

Lemma stopPolling_idle (sessionId : string) (w : world) :
  pollingIntervals (client w) !! sessionId = None ->
  stopPolling sessionId w = (w, []).
Proof. intros Ht. unfold stopPolling. rewrite Ht. reflexivity. Qed.

Lemma consistent_startPolling sessionId cb w :
  consistent w -> consistent (startPolling sessionId cb w).1.
Proof.
  intros (I1 & I2 & I3).
  destruct (pollingIntervals (client w) !! sessionId) as [t|] eqn:Hp.
  - rewrite startPolling_again by eauto. split; [|split]; assumption.
  - rewrite (startPolling_new _ _ _ Hp). unfold consistent. cbn. split; [|split].
    + intros sid t Ht. apply lookup_insert_Some in Ht as [[<- <-]|[Hne Ht]].
      * exists cb. apply lookup_insert_eq.
      * destruct (I1 _ _ Ht) as [cb' Hcb]. exists cb'.
        rewrite lookup_insert_ne; [exact Hcb|].
        intros <-. specialize (I3 _ (mk_is_Some _ _ Hcb)). lia.
    + intros t sid cb' Ht. apply lookup_insert_Some in Ht as [[<- [= <- <-]]|[Hne Ht]].
      * apply lookup_insert_eq.
      * specialize (I2 _ _ _ Ht). rewrite lookup_insert_ne; [exact I2|].
        intros <-. congruence.
    + intros t Ht. apply lookup_insert_is_Some in Ht as [<-|[_ Ht]]; [lia|].
      specialize (I3 _ Ht). lia.
Qed.

Lemma consistent_stopPolling sessionId w :
  consistent w -> consistent (stopPolling sessionId w).1.
Proof.
  intros (I1 & I2 & I3).
  destruct (pollingIntervals (client w) !! sessionId) as [t|] eqn:Hp.
  - rewrite (stopPolling_armed _ _ _ Hp). unfold consistent. cbn. split; [|split].
    + intros sid t' Ht'. apply lookup_delete_Some in Ht' as [Hne Ht'].
      destruct (I1 _ _ Ht') as [cb Hcb]. exists cb.
      rewrite lookup_delete_ne; [exact Hcb|].
      intros <-. destruct (I1 _ _ Hp) as [cb0 Hcb0]. congruence.
    + intros t' sid cb Ht'. apply lookup_delete_Some in Ht' as [Hne Ht'].
      specialize (I2 _ _ _ Ht'). rewrite lookup_delete_ne; [exact I2|].
      intros <-. congruence.
    + intros t' Ht'. apply lookup_delete_is_Some in Ht' as [_ Ht']. auto.
  - rewrite (stopPolling_idle _ _ Hp). split; [|split]; assumption.
Qed.

Lemma drop_all_intervals (handles : list nat) (r : runtime) (t : nat) :
  intervals (foldr drop_interval r handles) !! t
  = if decide (t ∈ handles) then None else intervals r !! t.
Proof.
  induction handles as [|h handles IH]; cbn.
  - reflexivity.
  - destruct (decide (t = h)) as [->|Hne].
    + rewrite lookup_delete_eq. rewrite decide_True by left. reflexivity.
    + rewrite lookup_delete_ne by congruence. rewrite IH.
      destruct (decide (t ∈ handles)) as [Hin|Hnot].
      * rewrite decide_True by (right; exact Hin). reflexivity.
      * rewrite decide_False; [reflexivity|].
        intros Hin. apply elem_of_cons in Hin as [?|?]; contradiction.
Qed.

Lemma drop_all_fresh (handles : list nat) (r : runtime) :
  fresh (foldr drop_interval r handles) = fresh r.
Proof. induction handles as [|h handles IH]; cbn; auto. Qed.

Lemma stopAllPolling_run (w : world) :
  let handles := (map_to_list (pollingIntervals (client w))).*2 in
  stopAllPolling w
  = (mkWorld (mkClient (baseUrl (client w)) (apiKey (client w)) (projectId (client w)) ∅)
       (foldr drop_interval (rt w) handles),
     ClearInterval <$> handles).
Proof.
  intros handles. unfold stopAllPolling. rewrite !rest_andthen_run. cbn.
  rewrite app_nil_r. reflexivity.
Qed.

Lemma consistent_stopAllPolling w :
  consistent w -> consistent (stopAllPolling w).1.
Proof.
  intros (I1 & I2 & I3). rewrite stopAllPolling_run. unfold consistent. cbn. split; [|split].
  - intros sid t Ht. rewrite lookup_empty in Ht. discriminate.
  - intros t sid cb Ht. rewrite drop_all_intervals in Ht.
    destruct (decide _) as [|Hnot]; [discriminate|].
    exfalso. apply Hnot. specialize (I2 _ _ _ Ht).
    apply list_elem_of_fmap. exists (sid, t). split; [reflexivity|].
    apply elem_of_map_to_list. exact I2.
  - intros t Ht. rewrite drop_all_fresh. apply I3.
    rewrite drop_all_intervals in Ht. destruct (decide _); [|exact Ht].
    destruct Ht as [? ?]. discriminate.
Qed.

(** Actions that arm and clear nothing. *)
Lemma consistent_same (w w' : world) :
  pollingIntervals (client w') = pollingIntervals (client w) ->
  intervals (rt w') = intervals (rt w) ->
  fresh (rt w) <= fresh (rt w') ->
  consistent w -> consistent w'.
Proof.
  intros Hp Hi Hf (I1 & I2 & I3). unfold consistent. rewrite Hp, Hi.
  split; [exact I1|]. split; [exact I2|].
  intros t Ht. specialize (I3 _ Ht). lia.
Qed.

Lemma consistent_resume sessionId cb r w :
  consistent w -> consistent (resume sessionId cb r w).1.
Proof.
  intros Hw. unfold resume. destruct (getDonationSession r) as [s|e]; [|exact Hw].
  rewrite rest_andthen_run. cbn [fst snd tell].
  destruct (raises_on cb s); [exact Hw|].
  destruct (terminal (status s)); [apply consistent_stopPolling, Hw | exact Hw].
Qed.

Lemma consistent_step (e : event) (w : world) :
  consistent w -> consistent (step e w).1.
Proof.
  intros Hw. destruct e as [o|sid cb|sid| |t|f r|c r]; cbn [step].
  - unfold createDonationSession.
    destruct (wallet_missing o); rewrite rest_andthen_run; cbn;
      apply (consistent_same w); auto; cbn; lia.
  - apply consistent_startPolling, Hw.
  - apply consistent_stopPolling, Hw.
  - apply consistent_stopAllPolling, Hw.
  - destruct (intervals (rt w) !! t) as [[sid cb]|]; [|exact Hw].
    unfold tick. rewrite rest_andthen_run. cbn.
    apply (consistent_same w); auto; cbn; lia.
  - destruct (polls (rt w) !! f) as [[sid cb]|]; [|exact Hw].
    rewrite rest_andthen_run. cbn [fst snd with_runtime].
    apply consistent_resume. apply (consistent_same w); auto.
  - destruct (bool_decide _); [|exact Hw].
    unfold created. rewrite rest_andthen_run. cbn [fst snd with_runtime].
    destruct r as [what|[] st tx [s|]]; cbn; apply (consistent_same w); auto.
Qed.

Lemma consistent_create baseUrl apiKey projectId :
  consistent (create baseUrl apiKey projectId).
Proof.
  split; [|split]; cbn.
  - intros sid t H. rewrite lookup_empty in H. discriminate.
  - intros t sid cb H. rewrite lookup_empty in H. discriminate.
  - intros t [v H]. rewrite lookup_empty in H. discriminate.
Qed.

Lemma consistent_run (es : list event) (w : world) :
  consistent w -> consistent (run es w).1.
Proof.
  revert w. induction es as [|e es IH]; intros w Hw; [exact Hw|].
  change (run (e :: es)) with (step e >>> run es).
  rewrite rest_andthen_run. cbn [fst]. apply IH, consistent_step, Hw.
Qed.


(** In a consistent world the session's map entry singles out its armed
    interval. *)
Lemma consistent_one_timer (w : world) (sessionId : string) (t : nat) :
  consistent w ->
  pollingIntervals (client w) !! sessionId = Some t ->
  ∃ cb, one_timer w sessionId t cb.
Proof.
  intros (I1 & I2 & _) Ht. destruct (I1 _ _ Ht) as [cb Hcb]. exists cb.
  split; [exact Ht|]. intros t' cb'. split.
  - intros Ht'. specialize (I2 _ _ _ Ht'). split; congruence.
  - intros [-> ->]. exact Hcb.
Qed.

(** C9. In every state the client can be in, a second [startPolling] for
    the same session does nothing at all, whatever callback it is given:
    the world is the one the first call left, in which exactly one interval
    is armed for the session; when the session was not polled before the
    first call, that interval calls the first callback. *)
Theorem startPolling_is_idempotent
    (es : list event) (base key project sessionId : string)
    (cb1 cb2 : PollCallback) :
  let w := (run es (create base key project)).1 in
  let w1 := (startPolling sessionId cb1 w).1 in
  startPolling sessionId cb2 w1 = (w1, [])
  ∧ ∃ t cb,
      one_timer (startPolling sessionId cb2 w1).1 sessionId t cb
      ∧ (pollingIntervals (client w) !! sessionId = None -> cb = cb1).
Proof.
  intros w w1.
  assert (Hw : consistent w) by apply consistent_run, consistent_create.
  assert (Hw1 : consistent w1) by apply consistent_startPolling, Hw.
  assert (Hpolled : ∃ t, pollingIntervals (client w1) !! sessionId = Some t
                         ∧ (pollingIntervals (client w) !! sessionId = None ->
                            intervals (rt w1) !! t = Some (sessionId, cb1))).
  { subst w1. destruct (pollingIntervals (client w) !! sessionId) as [t|] eqn:Hp.
    - rewrite startPolling_again by eauto. exists t. split; [exact Hp|discriminate].
    - rewrite (startPolling_new _ _ _ Hp). cbn. exists (fresh (rt w)).
      rewrite !lookup_insert_eq. auto. }
  destruct Hpolled as (t & Ht & Hfirst).
  assert (Hagain : startPolling sessionId cb2 w1 = (w1, [])).
  { apply startPolling_again. eauto. }
  split; [exact Hagain|]. rewrite Hagain. cbn [fst].
  destruct (consistent_one_timer w1 sessionId t Hw1 Ht) as [cb Hone].
  exists t, cb. split; [exact Hone|].
  intros Hnone. specialize (Hfirst Hnone).
  destruct Hone as [_ Hone]. apply Hone in Hfirst as [_ Hcb]. congruence.
Qed.

(** C9 on a fresh client: two calls for session ["s1"] arm interval 0 with
    the first callback, and only that. *)
Lemma startPolling_is_idempotent_witness :
  let first := Observer 1 (fun _ => false) in
  let second := Observer 2 (fun _ => false) in
  let w1 := (startPolling "s1" first
               (run [] (create "https://example.test/api" "key" "project")).1).1 in
  startPolling "s1" second w1 = (w1, [])
  ∧ ∃ t cb, one_timer (startPolling "s1" second w1).1 "s1" t cb ∧ cb = first.
Proof.
  intros first second w1.
  destruct (startPolling_is_idempotent [] "https://example.test/api" "key" "project"
              "s1" first second) as (Hnoop & t & cb & Hone & Hfirst).
  split; [exact Hnoop|].
  exists t, cb. split; [exact Hone|]. apply Hfirst. reflexivity.
Defined.

(** What the rest of a tick does, by cases on the fetch and on the
    callback. *)
Lemma resume_run (sessionId : string) (cb : PollCallback) (r : reply) (w : world) :
  resume sessionId cb r w
  = match getDonationSession r with
    | Failed _ => (w, [PollingError sessionId])
    | Fulfilled s =>
        if raises_on cb s then (w, [CallPoll cb s; PollingError sessionId])
        else if terminal (status s)
             then ((stopPolling sessionId w).1, CallPoll cb s :: (stopPolling sessionId w).2)
             else (w, [CallPoll cb s])
    end.
Proof.
  unfold resume. destruct (getDonationSession r) as [s|e]; [|reflexivity].
  rewrite rest_andthen_run. cbn [fst snd tell app].
  destruct (raises_on cb s); [reflexivity|].
  destruct (terminal (status s)); reflexivity.
Qed.

(** C5, as the code has it.  In every state the client can be in, when the
    fetch of a tick of a polled session answers: if it fetched a terminal
    status and the callback returned, the callback was called and the
    session's interval is cleared right after, no interval stays armed for
    the session and the cleared one cannot tick again; in every other case
    (a status that is not terminal, a callback that raised, a fetch that
    failed) the interval stays armed and the session stays polled.  So the
    interval is cleared exactly when a terminal status was fetched and the
    callback returned. *)
Theorem tick_stops_polling_on_terminal_status
    (es : list event) (base key project sessionId : string)
    (f t : nat) (cb : PollCallback) (r : reply) :
  let w := (run es (create base key project)).1 in
  let after := step (Polled f r) w in
  polls (rt w) !! f = Some (sessionId, cb) ->
  pollingIntervals (client w) !! sessionId = Some t ->
  (∀ s, getDonationSession r = Fulfilled s ->
        terminal (status s) = true ->
        raises_on cb s = false ->
        after.2 = [CallPoll cb s; ClearInterval t]
        ∧ pollingIntervals (client after.1) !! sessionId = None
        ∧ (∀ t' cb', intervals (rt after.1) !! t' ≠ Some (sessionId, cb'))
        ∧ deliverable after.1 (Ticked t) = false)
  ∧ (∀ s, getDonationSession r = Fulfilled s ->
          terminal (status s) = false ∨ raises_on cb s = true ->
          pollingIntervals (client after.1) = pollingIntervals (client w)
          ∧ intervals (rt after.1) = intervals (rt w)
          ∧ CallPoll cb s ∈ after.2)
  ∧ (∀ e, getDonationSession r = Failed e ->
          after.2 = [PollingError sessionId]
          ∧ pollingIntervals (client after.1) = pollingIntervals (client w)
          ∧ intervals (rt after.1) = intervals (rt w))
  ∧ (intervals (rt after.1) !! t = None
     <-> ∃ s, getDonationSession r = Fulfilled s
              ∧ terminal (status s) = true ∧ raises_on cb s = false).
Proof.
  intros w after Hf Ht.
  assert (Hw : consistent w) by apply consistent_run, consistent_create.
  destruct (consistent_one_timer w sessionId t Hw Ht) as [cb0 [_ Hone]].
  assert (Harmed : intervals (rt w) !! t = Some (sessionId, cb0)) by (apply Hone; auto).
  assert (Hafter : after = resume sessionId cb r (mkWorld (client w) (drop_poll f (rt w)))).
  { subst after. cbn [step]. rewrite Hf. rewrite rest_andthen_run.
    unfold with_runtime. cbn [fst snd app]. destruct (resume _ _ _ _); reflexivity. }
  rewrite Hafter, resume_run.
  assert (Hstop : stopPolling sessionId (mkWorld (client w) (drop_poll f (rt w)))
                  = (mkWorld (mkClient (baseUrl (client w)) (apiKey (client w))
                                (projectId (client w))
                                (delete sessionId (pollingIntervals (client w))))
                       (drop_interval t (drop_poll f (rt w))),
                     [ClearInterval t])).
  { exact (stopPolling_armed sessionId t (mkWorld (client w) (drop_poll f (rt w))) Ht). }
  destruct (getDonationSession r) as [s|e].
  - destruct (raises_on cb s) eqn:Hraise; [|destruct (terminal (status s)) eqn:Hterm].
    + repeat match goal with |- _ ∧ _ => split end.
      * intros s' [= <-] _ ?. congruence.
      * intros s' [= <-] _. cbn. repeat split; try reflexivity. left.
      * intros e [=].
      * cbn. split; [congruence|]. intros (s' & [= <-] & _ & ?). congruence.
    + rewrite Hstop. cbn.
      repeat match goal with |- _ ∧ _ => split end.
      * intros s' [= <-] _ _.
        repeat match goal with |- _ ∧ _ => split end.
        -- reflexivity.
        -- apply lookup_delete_eq.
        -- intros t' cb' Ht'. apply lookup_delete_Some in Ht' as [Hne Ht'].
           apply Hone in Ht' as [? _]. congruence.
        -- apply bool_decide_eq_false. rewrite lookup_delete_eq.
           intros [? ?]. discriminate.
      * intros s' [= <-] [?|?]; congruence.
      * intros e [=].
      * rewrite lookup_delete_eq. split; [|reflexivity]. intros _. exists s. auto.
    + repeat match goal with |- _ ∧ _ => split end.
      * intros s' [= <-] ?. congruence.
      * intros s' [= <-] _. cbn. repeat split; try reflexivity. left.
      * intros e [=].
      * cbn. split; [congruence|]. intros (s' & [= <-] & ? & _). congruence.
  - repeat match goal with |- _ ∧ _ => split end.
    + intros s [=].
    + intros s [=].
    + intros e' _. cbn. repeat split; reflexivity.
    + cbn. split; [congruence|]. intros (s' & [=] & _).
Qed.


(** C5 on a client polling session ["s1"] (interval 0) with a callback that
    returns, when the fetch of its first tick (fetch 1) answers
    [finalized]. *)
Lemma tick_stops_polling_on_terminal_status_witness :
  let cb := Observer 0 (fun _ => false) in
  let w := (run [CallStartPolling "s1" cb; Ticked 0]
              (create "https://example.test/api" "key" "project")).1 in
  let s := sample_session "s1" "finalized" in
  let after := step (Polled 1 (Response true "OK" "" (Some s))) w in
  after.2 = [CallPoll cb s; ClearInterval 0]
  ∧ pollingIntervals (client after.1) !! "s1" = None
  ∧ deliverable after.1 (Ticked 0) = false.
Proof.
  intros cb w s after.
  destruct (tick_stops_polling_on_terminal_status
              [CallStartPolling "s1" cb; Ticked 0]
              "https://example.test/api" "key" "project" "s1" 1 0 cb
              (Response true "OK" "" (Some s)))
    as (Hterminal & _); [reflexivity | reflexivity |].
  destruct (Hterminal s) as (Heffects & Hgone & _ & Hquiet); try reflexivity.
  auto.
Defined.

(** C5 as stated does not hold: with a callback that raises, a tick that
    fetches [finalized] calls the callback, lands in the [catch] and leaves
    the interval armed; the next tick can occur. *)
Lemma raising_callback_keeps_polling :
  let cb := Observer 0 (fun _ => true) in
  let w0 := create "https://example.test/api" "key" "project" in
  let history := [CallStartPolling "s1" cb; Ticked 0] in
  let s := sample_session "s1" "finalized" in
  let answer := Polled 1 (Response true "OK" "" (Some s)) in
  possible w0 (history ++ [answer; Ticked 0]) = true
  ∧ terminal (status s) = true
  ∧ (step answer (run history w0).1).2 = [CallPoll cb s; PollingError "s1"]
  ∧ pollingIntervals (client (step answer (run history w0).1).1) !! "s1" = Some 0
  ∧ intervals (rt (step answer (run history w0).1).1) !! 0 = Some ("s1", cb).
Proof. vm_compute. repeat split; reflexivity. Qed.

(** The test of [createDonationSession], in words: the wallet is missing
    when it is absent or empty after trimming (the empty string is). *)
Lemma wallet_missing_iff (o : options) :
  wallet_missing o = true
  <-> creatorWallet o = None ∨ ∃ s, creatorWallet o = Some s ∧ trim s = "".
Proof.
  unfold wallet_missing. destruct (creatorWallet o) as [s|].
  - rewrite orb_true_iff. split.
    + intros [H|H]; right; exists s; split; try reflexivity.
      * apply String.eqb_eq in H. subst s. reflexivity.
      * apply String.eqb_eq in H. exact H.
    + intros [?|(s' & [= <-] & H)]; [discriminate|].
      right. apply String.eqb_eq. exact H.
  - split; auto.
Qed.

(** The client validates before it fetches. *)
Lemma createDonationSession_validates (o : options) (w : world) :
  (wallet_missing o = true ->
     (createDonationSession o w).2 = [Settle (fresh (rt w)) (Failed WalletRequired)]
     ∧ client (createDonationSession o w).1 = client w)
  ∧ (wallet_missing o = false ->
       (createDonationSession o w).2
       = [Fetch (fresh (rt w)) (POST_session (create_body o))]).
Proof.
  unfold createDonationSession. destruct (wallet_missing o);
    rewrite rest_andthen_run; cbn; split; intros; try discriminate; auto.
Qed.

End Poller.

Section PollerClosures.
Import JS Types Rest.

(** After [startPolling] the session is polled. *)
Lemma startPolling_polled (sessionId : string) (cb : PollCallback) (w : world) :
  is_Some (pollingIntervals (client (startPolling sessionId cb w).1) !! sessionId).
Proof.
  destruct (pollingIntervals (client w) !! sessionId) as [t|] eqn:Hp.
  - rewrite startPolling_again by eauto. eauto.
  - rewrite (startPolling_new _ _ _ Hp). cbn. rewrite lookup_insert_eq. eauto.
Qed.

Lemma broadcasting_same (r r' : runtime) :
  intervals r' = intervals r -> polls r' = polls r ->
  broadcasting r -> broadcasting r'.
Proof. intros Hi Hp [B1 B2]. unfold broadcasting. rewrite Hi, Hp. auto. Qed.

Lemma broadcasting_startPolling sessionId w :
  broadcasting (rt w) -> broadcasting (rt (startPolling sessionId Broadcaster w).1).
Proof.
  intros [B1 B2]. destruct (pollingIntervals (client w) !! sessionId) as [t|] eqn:Hp.
  - rewrite startPolling_again by eauto. split; assumption.
  - rewrite (startPolling_new _ _ _ Hp). split; cbn.
    + intros t sid cb Ht. apply lookup_insert_Some in Ht as [[_ [= _ <-]]|[_ Ht]]; eauto.
    + exact B2.
Qed.

Lemma broadcasting_stopPolling sessionId w :
  broadcasting (rt w) -> broadcasting (rt (stopPolling sessionId w).1).
Proof.
  intros [B1 B2]. destruct (pollingIntervals (client w) !! sessionId) as [t|] eqn:Hp.
  - rewrite (stopPolling_armed _ _ _ Hp). split; cbn; [|exact B2].
    intros t' sid cb Ht. apply lookup_delete_Some in Ht as [_ Ht]. eauto.
  - rewrite (stopPolling_idle _ _ Hp). split; assumption.
Qed.

Lemma drop_all_polls (handles : list nat) (r : runtime) :
  polls (foldr drop_interval r handles) = polls r.
Proof. induction handles as [|h handles IH]; cbn; auto. Qed.

Lemma broadcasting_stopAllPolling w :
  broadcasting (rt w) -> broadcasting (rt (stopAllPolling w).1).
Proof.
  intros [B1 B2]. rewrite stopAllPolling_run. split; cbn.
  - intros t sid cb Ht. rewrite drop_all_intervals in Ht.
    destruct (decide _); [discriminate|]. eauto.
  - rewrite drop_all_polls. exact B2.
Qed.

Lemma broadcasting_step (e : event) (w : world) :
  (∀ sessionId cb, e = CallStartPolling sessionId cb -> cb = Broadcaster) ->
  broadcasting (rt w) -> broadcasting (rt (step e w).1).
Proof.
  intros Hown Hw. destruct e as [o|sid cb|sid| |t|f r|c r]; cbn [step].
  - unfold createDonationSession.
    destruct (wallet_missing o); rewrite rest_andthen_run; cbn;
      apply (broadcasting_same (rt w)); auto.
  - rewrite (Hown sid cb eq_refl). apply broadcasting_startPolling, Hw.
  - apply broadcasting_stopPolling, Hw.
  - apply broadcasting_stopAllPolling, Hw.
  - destruct (intervals (rt w) !! t) as [[sid cb]|] eqn:Ht; [|exact Hw].
    unfold tick. rewrite rest_andthen_run. cbn. destruct Hw as [B1 B2]. split; cbn.
    + exact B1.
    + intros f sid' cb' Hf. apply lookup_insert_Some in Hf as [[_ [= _ <-]]|[_ Hf]]; eauto.
  - destruct (polls (rt w) !! f) as [[sid cb]|]; [|exact Hw].
    rewrite rest_andthen_run. cbn [fst snd with_runtime].
    assert (Hdrop : broadcasting (drop_poll f (rt w))).
    { destruct Hw as [B1 B2]. split; cbn; [exact B1|].
      intros f' sid' cb' Hf. apply lookup_delete_Some in Hf as [_ Hf]. eauto. }
    rewrite resume_run. destruct (getDonationSession r) as [s|e]; [|exact Hdrop].
    destruct (raises_on cb s); [exact Hdrop|].
    destruct (terminal (status s)); [|exact Hdrop].
    apply (broadcasting_stopPolling sid (mkWorld (client w) (drop_poll f (rt w)))), Hdrop.
  - destruct (bool_decide _); [|exact Hw].
    unfold created. rewrite rest_andthen_run. cbn [fst snd with_runtime].
    destruct r as [what|[] st tx [s|]]; cbn; apply (broadcasting_same (rt w)); auto.
Qed.

End PollerClosures.

(* ===================================================================== *)
(** ** Properties of the facade *)
(* ===================================================================== *)

Section ConnectOutcome.
Import JS Types WS.

(** [connect()] when the constructor throws: the promise is rejected at
    once. *)
Lemma connect_throws (w : world) (e : string) :
  constructor_throws (rt w) = Some e ->
  (connect Caller w).2 = [Settle (fresh (rt w)) (Rejected (Raised e))].
Proof.
  intros He. destruct w as [m k]. cbn in He.
  unfold connect, new_promise. rewrite andthen_run.
  unfold with_runtime. cbn [fst snd rt mgr take_handle put_promise constructor_throws].
  rewrite He. rewrite settle_new. reflexivity.
Qed.

(** [connect()] when it does not: a socket is constructed; when that socket
    reports an error before it opened, the promise is rejected with it. *)
Lemma connect_constructs (w : world) :
  constructor_throws (rt w) = None ->
  (connect Caller w).2 = [Construct (S (fresh (rt w)))]
  ∧ sockets (rt (connect Caller w).1) !! S (fresh (rt w))
    = Some (CONNECTING, fresh (rt w))
  ∧ promises (rt (connect Caller w).1) !! fresh (rt w) = Some Caller.
Proof.
  intros He. destruct w as [m k]. cbn in He.
  unfold connect, new_promise. rewrite andthen_run.
  unfold with_runtime. cbn [fst snd rt mgr take_handle put_promise constructor_throws].
  rewrite He. rewrite !andthen_run.
  unfold with_runtime, assign_ws, tell.
  cbn [fst snd rt mgr take_handle put_promise put_socket sockets promises fresh app].
  split; [reflexivity|]. split; apply lookup_insert_eq.
Qed.

(** A promise that is pending for its caller is settled by a call of
    [resolve] or [reject]. *)
Lemma settle_pending (p : nat) (r : settlement) (w : world) :
  promises (rt w) !! p = Some Caller ->
  (settle p r w).2 = [Settle p r].
Proof. intros Hp. unfold settle. rewrite Hp. reflexivity. Qed.

Lemma connect_then_error (w : world) (what : string) :
  constructor_throws (rt w) = None ->
  let s := S (fresh (rt w)) in
  (connect Caller w).2 = [Construct s]
  ∧ (step (Errored s what) (connect Caller w).1).2
    = [Console (LSocketError what); Settle (fresh (rt w)) (Rejected (Raised what))].
Proof.
  intros He s. subst s. destruct (connect_constructs w He) as (Hc & Hs & Hp).
  split; [exact Hc|]. cbn [step]. rewrite Hs. unfold onerror.
  rewrite andthen_run. cbn [fst snd tell app].
  rewrite (settle_pending _ _ _ Hp). reflexivity.
Qed.

End ConnectOutcome.

Section Coordinator.
Import JS Types Facade.

Lemma facade_andthen_run (a b : action) (w : world) :
  (a >>> b) w = ((b (a w).1).1, (a w).2 ++ (b (a w).1).2).
Proof.
  unfold andthen. destruct (a w) as [w1 e1]. simpl.
  destruct (b w1) as [w2 e2]. reflexivity.
Qed.

Lemma each_cons {A : Type} (f : A -> action) (x : A) (l : list A) (w : world) :
  each f (x :: l) w = ((each f l (f x w).1).1, (f x w).2 ++ (each f l (f x w).1).2).
Proof. cbn [each]. apply facade_andthen_run. Qed.

(** A list of reactions that leave the facade alone leaves it alone. *)
Lemma each_world {A : Type} (f : A -> action) (l : list A) (w : world) :
  (∀ x v, (f x v).1 = v) -> (each f l w).1 = w.
Proof.
  intros Hf. induction l as [|x l IH]; [reflexivity|].
  rewrite each_cons. cbn [fst]. rewrite Hf. exact IH.
Qed.

Lemma each_effects {A : Type} (Q : effect -> Prop) (Inv : world -> Prop)
    (f : A -> action) (l : list A) (w : world) :
  (∀ x v, Inv v -> Inv (f x v).1 ∧ Forall Q (f x v).2) ->
  Inv w -> Inv (each f l w).1 ∧ Forall Q (each f l w).2.
Proof.
  intros Hf. revert w. induction l as [|x l IH]; intros w Hw.
  - split; [exact Hw | constructor].
  - rewrite each_cons. cbn [fst snd]. destruct (Hf x w Hw) as [H1 E1].
    destruct (IH _ H1) as [H2 E2]. split; [exact H2|]. apply Forall_app. auto.
Qed.

Lemma broadcastEvent_world ev w : (broadcastEvent ev w).1 = w.
Proof. reflexivity. Qed.

Lemma after_channel_world e w : (after_channel e w).1 = w.
Proof.
  unfold after_channel. rewrite facade_andthen_run. cbn [fst tell].
  destruct e as [| | | | | | |[] ev|p []]; try reflexivity.
Qed.

Lemma after_poll_world now e w : (after_poll now e w).1 = w.
Proof.
  unfold after_poll. rewrite facade_andthen_run. cbn [fst tell].
  destruct e as [| | | |[] s|]; reflexivity.
Qed.

Lemma plain_world e w : (plain e w).1 = w.
Proof. reflexivity. Qed.

Lemma on_channel_run (a : WS.action) (w : world) (m : WS.WebSocketManager) :
  wsManager (sdk w) = Some m ->
  let r := a (WS.mkWorld m (channel w)) in
  on_channel a w = (put_channel r.1 w, (each after_channel r.2 (put_channel r.1 w)).2).
Proof.
  intros Hm r. subst r. unfold on_channel. rewrite Hm.
  destruct (a _) as [cw es]. cbn [fst snd].
  rewrite <- (each_world after_channel es (put_channel cw w) after_channel_world) at 2.
  destruct (each _ _ _); reflexivity.
Qed.

Lemma on_rest_run (a : Rest.action) (after : Rest.effect -> action) (w : world)
    (c : Rest.RestClient) :
  restClient (sdk w) = Some c ->
  let r := a (Rest.mkWorld c (http w)) in
  on_rest a after w = each after r.2 (put_rest r.1 w).
Proof.
  intros Hc r. subst r. unfold on_rest. rewrite Hc.
  destruct (a _) as [rw es]. reflexivity.
Qed.

Lemma sound_put_channel cw w : sound w -> sound (put_channel cw w).
Proof. intros [_ Hrest]. split; [cbn; eauto | exact Hrest]. Qed.

Lemma sound_put_rest rw w :
  sound w -> Rest.consistent rw -> Rest.broadcasting (Rest.rt rw) ->
  sound (put_rest rw w).
Proof.
  intros [Hws _] Hc Hb. split; [exact Hws|]. exists rw. split; [|auto].
  destruct rw; reflexivity.
Qed.

Lemma sound_on_channel a w : sound w -> sound (on_channel a w).1.
Proof.
  intros Hw. destruct Hw as [[m Hm] Hrest].
  rewrite (on_channel_run a w m Hm). cbn [fst].
  apply sound_put_channel. split; eauto.
Qed.

Lemma resolves_on_channel a w : Forall resolves (on_channel a w).2.
Proof.
  unfold on_channel. destruct (wsManager (sdk w)) as [m|]; [|constructor].
  destruct (a _) as [cw es].
  apply (each_effects resolves (fun _ => True) after_channel es); [|exact I].
  intros e v _. split; [exact I|].
  unfold after_channel. rewrite facade_andthen_run. cbn [fst snd tell].
  constructor; [exact I|].
  destruct e as [| | | | | | |[] ev|p []]; cbn; repeat constructor.
  unfold broadcastEvent. cbn. apply Forall_fmap, Forall_true. intros cb. exact I.
Qed.


Lemma resolves_each {A : Type} (f : A -> action) (l : list A) (w : world) :
  (∀ x v, Forall resolves (f x v).2) -> Forall resolves (each f l w).2.
Proof.
  intros Hf. apply (each_effects resolves (fun _ => True) f l); [|exact I].
  intros x v _. split; [exact I | apply Hf].
Qed.

Lemma resolves_deliveries (ev : DonationEvent) (w : world) :
  Forall resolves (broadcastEvent ev w).2.
Proof. unfold broadcastEvent. cbn. apply Forall_fmap, Forall_true. intros cb. exact I. Qed.

Lemma resolves_plain e w : Forall resolves (plain e w).2.
Proof. repeat constructor. Qed.

Lemma resolves_after_poll now e w : Forall resolves (after_poll now e w).2.
Proof.
  unfold after_poll. rewrite facade_andthen_run. cbn [fst snd tell].
  constructor; [exact I|].
  destruct e as [| | | |[] s|]; first [apply resolves_deliveries | constructor].
Qed.

Lemma resolves_on_rest a after w :
  (∀ e v, Forall resolves (after e v).2) -> Forall resolves (on_rest a after w).2.
Proof.
  intros Hafter. unfold on_rest. destruct (restClient (sdk w)) as [c|]; [|constructor].
  destruct (a _) as [rw es]. apply resolves_each. exact Hafter.
Qed.

Lemma resolves_after_create e w : Forall resolves (after_create e w).2.
Proof.
  unfold after_create. rewrite facade_andthen_run. cbn [fst snd tell].
  constructor; [exact I|].
  destruct e as [| | | | |c [s|e]]; cbn [app]; try constructor.
  - rewrite !facade_andthen_run. cbn [fst snd]. apply Forall_app. split; [constructor|].
    apply Forall_app. split; [|repeat constructor].
    apply resolves_on_rest. intros e v. apply resolves_plain.
  - exact I.
  - constructor.
Qed.

(** A method of the REST client that keeps the poller's invariants keeps the
    facade sound, under reactions that leave the facade alone. *)
Lemma sound_on_rest (a : Rest.action) (after : Rest.effect -> action) (w : world) :
  (∀ rw, Rest.consistent rw -> Rest.broadcasting (Rest.rt rw) ->
         Rest.consistent (a rw).1 ∧ Rest.broadcasting (Rest.rt (a rw).1)) ->
  (∀ e v, sound v -> sound (after e v).1) ->
  sound w -> sound (on_rest a after w).1.
Proof.
  intros Ha Hafter Hw. destruct Hw as [Hws (rw & Hrw & Hc & Hb)].
  unfold poller in Hrw. destruct (restClient (sdk w)) as [c|] eqn:Hclient; [|discriminate].
  injection Hrw as <-. rewrite (on_rest_run a after w c Hclient). cbn zeta.
  destruct (Ha _ Hc Hb) as [Hc' Hb'].
  apply (each_effects (fun _ => True) sound after).
  - intros e v Hv. split; [apply Hafter, Hv|]. apply Forall_true. intros ?. exact I.
  - apply sound_put_rest; auto. split; [exact Hws|].
    exists (Rest.mkWorld c (http w)). unfold poller. rewrite Hclient. auto.
Qed.

Lemma sound_plain e v : sound v -> sound (plain e v).1.
Proof. intros H. exact H. Qed.

Lemma sound_after_poll now e v : sound v -> sound (after_poll now e v).1.
Proof. intros H. rewrite after_poll_world. exact H. Qed.

Lemma sound_assign_activeSessions s v : sound v -> sound (assign_activeSessions s v).1.
Proof. intros H. exact H. Qed.

Lemma sound_assign_eventListeners l v : sound v -> sound (assign_eventListeners l v).1.
Proof. intros H. exact H. Qed.

Lemma rest_step_keeps (e : Rest.event) :
  (∀ sessionId cb, e = Rest.CallStartPolling sessionId cb -> cb = Rest.Broadcaster) ->
  ∀ rw, Rest.consistent rw -> Rest.broadcasting (Rest.rt rw) ->
        Rest.consistent (Rest.step e rw).1 ∧ Rest.broadcasting (Rest.rt (Rest.step e rw).1).
Proof.
  intros Hown rw Hc Hb. split; [apply consistent_step, Hc | apply broadcasting_step; auto].
Qed.

Lemma sound_after_create e v : sound v -> sound (after_create e v).1.
Proof.
  intros Hv. unfold after_create. rewrite facade_andthen_run. cbn [fst tell].
  destruct e as [| | | | |c [s|e]]; try exact Hv.
  rewrite !facade_andthen_run. cbn [fst tell].
  apply (sound_on_rest (Rest.step (Rest.CallStartPolling (id s) Rest.Broadcaster)) plain).
  - apply rest_step_keeps. intros sid cb [= _ <-]. reflexivity.
  - intros e v' Hv'. exact Hv'.
  - exact Hv.
Qed.

(** Every method and handler keeps the facade sound and returns no
    rejection from [connect()]. *)
Lemma sound_step (e : event) (w : world) :
  sound w -> sound (step e w).1 ∧ Forall resolves (step e w).2.
Proof.
  intros Hw.
  destruct e as [|o|kind cb|kind cb| |s now|s parsed now|s what|s now|t|t|f r now|c r];
    cbn [step].
  - unfold connect. destruct Hw as [[m Hm] Hrest]. rewrite Hm. split.
    + apply sound_on_channel. split; eauto.
    + apply resolves_on_channel.
  - unfold createDonationSession.
    destruct Hw as [Hws (rw & Hrw & Hc & Hb)]. unfold poller in Hrw.
    destruct (restClient (sdk w)) as [rc|] eqn:Hclient; [|discriminate]. split.
    + apply (sound_on_rest (Rest.step (Rest.CallCreate o)) after_create).
      * apply rest_step_keeps. intros sid cb [=].
      * apply sound_after_create.
      * split; [exact Hws|]. exists rw. unfold poller. rewrite Hclient. auto.
    + apply resolves_on_rest. apply resolves_after_create.
  - split; [exact Hw | constructor].
  - unfold off. destruct (eventListeners (sdk w) !! kind); split;
      try exact Hw; constructor.
  - unfold disconnect. rewrite !facade_andthen_run. cbn [fst snd]. split.
    + apply (sound_on_rest (Rest.step Rest.CallStopAllPolling) plain).
      * apply rest_step_keeps. intros sid cb [=].
      * intros e v Hv. exact Hv.
      * apply sound_on_channel, Hw.
    + apply Forall_app. split; [apply resolves_on_channel|].
      apply Forall_app. split; [|constructor].
      apply resolves_on_rest. intros e v. apply resolves_plain.
  - split; [apply sound_on_channel, Hw | apply resolves_on_channel].
  - split; [apply sound_on_channel, Hw | apply resolves_on_channel].
  - split; [apply sound_on_channel, Hw | apply resolves_on_channel].
  - split; [apply sound_on_channel, Hw | apply resolves_on_channel].
  - split; [apply sound_on_channel, Hw | apply resolves_on_channel].
  - split.
    + apply sound_on_rest; auto using sound_plain.
      apply rest_step_keeps. intros sid cb [=].
    + apply resolves_on_rest. intros e v. apply resolves_plain.
  - split.
    + apply sound_on_rest; auto using sound_after_poll.
      apply rest_step_keeps. intros sid cb [=].
    + apply resolves_on_rest. apply resolves_after_poll.
  - split.
    + apply sound_on_rest; auto using sound_after_create.
      apply rest_step_keeps. intros sid cb [=].
    + apply resolves_on_rest. apply resolves_after_create.
Qed.

Lemma sound_run (es : list event) (w : world) :
  sound w -> sound (run es w).1 ∧ Forall resolves (run es w).2.
Proof.
  revert w. induction es as [|e es IH]; intros w Hw.
  - split; [exact Hw | constructor].
  - change (run (e :: es)) with (step e >>> run es).
    rewrite facade_andthen_run. cbn [fst snd].
    destruct (sound_step e w Hw) as [H1 E1]. destruct (IH _ H1) as [H2 E2].
    split; [exact H2 | apply Forall_app; auto].
Qed.

Lemma sound_create (cfg : GiveBitConfig) (throws : option string) :
  sound (create cfg throws).
Proof.
  unfold create, setupEventForwarding. cbn [sdk wsManager].
  apply (each_effects (fun _ => True) sound
           (fun kind => on_channel (WS.on kind Forwarder)) event_kinds).
  - intros kind v Hv. split; [apply sound_on_channel, Hv|].
    apply Forall_true. intros ?. exact I.
  - split; [cbn; eauto|]. eexists. split; [reflexivity|].
    split; [apply consistent_create|].
    split; cbn; intros ? ? ? H; rewrite lookup_empty in H; discriminate.
Qed.


(** [connect()] of the facade when the constructor throws. *)
Lemma facade_connect_throws (w : world) (e : string) :
  sound w ->
  WS.constructor_throws (channel w) = Some e ->
  (step CallConnect w).2
  = [Channel (WS.Settle (WS.fresh (channel w)) (WS.Rejected (WS.Raised e)));
     Warn (WS.Raised e); ConnectReturned (Done tt)].
Proof.
  intros [[m Hm] _] He. cbn [step]. unfold connect. rewrite Hm.
  rewrite (on_channel_run _ w m Hm). cbn [snd].
  rewrite (connect_throws (WS.mkWorld m (channel w)) e He). reflexivity.
Qed.

(** [connect()] of the facade when the socket then fails to open. *)
Lemma facade_connect_then_error (w : world) (what : string) :
  sound w ->
  WS.constructor_throws (channel w) = None ->
  let s := S (WS.fresh (channel w)) in
  (step CallConnect w).2 = [Channel (WS.Construct s)]
  ∧ (step (Errored s what) (step CallConnect w).1).2
    = [Channel (WS.Console (WS.LSocketError what));
       Channel (WS.Settle (WS.fresh (channel w)) (WS.Rejected (WS.Raised what)));
       Warn (WS.Raised what); ConnectReturned (Done tt)].
Proof.
  intros [[m Hm] _] He s. subst s. cbn [step]. unfold connect. rewrite Hm.
  rewrite (on_channel_run _ w m Hm). cbn [fst snd].
  destruct (connect_then_error (WS.mkWorld m (channel w)) what He) as [Hc Herr].
  cbn zeta in Hc, Herr. cbn [WS.rt] in Hc, Herr.
  destruct (WS.connect WS.Caller (WS.mkWorld m (channel w))) as [[m1 k1] es].
  cbn [fst snd] in *. subst es. split; [reflexivity|].
  rewrite (on_channel_run _ (put_channel (WS.mkWorld m1 k1) w) m1 eq_refl).
  cbn [snd channel put_channel WS.mgr WS.rt]. rewrite Herr. reflexivity.
Qed.


(** [createDonationSession] of the facade with a wallet: the POST is
    issued and the call waits for its answer. *)
Lemma create_issues_post (w : world) (o : Rest.options) :
  sound w ->
  Rest.wallet_missing o = false ->
  (step (CallCreate o) w).2
  = [Poller (Rest.Fetch (Rest.fresh (http w)) (Rest.POST_session (Rest.create_body o)))]
  ∧ Rest.fresh (http w) ∈ Rest.creates (http (step (CallCreate o) w).1)
  ∧ eventListeners (sdk (step (CallCreate o) w).1) = eventListeners (sdk w).
Proof.
  intros Hw Ho. destruct Hw as [_ (rw & Hrw & _)]. unfold poller in Hrw.
  destruct (restClient (sdk w)) as [rc|] eqn:Hrc; [|discriminate].
  cbn [step]. unfold createDonationSession. rewrite Hrc.
  rewrite (on_rest_run _ _ w rc Hrc). cbn zeta.
  unfold Rest.createDonationSession. rewrite Ho. rewrite rest_andthen_run.
  cbn. split; [reflexivity|]. split; [set_solver | reflexivity].
Qed.

(** The answer to the POST: the call returns the session, the session is
    active and polled. *)
Lemma answer_starts_polling (w : world) (c : nat) (st tx : string)
    (session : DonationSession) :
  sound w ->
  c ∈ Rest.creates (http w) ->
  let after := step (Answered c (Rest.Response true st tx (Some session))) w in
  CreateReturned (Rest.Fulfilled session) ∈ after.2
  ∧ id session ∈ activeSessions (sdk after.1)
  ∧ eventListeners (sdk after.1) = eventListeners (sdk w)
  ∧ ∃ t rw, poller after.1 = Some rw
            ∧ Rest.one_timer rw (id session) t Rest.Broadcaster.
Proof.
  intros Hw Hc after.
  assert (Hafter : sound after.1) by apply sound_step, Hw.
  destruct Hw as [_ (rw & Hrw & _)]. unfold poller in Hrw.
  destruct (restClient (sdk w)) as [rc|] eqn:Hrc; [|discriminate].
  assert (Hrun : after
    = (after_create (Rest.Settle c (Rest.Fulfilled session))
         (put_rest (Rest.mkWorld rc (Rest.drop_create c (http w))) w))).
  { subst after. cbn [step]. rewrite (on_rest_run _ _ w rc Hrc). cbn zeta.
    cbn [Rest.step Rest.rt]. rewrite bool_decide_eq_true_2 by exact Hc.
    unfold Rest.created. rewrite rest_andthen_run. cbn [fst snd Rest.with_runtime Rest.tell app].
    cbn [each]. rewrite facade_andthen_run. cbn [skip fst snd].
    rewrite app_nil_r. destruct (after_create _ _); reflexivity. }
  revert Hafter. rewrite Hrun. clear Hrun after.
  unfold after_create. rewrite !facade_andthen_run.
  cbn [fst snd tell assign_activeSessions].
  set (w1 := mkWorld _ _ _).
  assert (Hrc1 : restClient (sdk w1) = Some rc) by reflexivity.
  rewrite (on_rest_run _ _ w1 rc Hrc1). cbn zeta.
  set (started := Rest.startPolling (id session) Rest.Broadcaster _).
  rewrite (surjective_pairing (each plain started.2 (put_rest started.1 w1))).
  rewrite (each_world plain _ _ plain_world). cbn [fst snd].
  intros Hafter.
  repeat match goal with |- _ ∧ _ => split end.
  - apply elem_of_app. right. apply elem_of_app. right.
    apply elem_of_app. right. left.
  - cbn. set_solver.
  - reflexivity.
  - destruct Hafter as [_ (rw2 & Hrw2 & Hc2 & Hb2)].
    assert (Hpolled : is_Some (Rest.pollingIntervals (Rest.client rw2) !! id session)).
    { cbn in Hrw2. injection Hrw2 as <-. cbn [Rest.client].
      apply startPolling_polled. }
    destruct Hpolled as [t Ht].
    destruct (consistent_one_timer rw2 (id session) t Hc2 Ht) as [cb Hone].
    exists t, rw2. split; [exact Hrw2|].
    assert (cb = Rest.Broadcaster) as <-; [|exact Hone].
    destruct Hone as [_ Hone]. destruct Hb2 as [Hb2 _].
    apply (Hb2 t (id session)). apply Hone. auto.
Qed.

(** A tick of an armed interval issues the GET of its session. *)
Lemma tick_issues_get (w : world) (rw : Rest.world) (t : nat) (sessionId : string)
    (cb : Rest.PollCallback) :
  poller w = Some rw ->
  Rest.intervals (Rest.rt rw) !! t = Some (sessionId, cb) ->
  (step (Ticked t) w).2
  = [Poller (Rest.Fetch (Rest.fresh (http w)) (Rest.GET_session sessionId))]
  ∧ is_Some (restClient (sdk (step (Ticked t) w).1))
  ∧ Rest.polls (http (step (Ticked t) w).1) !! Rest.fresh (http w) = Some (sessionId, cb)
  ∧ eventListeners (sdk (step (Ticked t) w).1) = eventListeners (sdk w).
Proof.
  intros Hrw Ht. unfold poller in Hrw.
  destruct (restClient (sdk w)) as [rc|] eqn:Hrc; [|discriminate].
  injection Hrw as <-. cbn [Rest.rt] in Ht.
  cbn [step]. rewrite (on_rest_run _ _ w rc Hrc). cbn zeta.
  cbn [Rest.step Rest.rt]. rewrite Ht. unfold Rest.tick. rewrite rest_andthen_run.
  cbn. rewrite lookup_insert_eq. eauto.
Qed.

(** The answer to the GET of a tick of the facade's closure is broadcast to
    the subscribers of the kind made of the fetched status. *)
Lemma poll_answer_is_broadcast (w : world) (f : nat) (sessionId st tx : string)
    (updated : DonationSession) (now : Z) (cb : EventCallback) :
  is_Some (restClient (sdk w)) ->
  Rest.polls (http w) !! f = Some (sessionId, Rest.Broadcaster) ->
  cb ∈ default [] (eventListeners (sdk w) !! ("donation_" +:+ status updated)) ->
  Deliver cb (pollEvent updated now)
  ∈ (step (Polled f (Rest.Response true st tx (Some updated)) now) w).2.
Proof.
  intros [rc Hrc] Hf Hcb. cbn [step]. rewrite (on_rest_run _ _ w rc Hrc). cbn zeta.
  cbn [Rest.step Rest.rt]. rewrite Hf. rewrite rest_andthen_run.
  cbn [fst snd Rest.with_runtime app]. rewrite resume_run.
  cbn [Rest.getDonationSession Rest.raises_on].
  match goal with
  | |- context [each (after_poll now) ?es.2 _] =>
      assert (Hhead : ∃ rest, es.2 = Rest.CallPoll Rest.Broadcaster updated :: rest)
  end.
  { destruct (Rest.terminal (status updated)); eexists; reflexivity. }
  destruct Hhead as [rest Hhead]. rewrite Hhead. rewrite each_cons. cbn [snd].
  apply elem_of_app. left.
  unfold after_poll. rewrite facade_andthen_run. cbn [fst snd tell app].
  right. unfold broadcastEvent. cbn [snd].
  apply list_elem_of_fmap. exists cb. split; [reflexivity|]. exact Hcb.
Qed.


(** C6. In every state the facade can be in, no history contains a
    rejection of [connect()]; when the attempt to open the channel fails,
    because the constructor throws or because the socket reports an error,
    the failure is printed as a warning and [connect()] resolves.  And in
    every such state, a session created afterwards (the wallet given, the
    POST answered) is returned, active and polled by exactly one interval
    of the facade's closure, whose tick fetches the session and, on the
    answer, delivers the event built from the fetched status to every
    subscriber of that kind: with no help from the channel. *)
Theorem connect_resolves_and_polling_delivers
    (es : list event) (cfg : GiveBitConfig) (throws : option string) :
  let w := (run es (create cfg throws)).1 in
  (∀ what, ConnectReturned (Thrown what) ∉ (run es (create cfg throws)).2)
  ∧ (∀ e, WS.constructor_throws (channel w) = Some e ->
          (step CallConnect w).2
          = [Channel (WS.Settle (WS.fresh (channel w)) (WS.Rejected (WS.Raised e)));
             Warn (WS.Raised e); ConnectReturned (Done tt)])
  ∧ (WS.constructor_throws (channel w) = None ->
     ∀ what,
       (step CallConnect w).2 = [Channel (WS.Construct (S (WS.fresh (channel w))))]
       ∧ (step (Errored (S (WS.fresh (channel w))) what) (step CallConnect w).1).2
         = [Channel (WS.Console (WS.LSocketError what));
            Channel (WS.Settle (WS.fresh (channel w)) (WS.Rejected (WS.Raised what)));
            Warn (WS.Raised what); ConnectReturned (Done tt)])
  ∧ (∀ (o : Rest.options) (session : DonationSession) (st tx : string),
       Rest.wallet_missing o = false ->
       let c := Rest.fresh (http w) in
       let answered :=
         step (Answered c (Rest.Response true st tx (Some session)))
           (step (CallCreate o) w).1 in
       (step (CallCreate o) w).2
       = [Poller (Rest.Fetch c (Rest.POST_session (Rest.create_body o)))]
       ∧ CreateReturned (Rest.Fulfilled session) ∈ answered.2
       ∧ id session ∈ activeSessions (sdk answered.1)
       ∧ ∃ t rw,
           poller answered.1 = Some rw
           ∧ Rest.one_timer rw (id session) t Rest.Broadcaster
           ∧ (step (Ticked t) answered.1).2
             = [Poller (Rest.Fetch (Rest.fresh (http answered.1))
                          (Rest.GET_session (id session)))]
           ∧ ∀ (updated : DonationSession) (st' tx' : string) (now : Z)
               (cb : EventCallback),
               cb ∈ default [] (eventListeners (sdk w)
                                  !! ("donation_" +:+ status updated)) ->
               Deliver cb (pollEvent updated now)
               ∈ (step (Polled (Rest.fresh (http answered.1))
                          (Rest.Response true st' tx' (Some updated)) now)
                    (step (Ticked t) answered.1).1).2).
Proof.
  intros w.
  destruct (sound_run es (create cfg throws) (sound_create cfg throws)) as [Hw Hres].
  fold w in Hw.
  repeat match goal with |- _ ∧ _ => split end.
  - intros what Hin. rewrite Forall_forall in Hres. exact (Hres _ Hin).
  - intros e He. exact (facade_connect_throws w e Hw He).
  - intros He what. exact (facade_connect_then_error w what Hw He).
  - intros o session st tx Ho c answered.
    destruct (create_issues_post w o Hw Ho) as (Hpost & Hc & Hl1).
    assert (Hw1 : sound (step (CallCreate o) w).1) by apply sound_step, Hw.
    destruct (answer_starts_polling _ c st tx session Hw1 Hc)
      as (Hret & Hactive & Hl2 & t & rw & Hrw & Hone).
    fold answered in Hret, Hactive, Hl2, Hrw.
    split; [exact Hpost|]. split; [exact Hret|]. split; [exact Hactive|].
    exists t, rw. split; [exact Hrw|]. split; [exact Hone|].
    assert (Harmed : Rest.intervals (Rest.rt rw) !! t
                     = Some (id session, Rest.Broadcaster)).
    { destruct Hone as [_ Hone]. apply Hone. auto. }
    destruct (tick_issues_get answered.1 rw t (id session) Rest.Broadcaster Hrw Harmed)
      as (Hget & Hrc & Hpoll & Hl3).
    split; [exact Hget|].
    intros updated st' tx' now cb Hcb.
    apply (poll_answer_is_broadcast _ _ (id session)); [exact Hrc | exact Hpoll |].
    rewrite Hl3, Hl2, Hl1. exact Hcb.
Qed.


(** C6 on a facade with one subscriber of [donation_confirmed] whose
    channel failed to open: the session created afterwards is polled, and
    the answer [confirmed] to the tick reaches the subscriber. *)
Lemma connect_resolves_and_polling_delivers_witness :
  let cfg := mkConfig "project" "key" Config.testnet None None None None in
  let o := Rest.mkOptions (Rest.AmountNumber 1) "ETH" "holesky" (Some "0xC0FFEE")
             None None in
  let es := [CallOn "donation_confirmed" (Subscriber 0); CallConnect;
             Errored 1 "refused"; Closed 1 5] in
  let w := (run es (create cfg None)).1 in
  let created := sample_session "s1" "pending" in
  let updated := sample_session "s1" "confirmed" in
  let answered :=
    step (Answered 0 (Rest.Response true "OK" "" (Some created)))
      (step (CallCreate o) w).1 in
  ConnectReturned (Done tt) ∈ (run es (create cfg None)).2
  ∧ (∀ what, ConnectReturned (Thrown what) ∉ (run es (create cfg None)).2)
  ∧ ∃ t, Deliver (Subscriber 0) (pollEvent updated 1700)
         ∈ (step (Polled (Rest.fresh (http answered.1))
                    (Rest.Response true "OK" "" (Some updated)) 1700)
              (step (Ticked t) answered.1).1).2.
Proof.
  intros cfg o es w created updated answered.
  destruct (connect_resolves_and_polling_delivers es cfg None)
    as (Hnever & _ & _ & Hpolling).
  split; [|split; [exact Hnever|]].
  - vm_compute. do 4 right. left.
  - destruct (Hpolling o created "OK" "" eq_refl)
      as (_ & _ & _ & t & rw & _ & _ & _ & Hdeliver).
    exists t. apply Hdeliver. vm_compute. left.
Defined.

(** C3 at the failing input: a tick that fetches the status [expired] is
    broadcast under the kind [donation_expired], which is none of the six
    kinds of [DonationEvent], and a subscriber of that name receives it. *)
Theorem poll_tick_broadcasts_donation_expired :
  let cfg := mkConfig "project" "key" Config.testnet None None None None in
  let o := Rest.mkOptions (Rest.AmountNumber 1) "ETH" "holesky" (Some "0xC0FFEE")
             None None in
  let history := [CallOn "donation_expired" (Subscriber 0); CallCreate o;
                  Answered 0 (Rest.Response true "OK" ""
                                (Some (sample_session "s1" "pending")));
                  Ticked 1] in
  let expired := sample_session "s1" "expired" in
  let answer := Polled 2 (Rest.Response true "OK" "" (Some expired)) 1700 in
  possible (create cfg None) (history ++ [answer]) = true
  ∧ (step answer (run history (create cfg None)).1).2
    = [Poller (Rest.CallPoll Rest.Broadcaster expired);
       Deliver (Subscriber 0)
         (mkEvent (JStr "donation_expired") (Some (session_json expired))
            (JNum 1700) None);
       Poller (Rest.ClearInterval 1)]
  ∧ "donation_expired" ∉ event_kinds.
Proof.
  intros cfg o history expired answer.
  split; [vm_compute; reflexivity|]. split; [vm_compute; reflexivity|].
  intros Hin. unfold event_kinds in Hin.
  repeat (apply elem_of_cons in Hin as [Hin|Hin]; [discriminate|]).
  apply elem_of_nil in Hin. exact Hin.
Qed.

(** The kind of a poll event is the fetched status behind the prefix. *)
Lemma pollEvent_kind (updatedSession : DonationSession) (now : Z) :
  type (pollEvent updatedSession now) = JStr ("donation_" +:+ status updatedSession).
Proof. reflexivity. Qed.

(** C7. A call of [createDonationSession] whose wallet is absent, empty or
    made of white space only (every code point [String.prototype.trim]
    strips counts, so that it is empty after trimming) is rejected by the
    call itself, by the client and by the facade, and issues no request; a
    request is issued only when the wallet is present and not empty after
    trimming, that is, holds something that is not white space. *)
Theorem wallet_is_validated_before_the_request
    (o : Rest.options) (rw : Rest.world) (w : world) :
  (Rest.creatorWallet o = None
   ∨ (∃ s, Rest.creatorWallet o = Some s ∧ Rest.blank s) ->
     (Rest.createDonationSession o rw).2
     = [Rest.Settle (Rest.fresh (Rest.rt rw)) (Rest.Failed Rest.WalletRequired)]
     ∧ (∀ f r, Poller (Rest.Fetch f r) ∉ (createDonationSession o w).2)
     ∧ ∃ e, CreateReturned (Rest.Failed e) ∈ (createDonationSession o w).2)
  ∧ (∀ f r, Rest.Fetch f r ∈ (Rest.createDonationSession o rw).2 ->
            ∃ s, Rest.creatorWallet o = Some s ∧ Rest.trim s ≠ "" ∧ ¬ Rest.blank s)
  ∧ (∀ f r, Poller (Rest.Fetch f r) ∈ (createDonationSession o w).2 ->
            ∃ s, Rest.creatorWallet o = Some s ∧ Rest.trim s ≠ "" ∧ ¬ Rest.blank s)
  ∧ (∀ s, Rest.trim s = "" <-> Rest.blank s)
  ∧ (∀ s, ∃ p q, Rest.blank p ∧ Rest.blank q ∧ s = p +:+ Rest.trim s +:+ q).
Proof.
  assert (Hpresent : Rest.wallet_missing o = false ->
            ∃ s, Rest.creatorWallet o = Some s ∧ Rest.trim s ≠ "" ∧ ¬ Rest.blank s).
  { intros Ho. destruct (Rest.creatorWallet o) as [s|] eqn:Hs.
    - assert (Hne : Rest.trim s ≠ "").
      { intros Hempty.
        assert (Rest.wallet_missing o = true); [|congruence].
        apply wallet_missing_iff. right. exists s. auto. }
      exists s. split; [reflexivity|]. split; [exact Hne|].
      intros Hblank. apply Hne, trim_empty_iff, Hblank.
    - assert (Rest.wallet_missing o = true); [|congruence].
      apply wallet_missing_iff. left. exact Hs. }
  assert (Hfacade : Rest.wallet_missing o = true ->
            (∀ f r, Poller (Rest.Fetch f r) ∉ (createDonationSession o w).2)
            ∧ ∃ e, CreateReturned (Rest.Failed e) ∈ (createDonationSession o w).2).
  { intros Ho. unfold createDonationSession.
    destruct (restClient (sdk w)) as [rc|] eqn:Hrc.
    - rewrite (on_rest_run _ _ w rc Hrc). cbn zeta.
      destruct (createDonationSession_validates o (Rest.mkWorld rc (http w)))
        as [Hreject _].
      destruct (Hreject Ho) as [-> _]. cbn. split.
      + intros f r Hin. repeat (apply elem_of_cons in Hin as [Hin|Hin]; [discriminate|]).
        apply elem_of_nil in Hin. exact Hin.
      + exists Rest.WalletRequired. right. left.
    - cbn. split.
      + intros f r Hin. apply elem_of_cons in Hin as [Hin|Hin]; [discriminate|].
        apply elem_of_nil in Hin. exact Hin.
      + eexists. left. }
  destruct (createDonationSession_validates o rw) as [Hreject Hissue].
  split; [|split; [|split; [|split]]].
  - intros Hmissing.
    assert (Hm : Rest.wallet_missing o = true).
    { apply wallet_missing_iff. destruct Hmissing as [Hnone|(s & Hs & Hblank)]; [left; exact Hnone|].
      right. exists s. split; [exact Hs | apply trim_empty_iff, Hblank]. }
    destruct (Hreject Hm) as [Heff _]. destruct (Hfacade Hm) as [Hno Hrej].
    auto.
  - intros f r Hin. destruct (Rest.wallet_missing o) eqn:Ho; [|auto].
    destruct (Hreject eq_refl) as [Heff _]. rewrite Heff in Hin.
    apply elem_of_cons in Hin as [Hin|Hin]; [discriminate|].
    apply elem_of_nil in Hin. contradiction.
  - intros f r Hin. destruct (Rest.wallet_missing o) eqn:Ho; [|auto].
    destruct (Hfacade eq_refl) as [Hno _]. exfalso. exact (Hno f r Hin).
  - exact trim_empty_iff.
  - exact trim_spec.
Qed.

(** C7 on a wallet made of a space, an em space (U+2003), a tab and an
    ideographic space (U+3000), at a fresh client and a fresh facade. *)
Lemma wallet_is_validated_before_the_request_witness :
  let wallet := Rest.encode [32; 226; 128; 131; 9; 227; 128; 128]%nat in
  let o := Rest.mkOptions (Rest.AmountNumber 1) "ETH" "holesky" (Some wallet) None None in
  let rw := Rest.create "https://example.test/api" "key" "project" in
  let w := create (mkConfig "project" "key" Config.testnet None None None None) None in
  (Rest.createDonationSession o rw).2
  = [Rest.Settle 0 (Rest.Failed Rest.WalletRequired)]
  ∧ ∀ f r, Poller (Rest.Fetch f r) ∉ (createDonationSession o w).2.
Proof.
  intros wallet o rw w.
  destruct (wallet_is_validated_before_the_request o rw w) as [Hreject _].
  destruct Hreject as (Heff & Hno & _).
  - right. exists wallet. split; [reflexivity|].
    apply (Rest.blank_more (Rest.encode [32]%nat)
             (Rest.encode [226; 128; 131; 9; 227; 128; 128]%nat)); [apply (bool_decide_unpack _); vm_compute; exact I|].
    apply (Rest.blank_more (Rest.encode [226; 128; 131]%nat)
             (Rest.encode [9; 227; 128; 128]%nat)); [apply (bool_decide_unpack _); vm_compute; exact I|].
    apply (Rest.blank_more (Rest.encode [9]%nat)
             (Rest.encode [227; 128; 128]%nat)); [apply (bool_decide_unpack _); vm_compute; exact I|].
    apply (Rest.blank_more (Rest.encode [227; 128; 128]%nat) ""); [apply (bool_decide_unpack _); vm_compute; exact I|].
    apply Rest.blank_empty.
  - split; [exact Heff | exact Hno].
Defined.

(** C1. After [disconnect()] the manager reconnects by itself.  First
    history: the first attempt fails, its close schedules a reconnect
    (timer 2), the owner disconnects; the counter is still 1 and the timer
    still armed, and when it fires a socket is constructed though nobody
    called [connect()].  Second history: the channel is open, the owner
    disconnects ([isConnected()] is false), the close event of the socket
    arrives; [onclose] does not look at the handle and schedules a
    reconnect (the counter goes to 1), the reconnect constructs socket 5,
    and when that socket opens [isConnected()] is true again.  Third
    history: the same through the facade, whose [disconnect()] the README
    documents as "Close connection and clean up resources" and uses as the
    cleanup of a React effect.  The specification and that sentence want
    no connection attempt after an explicit disconnect until [connect()]
    is called again; [disconnect()] neither cancels the reconnect timer nor
    keeps the close handler from scheduling one, nor resets the counter. *)
Theorem disconnect_does_not_stop_reconnection :
  let w0 := WS.create "wss://example.test/ws" "key" "project" 5 3000 None in
  let failed := [WS.CallConnect; WS.Errored 1 "refused"; WS.Closed 1 7;
                 WS.CallDisconnect] in
  let opened := [WS.CallConnect; WS.Opened 1 5; WS.CallDisconnect] in
  let later := [WS.Closed 1 7; WS.Fired 3; WS.Opened 5 9] in
  let f0 := create (mkConfig "project" "key" Config.testnet None None None None) None in
  let through := [CallConnect; Opened 1 5; CallDisconnect] in
  (WS.possible w0 (failed ++ [WS.Fired 2]) = true
   ∧ WS.reconnectAttempts (WS.mgr (WS.run failed w0).1) = 1%Z
   ∧ WS.timers (WS.rt (WS.run failed w0).1) !! 2%nat = Some (3000%Z, WS.Reconnect)
   ∧ Backoff.attempts (WS.step (WS.Fired 2) (WS.run failed w0).1).2 = [4%nat])
  ∧ (WS.possible w0 (opened ++ later) = true
     ∧ WS.isConnected (WS.run opened w0).1 = false
     ∧ Backoff.scheduled (WS.step (WS.Closed 1 7) (WS.run opened w0).1).2 = [3000%Z]
     ∧ WS.reconnectAttempts (WS.mgr (WS.step (WS.Closed 1 7) (WS.run opened w0).1).1)
       = 1%Z
     ∧ Backoff.attempts (WS.run later (WS.run opened w0).1).2 = [5%nat]
     ∧ WS.isConnected (WS.run (opened ++ later) w0).1 = true)
  ∧ (possible f0 (through ++ [Closed 1 7; Fired 3; Opened 5 9]) = true
     ∧ isConnected (run through f0).1 = false
     ∧ Channel (WS.Construct 5) ∈ (run [Closed 1 7; Fired 3] (run through f0).1).2
     ∧ isConnected (run (through ++ [Closed 1 7; Fired 3; Opened 5 9]) f0).1 = true).
Proof.
  vm_compute.
  repeat match goal with |- _ ∧ _ => split end; try reflexivity.
  apply list_elem_of_In. cbn. tauto.
Qed.

End Coordinator.

(* ===================================================================== *)
(** ** The registry of listeners *)
(* ===================================================================== *)

Section Listeners.
Import JS Types WS Registry.

Lemma emit_registered (event : string) (ev : DonationEvent) (w : world) :
  emit (JStr event) ev w = (w, (fun cb => Call cb ev) <$> registered w event).
Proof.
  unfold emit, registered. cbn [map_get].
  destruct (listeners (mgr w) !! event); reflexivity.
Qed.

Lemma registered_on (event other : string) (cb : EventCallback) (w : world) :
  registered (on event cb w).1 other
  = if decide (other = event) then registered w event ++ [cb] else registered w other.
Proof.
  unfold registered, on. cbn. destruct (decide (other = event)) as [->|Hne].
  - rewrite lookup_insert_eq. reflexivity.
  - rewrite lookup_insert_ne by congruence. reflexivity.
Qed.

Lemma registered_off (event other : string) (cb : EventCallback) (w : world) :
  registered (off event cb w).1 other
  = if decide (other = event) then remove_first cb (registered w event)
    else registered w other.
Proof.
  unfold registered, off. destruct (listeners (mgr w) !! event) as [l|] eqn:Hl; cbn.
  - destruct (decide (other = event)) as [->|Hne].
    + rewrite lookup_insert_eq. reflexivity.
    + rewrite lookup_insert_ne by congruence. reflexivity.
  - destruct (decide (other = event)) as [->|Hne]; [rewrite Hl|]; reflexivity.
Qed.

Lemma subscribe_cons (event : string) (cb : EventCallback) (cbs : list EventCallback)
    (w : world) :
  subscribe event (cb :: cbs) w = subscribe event cbs (on event cb w).1.
Proof.
  unfold subscribe. cbn [fmap list_fmap].
  change (run (CallOn event cb :: (CallOn event <$> cbs)))
    with (step (CallOn event cb) >>> run (CallOn event <$> cbs)).
  rewrite andthen_run. reflexivity.
Qed.

Lemma registered_subscribe (event : string) (cbs : list EventCallback) (w : world) :
  registered (subscribe event cbs w) event = registered w event ++ cbs.
Proof.
  revert w. induction cbs as [|cb cbs IH]; intros w.
  - cbn. rewrite app_nil_r. reflexivity.
  - rewrite subscribe_cons.
    rewrite IH, registered_on.
    destruct (decide (event = event)); [|congruence]. rewrite <- app_assoc. reflexivity.
Qed.

Lemma remove_first_absent (cb : EventCallback) (l : list EventCallback) :
  cb ∉ l -> remove_first cb l = l.
Proof.
  induction l as [|x l IH]; intros Hl; [reflexivity|]. cbn.
  destruct (decide (x = cb)) as [->|Hne].
  - exfalso. apply Hl. left.
  - f_equal. apply IH. intros Hin. apply Hl. right. exact Hin.
Qed.

Lemma remove_first_app (cb : EventCallback) (l l' : list EventCallback) :
  remove_first cb (l ++ l')
  = if decide (cb ∈ l) then remove_first cb l ++ l' else l ++ remove_first cb l'.
Proof.
  induction l as [|x l IH]; cbn.
  - destruct (decide (cb ∈ [])) as [Hin|_]; [inversion Hin | reflexivity].
  - destruct (decide (x = cb)) as [->|Hne].
    + destruct (decide (cb ∈ cb :: l)) as [_|Hout]; [reflexivity|].
      exfalso. apply Hout. left.
    + rewrite IH. destruct (decide (cb ∈ l)) as [Hin|Hout].
      * destruct (decide (cb ∈ x :: l)) as [_|Hout]; [reflexivity|].
        exfalso. apply Hout. right. exact Hin.
      * destruct (decide (cb ∈ x :: l)) as [Hin|_]; [|reflexivity].
        apply elem_of_cons in Hin as [->|Hin]; [congruence | contradiction].
Qed.

Lemma remove_first_length (cb : EventCallback) (l : list EventCallback) :
  cb ∈ l -> S (length (remove_first cb l)) = length l.
Proof.
  induction l as [|x l IH]; intros Hin; [inversion Hin|]. cbn.
  destruct (decide (x = cb)) as [->|Hne]; [reflexivity|]. cbn. f_equal. apply IH.
  apply elem_of_cons in Hin as [->|Hin]; [congruence | exact Hin].
Qed.



(** X6.  [off] removes the earliest registration of the callback for the
    event and no other: one call less when the callback was registered,
    nothing changed when it was not or when the event is unknown.  After
    [on] and [off] of the same callback the event calls what it called
    before when the callback was new; when it was registered already, its
    earlier registration is the one removed and it is now called last. *)
Theorem off_removes_the_earliest_registration
    (w : world) (event : string) (cb : EventCallback) :
  registered (off event cb w).1 event = remove_first cb (registered w event)
  ∧ (∀ other, other ≠ event -> registered (off event cb w).1 other = registered w other)
  ∧ (cb ∈ registered w event ->
     S (length (registered (off event cb w).1 event)) = length (registered w event))
  ∧ (cb ∉ registered w event -> registered (off event cb w).1 event = registered w event)
  ∧ registered (off event cb (on event cb w).1).1 event
    = (if decide (cb ∈ registered w event)
       then remove_first cb (registered w event) ++ [cb]
       else registered w event).
Proof.
  split; [|split; [|split; [|split]]].
  - rewrite registered_off. destruct (decide (event = event)); [reflexivity | congruence].
  - intros other Hne. rewrite registered_off.
    destruct (decide (other = event)); [contradiction | reflexivity].
  - intros Hin. rewrite registered_off.
    destruct (decide (event = event)); [|congruence]. apply remove_first_length, Hin.
  - intros Hout. rewrite registered_off.
    destruct (decide (event = event)); [|congruence]. apply remove_first_absent, Hout.
  - rewrite registered_off. destruct (decide (event = event)); [|congruence].
    rewrite registered_on. destruct (decide (event = event)); [|congruence].
    rewrite remove_first_app. destruct (decide (cb ∈ registered w event)); [reflexivity|].
    cbn. destruct (decide (cb = cb)); [|congruence]. rewrite app_nil_r. reflexivity.
Qed.

Lemma off_removes_the_earliest_registration_witness :
  let w := subscribe "donation_pending" [Subscriber 1; Subscriber 2]
             (create "wss://example.test/ws" "key" "project" 5 3000 None) in
  registered (off "donation_pending" (Subscriber 1)
                (on "donation_pending" (Subscriber 1) w).1).1 "donation_pending"
  = [Subscriber 2; Subscriber 1]
  ∧ S (length (registered (off "donation_pending" (Subscriber 1) w).1 "donation_pending"))
    = 2.
Proof.
  intros w.
  destruct (off_removes_the_earliest_registration w "donation_pending" (Subscriber 1))
    as (_ & _ & Hlen & _ & Hboth).
  split.
  - rewrite Hboth. reflexivity.
  - rewrite Hlen; [reflexivity|]. vm_compute. left.
Defined.
End Listeners.

(* ===================================================================== *)
(** ** Settlement of promises, counted *)
(* ===================================================================== *)

Section AtMostOnce.
Import JS Types WS Correlator Ledger.

Lemma settlements_app (a b : list effect) :
  settlements (a ++ b) = settlements a ++ settlements b.
Proof. apply omap_app. Qed.

Lemma spares_settlements (p : nat) (es : list effect) :
  Forall (spares p) es -> p ∉ settlements es.
Proof.
  intros H Hin. apply list_elem_of_omap in Hin as (e & He & Hp).
  rewrite Forall_forall in H. specialize (H e He).
  destruct e; try discriminate. injection Hp as ->. exact (H eq_refl).
Qed.

Lemma sealing_andthen (a b : action) :
  sealing a -> sealing b -> (∀ p, preserves (settled p) (spares p) b) ->
  sealing (a >>> b).
Proof.
  intros Ha Hb Hfinal w Hw. rewrite andthen_run. cbn [fst snd].
  destruct (Ha w Hw) as (A1 & A2 & A3). destruct (Hb _ A1) as (B1 & B2 & B3).
  rewrite settlements_app. split; [exact B1|]. split.
  - apply NoDup_app. split; [exact A2|]. split; [|exact B2].
    intros p Hp. apply spares_settlements, (Hfinal p), A3, Hp.
  - intros p Hp. apply elem_of_app in Hp as [Hp|Hp].
    + apply (Hfinal p), A3, Hp.
    + apply B3, Hp.
Qed.

(** An action that settles nothing. *)
Lemma sealing_quiet (a : action) :
  (∀ w, bounded w -> bounded (a w).1 ∧ settlements (a w).2 = []) -> sealing a.
Proof.
  intros Ha w Hw. destruct (Ha w Hw) as [H1 H2]. rewrite H2.
  split; [exact H1|]. split; [constructor|]. intros p Hp. inversion Hp.
Qed.

Lemma sealing_skip : sealing skip.
Proof. apply sealing_quiet. intros w Hw. auto. Qed.

Lemma sealing_tell (e : effect) : (∀ p r, e ≠ Settle p r) -> sealing (tell e).
Proof.
  intros He. apply sealing_quiet. intros w Hw. split; [exact Hw|].
  destruct e; try reflexivity. exfalso. exact (He _ _ eq_refl).
Qed.

Lemma sealing_reading (a : world -> action) :
  (∀ v, sealing (a v)) -> sealing (fun w => a w w).
Proof. intros Ha w Hw. exact (Ha w w Hw). Qed.

Lemma sealing_assign_ws v : sealing (assign_ws v).
Proof. apply sealing_quiet. intros [m r] H. auto. Qed.
Lemma sealing_assign_reconnectAttempts v : sealing (assign_reconnectAttempts v).
Proof. apply sealing_quiet. intros [m r] H. auto. Qed.
Lemma sealing_assign_heartbeatInterval v : sealing (assign_heartbeatInterval v).
Proof. apply sealing_quiet. intros [m r] H. auto. Qed.
Lemma sealing_assign_listeners v : sealing (assign_listeners v).
Proof. apply sealing_quiet. intros [m r] H. auto. Qed.
Lemma sealing_assign_pendingRequests v : sealing (assign_pendingRequests v).
Proof. apply sealing_quiet. intros [m r] H. auto. Qed.
Lemma sealing_assign_messageId v : sealing (assign_messageId v).
Proof. apply sealing_quiet. intros [m r] H. auto. Qed.

Lemma sealing_with_runtime (f : runtime -> runtime) :
  (∀ r p, is_Some (promises (f r) !! p) -> is_Some (promises r !! p)) ->
  (∀ r, fresh r <= fresh (f r)) ->
  sealing (with_runtime f).
Proof.
  intros Hp Hf. apply sealing_quiet. intros [m r] Hw. split; [|reflexivity].
  intros p Hsome. cbn in Hsome. specialize (Hw p (Hp r p Hsome)). specialize (Hf r).
  cbn in *. lia.
Qed.

Lemma sealing_drop_timer t : sealing (with_runtime (drop_timer t)).
Proof. apply sealing_with_runtime; auto. Qed.

Lemma sealing_set_readyState s st : sealing (with_runtime (set_readyState s st)).
Proof.
  apply sealing_with_runtime; intros r; unfold set_readyState;
    destruct (sockets r !! s) as [[st0 q]|]; auto.
Qed.

Lemma sealing_drop_promise q : sealing (with_runtime (drop_promise q)).
Proof.
  apply sealing_with_runtime; [|auto]. intros r p. cbn.
  rewrite lookup_delete_is_Some. tauto.
Qed.

Create HintDb sealing.
#[local] Hint Resolve sealing_skip sealing_andthen sealing_assign_ws
  sealing_assign_reconnectAttempts sealing_assign_heartbeatInterval
  sealing_assign_listeners sealing_assign_pendingRequests sealing_assign_messageId
  sealing_drop_timer sealing_set_readyState sealing_drop_promise
  final_skip final_tell final_andthen final_assign_ws final_assign_reconnectAttempts
  final_assign_heartbeatInterval final_assign_listeners final_assign_pendingRequests
  final_assign_messageId final_drop_timer final_set_readyState final_drop_promise
  final_disarm final_settle final_socket_close final_emit final_startHeartbeat
  final_stopHeartbeat final_connect final_attemptReconnect final_onopen final_onerror
  final_onclose final_forget final_handleReply final_handleMessage final_send
  final_requestTimedOut final_heartbeat final_on final_off final_disconnect
  final_arm final_new_promise : sealing.
#[local] Hint Extern 1 (spares _ _) => exact I : sealing.
#[local] Hint Extern 1 (sealing (tell _)) => (apply sealing_tell; discriminate) : sealing.

Lemma sealing_disarm t : sealing (disarm t).
Proof. unfold disarm. auto with sealing. Qed.

Lemma sealing_arm ms k use :
  (∀ t, sealing (use t)) -> (∀ t p, preserves (settled p) (spares p) (use t)) ->
  sealing (arm ms k use).
Proof.
  intros Huse Hfinal. unfold arm.
  apply (sealing_reading (fun v =>
    with_runtime (fun r => take_handle (put_timer (fresh (rt v)) (ms, k) r))
    >>> tell (SetTimer (fresh (rt v)) ms k) >>> use (fresh (rt v)))).
  intros v. apply sealing_andthen; [|auto with sealing|auto with sealing].
  apply sealing_with_runtime; cbn; auto.
Qed.

Lemma settled_world (p : nat) (w : world) :
  promises (rt w) !! p = None -> p < fresh (rt w) -> settled p w.
Proof. intros H1 H2. split; assumption. Qed.

Lemma sealing_settle q r : sealing (settle q r).
Proof.
  intros [m k] Hw. unfold settle. cbn [rt].
  destruct (promises k !! q) as [[]|] eqn:Hq.
  - rewrite andthen_run. cbn. split; [|split].
    + intros p Hp. cbn in Hp. apply lookup_delete_is_Some in Hp as [_ Hp]. exact (Hw p Hp).
    + apply NoDup_singleton.
    + intros p Hp. apply list_elem_of_singleton in Hp as ->. split; cbn.
      * apply lookup_delete_eq.
      * apply (Hw q). cbn. eauto.
  - assert (Hquiet : sealing (with_runtime (drop_promise q) >>>
                              match r with
                              | Rejected e => tell (Console (LUncaught e))
                              | Resolved _ => skip
                              end)).
    { apply sealing_andthen; [auto with sealing| |].
      - destruct r; auto with sealing.
      - intros p. destruct r; auto with sealing. }
    exact (Hquiet (mkWorld m k) Hw).
  - exact (sealing_skip (mkWorld m k) Hw).
Qed.

Lemma sealing_new_promise h use :
  (∀ q, sealing (use q)) -> sealing (new_promise h use).
Proof.
  intros Huse [m r] Hw. unfold new_promise. rewrite andthen_run.
  cbn [fst snd rt mgr with_runtime app].
  apply Huse. intros p Hp. cbn in *.
  apply lookup_insert_is_Some in Hp as [<-|[_ Hp]]; [cbn; lia|].
  specialize (Hw p Hp). cbn in *. lia.
Qed.

Lemma sealing_socket_close s : sealing (socket_close s).
Proof.
  intros w Hw. unfold socket_close.
  apply sealing_andthen; [|auto with sealing|auto with sealing|exact Hw].
  destruct (readyState (rt w) s) as [[]|]; auto with sealing.
Qed.

Lemma sealing_emit ev d : sealing (emit ev d).
Proof.
  apply sealing_quiet. intros w Hw. unfold emit.
  destruct (map_get _ _) as [callbacks|]; split; try exact Hw; try reflexivity.
  cbn. induction callbacks as [|cb callbacks IH]; [reflexivity | exact IH].
Qed.

Lemma sealing_startHeartbeat : sealing startHeartbeat.
Proof. apply sealing_arm; auto with sealing. Qed.

Lemma sealing_stopHeartbeat : sealing stopHeartbeat.
Proof.
  intros w Hw. unfold stopHeartbeat. destruct (heartbeatInterval (mgr w)).
  - apply sealing_andthen; [apply sealing_disarm|auto with sealing|auto with sealing|exact Hw].
  - exact (sealing_skip w Hw).
Qed.

Lemma sealing_connect h : sealing (connect h).
Proof.
  apply sealing_new_promise. intros q w Hw.
  destruct (constructor_throws (rt w)).
  - exact (sealing_settle q _ w Hw).
  - refine (sealing_andthen _ _ _ _ _ w Hw); [|auto with sealing|auto with sealing].
    apply sealing_with_runtime; cbn; auto.
Qed.

Lemma sealing_attemptReconnect : sealing attemptReconnect.
Proof.
  intros w Hw. unfold attemptReconnect. case_match.
  - refine (sealing_andthen _ _ _ _ _ w Hw); [auto with sealing| |].
    + apply (sealing_reading (fun v => tell _ >>> arm _ Reconnect (fun _ => skip))).
      intros v. apply sealing_andthen; [auto with sealing| |auto with sealing].
      apply sealing_arm; auto with sealing.
    + intros p v Hv. apply final_andthen; [auto with sealing| |exact Hv].
      apply final_arm. auto with sealing.
  - exact (sealing_tell (Console _) ltac:(discriminate) w Hw).
Qed.

#[local] Hint Resolve sealing_disarm sealing_settle sealing_socket_close sealing_emit
  sealing_startHeartbeat sealing_stopHeartbeat sealing_connect sealing_attemptReconnect
  : sealing.

Lemma sealing_onopen q now : sealing (onopen q now).
Proof. unfold onopen. auto 12 with sealing. Qed.

Lemma sealing_onerror q what : sealing (onerror q what).
Proof. unfold onerror. auto with sealing. Qed.

Lemma sealing_onclose now : sealing (onclose now).
Proof. unfold onclose. auto 12 with sealing. Qed.

Lemma sealing_forget id :
  sealing (fun w => assign_pendingRequests (delete id (pendingRequests (mgr w))) w).
Proof.
  apply (sealing_reading (fun v => assign_pendingRequests (delete id (pendingRequests (mgr v))))).
  auto with sealing.
Qed.

#[local] Hint Resolve sealing_forget : sealing.

Lemma sealing_handleReply id pending err data : sealing (handleReply id pending err data).
Proof.
  unfold handleReply.
  assert (Hlast : sealing (match err with
                           | Some e =>
                               if truthy e then settle (promise pending) (Rejected (ReplyError e))
                               else settle (promise pending) (Resolved data)
                           | None => settle (promise pending) (Resolved data)
                           end))
    by (destruct err as [e|]; [destruct (truthy e)|]; auto with sealing).
  assert (Hfinal : ∀ p, preserves (settled p) (spares p)
                          (match err with
                           | Some e =>
                               if truthy e then settle (promise pending) (Rejected (ReplyError e))
                               else settle (promise pending) (Resolved data)
                           | None => settle (promise pending) (Resolved data)
                           end))
    by (intros p; destruct err as [e|]; [destruct (truthy e)|]; auto with sealing).
  auto 8 with sealing.
Qed.

Lemma sealing_handleMessage parsed now : sealing (handleMessage parsed now).
Proof.
  intros w Hw. unfold handleMessage.
  destruct parsed as [message|];
    [|exact (sealing_tell (Console _) ltac:(discriminate) w Hw)].
  destruct (fields message) as [f|];
    [|exact (sealing_tell (Console _) ltac:(discriminate) w Hw)].
  destruct (matching (mgr w) (f_id f)) as [[k pending]|].
  - exact (sealing_handleReply _ _ _ _ w Hw).
  - destruct (f_type f) as [ty|]; [destruct (truthy ty)|];
      first [exact (sealing_emit _ _ w Hw) | exact (sealing_skip w Hw)].
Qed.

Lemma sealing_send data thrown : sealing (send data thrown).
Proof.
  apply sealing_new_promise. intros q w Hw.
  destruct (ws (mgr w)) as [s|]; [|exact (sealing_settle _ _ w Hw)].
  destruct (readyState (rt w) s) as [[]|]; try exact (sealing_settle _ _ w Hw).
  assert (Hinsert : ∀ t id, sealing (fun w1 => assign_pendingRequests
                       (<[id := mkPending q t]> (pendingRequests (mgr w1))) w1)).
  { intros t id.
    apply (sealing_reading (fun v => assign_pendingRequests (<[_ := _]> (pendingRequests (mgr v))))).
    auto with sealing. }
  assert (Hlast : ∀ t id p, preserves (settled p) (spares p)
            (match thrown with
             | None => tell (Transmit s (JObj (("id", JStr id) :: data)))
             | Some e =>
                 disarm t >>>
                 (fun w1 => assign_pendingRequests (delete id (pendingRequests (mgr w1))) w1) >>>
                 settle q (Rejected (Raised e))
             end)).
  { intros t id p. destruct thrown; [|auto with sealing].
    apply final_andthen; [apply final_disarm | apply final_andthen; [apply final_forget|]].
    apply final_settle. }
  refine (sealing_andthen _ _ _ _ _ w Hw); [auto with sealing| |].
  - apply sealing_arm.
    + intros t. apply sealing_andthen; [apply Hinsert| |apply Hlast].
      destruct thrown; auto 8 with sealing.
    + intros t p. apply final_andthen; [|apply Hlast].
      apply (final_reading p (fun v => assign_pendingRequests (<[_ := _]> (pendingRequests (mgr v))))).
      auto with sealing.
  - intros p. apply final_arm. intros t. apply final_andthen; [|apply Hlast].
    apply (final_reading p (fun v => assign_pendingRequests (<[_ := _]> (pendingRequests (mgr v))))).
    auto with sealing.
Qed.

Lemma sealing_requestTimedOut id q : sealing (requestTimedOut id q).
Proof. unfold requestTimedOut. auto with sealing. Qed.

Lemma sealing_heartbeat : sealing heartbeat.
Proof.
  intros w Hw. unfold heartbeat. destruct (ws (mgr w)) as [s|]; [|exact (sealing_skip w Hw)].
  destruct (readyState (rt w) s) as [[]|];
    first [exact (sealing_tell (Ping _) ltac:(discriminate) w Hw) | exact (sealing_skip w Hw)].
Qed.

Lemma sealing_on kind cb : sealing (on kind cb).
Proof.
  apply (sealing_reading (fun v => assign_listeners (<[kind := _ ++ [cb]]> (listeners (mgr v))))).
  auto with sealing.
Qed.

Lemma sealing_off kind cb : sealing (off kind cb).
Proof.
  intros w Hw. unfold off. destruct (listeners (mgr w) !! kind).
  - exact (sealing_assign_listeners _ w Hw).
  - exact (sealing_skip w Hw).
Qed.

Lemma sealing_disconnect : sealing disconnect.
Proof.
  unfold disconnect. apply sealing_andthen; [auto with sealing| |].
  - intros w Hw. destruct (ws (mgr w)).
    + refine (sealing_andthen _ _ _ _ _ w Hw); auto with sealing.
    + exact (sealing_skip w Hw).
  - intros p w Hw. destruct (ws (mgr w)).
    + refine (final_andthen _ _ _ _ _ w Hw); auto with sealing.
    + exact (final_skip p w Hw).
Qed.

Lemma sealing_step e : sealing (step e).
Proof.
  intros w Hw. destruct e; cbn [step].
  - exact (sealing_connect _ w Hw).
  - exact (sealing_disconnect w Hw).
  - exact (sealing_send _ _ w Hw).
  - exact (sealing_on _ _ w Hw).
  - exact (sealing_off _ _ w Hw).
  - destruct (sockets (rt w) !! s) as [[st q]|]; [|exact (sealing_skip w Hw)].
    refine (sealing_andthen _ _ _ _ _ w Hw);
      [auto with sealing | apply sealing_onopen | auto with sealing].
  - destruct (sockets (rt w) !! s); [|exact (sealing_skip w Hw)].
    exact (sealing_handleMessage _ _ w Hw).
  - destruct (sockets (rt w) !! s) as [[st q]|]; [|exact (sealing_skip w Hw)].
    exact (sealing_onerror _ _ w Hw).
  - destruct (sockets (rt w) !! s); [|exact (sealing_skip w Hw)].
    refine (sealing_andthen _ _ _ _ _ w Hw);
      [auto with sealing | apply sealing_onclose | auto with sealing].
  - destruct (timers (rt w) !! t) as [[ms []]|]; [| | |exact (sealing_skip w Hw)].
    + exact (sealing_heartbeat w Hw).
    + refine (sealing_andthen _ _ _ _ _ w Hw); auto with sealing.
    + refine (sealing_andthen _ _ _ _ _ w Hw);
        [auto with sealing | apply sealing_requestTimedOut | auto with sealing].
Qed.

Lemma sealing_run es : sealing (run es).
Proof.
  induction es as [|e es IH]; [apply sealing_skip|].
  change (run (e :: es)) with (step e >>> run es).
  apply sealing_andthen; [apply sealing_step | exact IH | intros p; apply final_run].
Qed.

Lemma bounded_create u key project max delay throws :
  bounded (create u key project max delay throws).
Proof. intros p [h Hp]. cbn in Hp. rewrite lookup_empty in Hp. discriminate. Qed.

End AtMostOnce.

(* ===================================================================== *)
(** ** Requests and their timeouts *)
(* ===================================================================== *)

Section Timeouts.
Import JS Types WS Correlator Clock.

Ltac inert_now := intros [m r]; cbn; repeat split; auto.

Lemma inert_skip : inert skip.
Proof. inert_now. Qed.
Lemma inert_tell e : inert (tell e).
Proof. inert_now. Qed.

Lemma inert_andthen (a b : action) : inert a -> inert b -> inert (a >>> b).
Proof.
  intros Ha Hb w. rewrite andthen_run. cbn [fst].
  destruct (Ha w) as (A1 & A2 & A3 & A4 & A5).
  destruct (Hb (a w).1) as (B1 & B2 & B3 & B4 & B5).
  rewrite B1, B2, B3, B4. repeat split; auto. lia.
Qed.

Lemma inert_reading (a : world -> action) : (∀ v, inert (a v)) -> inert (fun w => a w w).
Proof. intros Ha w. exact (Ha w w). Qed.

Lemma inert_assign_ws v : inert (assign_ws v).
Proof. inert_now. Qed.
Lemma inert_assign_reconnectAttempts v : inert (assign_reconnectAttempts v).
Proof. inert_now. Qed.
Lemma inert_assign_listeners v : inert (assign_listeners v).
Proof. inert_now. Qed.

Lemma inert_with_runtime (f : runtime -> runtime) :
  (∀ r, timers (f r) = timers r ∧ fresh r <= fresh (f r)) -> inert (with_runtime f).
Proof. intros Hf [m r]. destruct (Hf r). cbn. repeat split; auto. Qed.

Lemma inert_set_readyState s st : inert (with_runtime (set_readyState s st)).
Proof.
  apply inert_with_runtime. intros r. unfold set_readyState.
  destruct (sockets r !! s) as [[st0 q]|]; auto.
Qed.

Lemma inert_drop_promise q : inert (with_runtime (drop_promise q)).
Proof. apply inert_with_runtime. intros r. auto. Qed.

Create HintDb inert.
#[local] Hint Resolve inert_skip inert_tell inert_andthen inert_assign_ws
  inert_assign_reconnectAttempts inert_assign_listeners inert_set_readyState
  inert_drop_promise : inert.

Lemma inert_settle q r : inert (settle q r).
Proof.
  intros w. unfold settle. destruct (promises (rt w) !! q) as [[]|].
  - apply inert_andthen; auto with inert.
  - apply inert_andthen; [auto with inert|]. destruct r; auto with inert.
  - apply inert_skip.
Qed.

Lemma inert_emit ev d : inert (emit ev d).
Proof. intros w. unfold emit. destruct (map_get _ _); cbn; repeat split; auto. Qed.

Lemma inert_socket_close s : inert (socket_close s).
Proof.
  intros w. unfold socket_close. apply inert_andthen; [|auto with inert].
  destruct (readyState (rt w) s) as [[]|]; auto with inert.
Qed.

Lemma inert_new_promise h use : (∀ q, inert (use q)) -> inert (new_promise h use).
Proof.
  intros Huse w. unfold new_promise. apply inert_andthen; [|apply Huse].
  apply inert_with_runtime. intros r. cbn. auto.
Qed.

#[local] Hint Resolve inert_settle inert_emit inert_socket_close : inert.

Lemma inert_connect h : inert (connect h).
Proof.
  apply inert_new_promise. intros q w. destruct (constructor_throws (rt w)).
  - apply inert_settle.
  - apply inert_andthen; [|auto with inert].
    apply inert_with_runtime. intros r. cbn. auto.
Qed.

Lemma inert_onerror q what : inert (onerror q what).
Proof. unfold onerror. auto with inert. Qed.

Lemma inert_heartbeat : inert heartbeat.
Proof.
  intros w. unfold heartbeat. destruct (ws (mgr w)) as [s|]; [|apply inert_skip].
  destruct (readyState (rt w) s) as [[]|]; first [apply inert_tell | apply inert_skip].
Qed.

Lemma inert_on kind cb : inert (on kind cb).
Proof. intros w. unfold on. apply inert_assign_listeners. Qed.

Lemma inert_off kind cb : inert (off kind cb).
Proof.
  intros w. unfold off. destruct (listeners (mgr w) !! kind);
    [apply inert_assign_listeners | apply inert_skip].
Qed.

Lemma inert_timed (a : action) : inert a -> leads timed a timed.
Proof.
  intros Ha w (T1 & T2 & T3 & T4 & T5). destruct (Ha w) as (A1 & A2 & A3 & A4 & A5).
  unfold timed. rewrite A1, A2, A3, A4. split; [|split; [|split; [|split]]].
  - exact T1.
  - intros t Ht. specialize (T2 t Ht). lia.
  - intros t Ht. destruct (T3 t Ht) as [Hlt Hno]. split; [lia | exact Hno].
  - exact T4.
  - exact T5.
Qed.

(** Dropping a timer that is no pending request's. *)
Lemma timed_drop_timer (t : nat) :
  leads (fun w => timed w ∧ ∀ k pc, pendingRequests (mgr w) !! k = Some pc -> timeout pc ≠ t)
        (with_runtime (drop_timer t)) timed.
Proof.
  intros [m r] [(T1 & T2 & T3 & T4 & T5) Hfree]. cbn in *.
  split; [|split; [|split; [|split]]]; cbn.
  - intros k pc Hk. rewrite lookup_delete_ne by (intros ->; exact (Hfree k pc Hk eq_refl)).
    exact (T1 k pc Hk).
  - intros t' Ht'. apply lookup_delete_is_Some in Ht' as [_ Ht']. exact (T2 t' Ht').
  - intros t' Ht'. destruct (T3 t' Ht') as [Hlt Hno]. split; [exact Hlt|].
    intros ms id p Hlook. apply lookup_delete_Some in Hlook as [_ Hlook].
    exact (Hno _ _ _ Hlook).
  - exact T4.
  - exact T5.
Qed.

(** Arming a timer that is no request's. *)
Lemma timed_arm (ms : Z) (k : task) (use : nat -> action) :
  (∀ id p, k ≠ RequestTimeout id p) ->
  (∀ t, leads (fun w => timed w ∧ timers (rt w) !! t = Some (ms, k) ∧ t < fresh (rt w))
              (use t) timed) ->
  leads timed (arm ms k use) timed.
Proof.
  intros Hk Huse [m r] (T1 & T2 & T3 & T4 & T5). unfold arm. rewrite !andthen_run.
  cbn [fst snd rt mgr with_runtime tell].
  apply Huse. cbn. split; [|split; [apply lookup_insert_eq | lia]].
  split; [|split; [|split; [|split]]]; cbn.
  - intros k0 pc Hk0. specialize (T1 k0 pc Hk0). cbn in T1.
    assert (timeout pc < fresh r) by (apply T2; cbn; eauto).
    rewrite lookup_insert_ne by lia. exact T1.
  - intros t Ht. apply lookup_insert_is_Some in Ht as [<-|[_ Ht]]; [lia|].
    specialize (T2 t Ht). cbn in T2. lia.
  - intros t Ht. destruct (T3 t Ht) as [Hlt Hno]. cbn in *. split; [lia|].
    intros ms0 id p Hlook. rewrite lookup_insert_ne in Hlook by lia.
    exact (Hno _ _ _ Hlook).
  - exact T4.
  - exact T5.
Qed.

Lemma timed_forget (k : string) :
  leads timed (fun w => assign_pendingRequests (delete k (pendingRequests (mgr w))) w) timed.
Proof.
  intros [m r] (T1 & T2 & T3 & T4 & T5). cbn in *.
  split; [|split; [|split; [|split]]]; cbn.
  - intros k0 pc Hk0. apply lookup_delete_Some in Hk0 as [_ Hk0]. exact (T1 k0 pc Hk0).
  - exact T2.
  - exact T3.
  - intros k0 pc Hk0. apply lookup_delete_Some in Hk0 as [_ Hk0]. exact (T4 k0 pc Hk0).
  - exact T5.
Qed.

Lemma timed_startHeartbeat : leads timed startHeartbeat timed.
Proof.
  apply timed_arm; [discriminate|].
  intros t [m r] ((T1 & T2 & T3 & T4 & T5) & Ht & Hlt). cbn in *.
  split; [|split; [|split; [|split]]]; cbn; auto.
  intros t' [= <-]. split; [exact Hlt|].
  intros ms id p Hlook. rewrite Ht in Hlook. discriminate.
Qed.

Lemma timed_stopHeartbeat : leads timed stopHeartbeat timed.
Proof.
  intros w Hw. unfold stopHeartbeat.
  destruct (heartbeatInterval (mgr w)) as [t|] eqn:Hhb; [|exact Hw].
  assert (Hfree : ∀ k pc, pendingRequests (mgr w) !! k = Some pc -> timeout pc ≠ t).
  { intros k pc Hk Heq. subst t. destruct Hw as (T1 & _ & T3 & _).
    destruct (T3 _ Hhb) as [_ Hno]. exact (Hno _ _ _ (T1 k pc Hk)). }
  unfold disarm. rewrite !andthen_run. cbn [fst snd tell].
  pose proof (timed_drop_timer t w (conj Hw Hfree)) as Hdrop.
  destruct (with_runtime (drop_timer t) w).1 as [m r] eqn:Hworld.
  destruct Hdrop as (T1 & T2 & T3 & T4 & T5). cbn in *.
  split; [|split; [|split; [|split]]]; cbn; auto. discriminate.
Qed.

Lemma timed_attemptReconnect : leads timed attemptReconnect timed.
Proof.
  intros w Hw. unfold attemptReconnect. case_match; [|exact Hw].
  rewrite andthen_run. cbn [fst].
  pose proof (inert_timed _ (inert_assign_reconnectAttempts
                               (reconnectAttempts (mgr w) + 1)) w Hw) as H1.
  revert H1. generalize (assign_reconnectAttempts (reconnectAttempts (mgr w) + 1) w).1.
  intros v Hv. rewrite andthen_run. cbn [fst tell].
  apply (timed_arm _ Reconnect (fun _ => skip)); [discriminate| |exact Hv].
  intros t u [Hu _]. exact Hu.
Qed.

Lemma timed_onopen q now : leads timed (onopen q now) timed.
Proof.
  unfold onopen.
  apply (leads_andthen _ timed); [apply inert_timed, inert_tell|].
  apply (leads_andthen _ timed); [apply inert_timed, inert_assign_reconnectAttempts|].
  apply (leads_andthen _ timed); [apply timed_startHeartbeat|].
  apply (leads_andthen _ timed); [apply inert_timed, inert_emit|].
  apply inert_timed, inert_settle.
Qed.

Lemma timed_onclose now : leads timed (onclose now) timed.
Proof.
  unfold onclose.
  apply (leads_andthen _ timed); [apply inert_timed, inert_tell|].
  apply (leads_andthen _ timed); [apply timed_stopHeartbeat|].
  apply (leads_andthen _ timed); [apply inert_timed, inert_emit|].
  apply timed_attemptReconnect.
Qed.

Lemma matching_found (m : WebSocketManager) (mid : option json) (k : string)
    (pending : PendingCallback) :
  matching m mid = Some (k, pending) ->
  mid = Some (JStr k) ∧ pendingRequests m !! k = Some pending.
Proof.
  unfold matching. destruct (truthy_opt mid); [|discriminate].
  destruct mid as [[]|]; try discriminate.
  destruct (pendingRequests m !! s) eqn:Hs; [|discriminate].
  cbn. intros [= <- <-]. auto.
Qed.

(** The timers of two pending requests differ. *)
Lemma timed_timeouts_differ (w : world) (k k' : string) (pc pc' : PendingCallback) :
  timed w ->
  pendingRequests (mgr w) !! k = Some pc ->
  pendingRequests (mgr w) !! k' = Some pc' ->
  timeout pc = timeout pc' -> k = k'.
Proof.
  intros (T1 & _) Hk Hk' Heq. pose proof (T1 k pc Hk) as H1.
  pose proof (T1 k' pc' Hk') as H2. congruence.
Qed.

Lemma timed_handleReply (k : string) (pending : PendingCallback) (err data : option json) :
  leads (fun w => timed w ∧ pendingRequests (mgr w) !! k = Some pending)
        (handleReply k pending err data) timed.
Proof.
  intros w [Hw Hk].
  assert (Hfirst : timed (with_runtime (drop_timer (timeout pending))
                            ((assign_pendingRequests (delete k (pendingRequests (mgr w))) w).1)).1).
  { apply timed_drop_timer. split; [apply (timed_forget k w Hw)|].
    destruct w as [m r]. cbn in *. intros k' pc' Hk' Heq.
    apply lookup_delete_Some in Hk' as [Hne Hk'].
    apply Hne. symmetry. exact (timed_timeouts_differ _ _ _ _ _ Hw Hk' Hk Heq). }
  unfold handleReply, disarm. rewrite !andthen_run. cbn [fst snd tell].
  destruct w as [m r].
  destruct err as [e|]; [destruct (truthy e)|]; exact (inert_timed _ (inert_settle _ _) _ Hfirst).
Qed.

Lemma timed_handleMessage parsed now : leads timed (handleMessage parsed now) timed.
Proof.
  intros w Hw. unfold handleMessage.
  destruct parsed as [message|]; [|exact Hw].
  destruct (fields message) as [f|]; [|exact Hw].
  destruct (matching (mgr w) (f_id f)) as [[k pending]|] eqn:Hm.
  - apply matching_found in Hm as [_ Hk]. apply timed_handleReply. auto.
  - destruct (f_type f) as [ty|]; [destruct (truthy ty)|]; try exact Hw.
    rewrite emit_world. exact Hw.
Qed.

Lemma settle_caller (p : nat) (res : settlement) (m : WebSocketManager) (r : runtime) :
  promises r !! p = Some Caller ->
  settle p res (mkWorld m r) = (mkWorld m (drop_promise p r), [Settle p res]).
Proof. intros Hp. unfold settle. cbn [rt]. rewrite Hp. reflexivity. Qed.

(** What [send] does on an open channel. *)
Lemma send_open_run (m : WebSocketManager) (r : runtime) (s : nat)
    (data : list (string * json)) (thrown : option string) :
  ws m = Some s ->
  readyState r s = Some OPEN ->
  let p := fresh r in
  let t := S (fresh r) in
  let n := (messageId m + 1)%Z in
  let id := String_of n in
  let sent := send data thrown (mkWorld m r) in
  messageId (mgr sent.1) = n
  ∧ heartbeatInterval (mgr sent.1) = heartbeatInterval m
  ∧ ws (mgr sent.1) = ws m
  ∧ sockets (rt sent.1) = sockets r
  ∧ fresh (rt sent.1) = S (S (fresh r))
  ∧ match thrown with
    | None =>
        sent.2 = [SetTimer t 15000 (RequestTimeout id p);
                  Transmit s (JObj (("id", JStr id) :: data))]
        ∧ pendingRequests (mgr sent.1) = <[id := mkPending p t]> (pendingRequests m)
        ∧ timers (rt sent.1) = <[t := (15000%Z, RequestTimeout id p)]> (timers r)
        ∧ promises (rt sent.1) = <[p := Caller]> (promises r)
    | Some e =>
        sent.2 = [SetTimer t 15000 (RequestTimeout id p); ClearTimer t;
                  Settle p (Rejected (Raised e))]
        ∧ pendingRequests (mgr sent.1) = delete id (<[id := mkPending p t]> (pendingRequests m))
        ∧ timers (rt sent.1) = delete t (<[t := (15000%Z, RequestTimeout id p)]> (timers r))
        ∧ promises (rt sent.1) = delete p (<[p := Caller]> (promises r))
    end.
Proof.
  intros Hws Hopen p t n id sent. subst sent p t n id.
  unfold send, new_promise, andthen. cbn [fst snd rt mgr with_runtime].
  rewrite Hws.
  change (readyState (take_handle (put_promise (fresh r) Caller r)) s) with (readyState r s).
  rewrite Hopen. unfold arm, disarm, andthen.
  destruct thrown as [e|].
  - cbn -[settle].
    rewrite settle_caller by exact (lookup_insert_eq _ _ _).
    cbn. repeat split; auto.
  - cbn. repeat split; auto.
Qed.

(** An identifier the counter has not reached is not pending. *)
Lemma timed_next_id (w : world) :
  timed w -> pendingRequests (mgr w) !! String_of (messageId (mgr w) + 1) = None.
Proof.
  intros (_ & _ & _ & T4 & _).
  destruct (pendingRequests (mgr w) !! String_of (messageId (mgr w) + 1)) as [pc|] eqn:Hk;
    [|reflexivity].
  destruct (T4 _ _ Hk) as (n & Hn & Heq). apply pretty_Z_inj in Heq. lia.
Qed.

(** What [send] does when the channel is not open. *)
Lemma send_closed_run (m : WebSocketManager) (r : runtime)
    (data : list (string * json)) (thrown : option string) :
  (∀ s, ws m = Some s -> readyState r s ≠ Some OPEN) ->
  mgr (send data thrown (mkWorld m r)).1 = m
  ∧ timers (rt (send data thrown (mkWorld m r)).1) = timers r
  ∧ fresh (rt (send data thrown (mkWorld m r)).1) = S (fresh r).
Proof.
  intros Hclosed. unfold send, new_promise. rewrite andthen_run.
  cbn [fst snd rt mgr with_runtime].
  change (readyState (take_handle (put_promise (fresh r) Caller r))) with (readyState r).
  assert (Hsettle : ∀ res,
    mgr (settle (fresh r) res
           (mkWorld m (take_handle (put_promise (fresh r) Caller r)))).1 = m
    ∧ timers (rt (settle (fresh r) res
           (mkWorld m (take_handle (put_promise (fresh r) Caller r)))).1) = timers r
    ∧ fresh (rt (settle (fresh r) res
           (mkWorld m (take_handle (put_promise (fresh r) Caller r)))).1) = S (fresh r)).
  { intros res.
    destruct (settle_world (fresh r) res
                (mkWorld m (take_handle (put_promise (fresh r) Caller r))))
      as (S1 & _ & S3 & _ & S5).
    rewrite S1, S3, S5. auto. }
  destruct (ws m) as [s|] eqn:Hws; [|apply Hsettle].
  specialize (Hclosed s eq_refl).
  destruct (readyState r s) as [[]|]; try apply Hsettle. contradiction.
Qed.

Lemma timed_send data thrown : leads timed (send data thrown) timed.
Proof.
  intros [m r] Hw.
  assert (Hcase : (∃ s, ws m = Some s ∧ readyState r s = Some OPEN)
                  ∨ (∀ s, ws m = Some s -> readyState r s ≠ Some OPEN)).
  { destruct (ws m) as [s|]; [|right; discriminate].
    destruct (decide (readyState r s = Some OPEN)) as [Hopen|Hopen]; [left; eauto|].
    right. intros s' [= <-]. exact Hopen. }
  destruct Hcase as [(s & Hws & Hopen)|Hno].
  - pose proof (timed_next_id _ Hw) as Hnew. cbn [mgr rt] in Hnew.
    destruct Hw as (T1 & T2 & T3 & T4 & T5). cbn [mgr rt] in T1, T2, T3, T4, T5.
    destruct (send_open_run m r s data thrown Hws Hopen) as (S1 & S2 & _ & _ & S5 & Hrest).
    unfold timed. rewrite S1, S2, S5.
    assert (Hfresh : timers r !! S (fresh r) = None).
    { destruct (timers r !! S (fresh r)) eqn:Ht; [|reflexivity].
      assert (S (fresh r) < fresh r) by (apply T2; eauto). lia. }
    destruct thrown as [e|]; destruct Hrest as (_ & S6 & S7 & _); rewrite S6, S7.
    + rewrite delete_insert_id by exact Hnew. rewrite delete_insert_id by exact Hfresh.
      split; [|split; [|split; [|split]]].
      * exact T1.
      * intros t Ht. specialize (T2 t Ht). lia.
      * intros t Ht. destruct (T3 t Ht). split; [lia | assumption].
      * intros k pc Hk. destruct (T4 k pc Hk) as (n & Hn & Hkn). exists n. split; [lia | exact Hkn].
      * lia.
    + split; [|split; [|split; [|split]]].
      * intros k pc Hk. apply lookup_insert_Some in Hk as [[<- <-]|[Hne Hk]].
        -- cbn. apply lookup_insert_eq.
        -- assert (timeout pc < fresh r) by (apply T2; rewrite (T1 k pc Hk); eauto).
           rewrite lookup_insert_ne by lia. exact (T1 k pc Hk).
      * intros t Ht. apply lookup_insert_is_Some in Ht as [<-|[_ Ht]]; [lia|].
        specialize (T2 t Ht). lia.
      * intros t Ht. destruct (T3 t Ht) as [Hlt Hnone]. split; [lia|].
        intros ms id p Hlook. rewrite lookup_insert_ne in Hlook by lia.
        exact (Hnone _ _ _ Hlook).
      * intros k pc Hk. apply lookup_insert_Some in Hk as [[<- <-]|[Hne Hk]].
        -- exists (messageId m + 1)%Z. split; [lia | reflexivity].
        -- destruct (T4 k pc Hk) as (n & Hn & Hkn). exists n. split; [lia | exact Hkn].
      * lia.
  - destruct (send_closed_run m r data thrown) as (S1 & S2 & S3).
    { exact Hno. }
    destruct Hw as (T1 & T2 & T3 & T4 & T5). cbn [mgr rt] in T1, T2, T3, T4, T5.
    unfold timed. rewrite S1, S2, S3. split; [|split; [|split; [|split]]]; auto.
    + intros t Ht. specialize (T2 t Ht). lia.
    + intros t Ht. destruct (T3 t Ht). split; [lia | assumption].
Qed.

Lemma timed_disconnect : leads timed disconnect timed.
Proof.
  unfold disconnect. apply (leads_andthen _ timed); [apply timed_stopHeartbeat|].
  intros w Hw. destruct (ws (mgr w)); [|exact Hw].
  apply inert_timed; [|exact Hw]. auto with inert.
Qed.

Lemma timed_step (e : event) : leads timed (step e) timed.
Proof.
  intros w Hw. destruct e; cbn [step].
  - exact (inert_timed _ (inert_connect _) w Hw).
  - exact (timed_disconnect w Hw).
  - exact (timed_send _ _ w Hw).
  - exact (inert_timed _ (inert_on _ _) w Hw).
  - exact (inert_timed _ (inert_off _ _) w Hw).
  - destruct (sockets (rt w) !! s) as [[st q]|]; [|exact Hw].
    refine (leads_andthen _ timed _ _ _ _ _ w Hw);
      [apply inert_timed, inert_set_readyState | apply timed_onopen].
  - destruct (sockets (rt w) !! s); [|exact Hw]. exact (timed_handleMessage _ _ w Hw).
  - destruct (sockets (rt w) !! s) as [[st q]|]; [|exact Hw].
    exact (inert_timed _ (inert_onerror _ _) w Hw).
  - destruct (sockets (rt w) !! s); [|exact Hw].
    refine (leads_andthen _ timed _ _ _ _ _ w Hw);
      [apply inert_timed, inert_set_readyState | apply timed_onclose].
  - destruct (timers (rt w) !! t) as [[ms [| |id p]]|] eqn:Ht; [| | |exact Hw].
    + exact (inert_timed _ inert_heartbeat w Hw).
    + refine (leads_andthen _ timed _ _ _ _ _ w (conj Hw _));
        [apply timed_drop_timer | apply inert_timed, inert_connect |].
      intros k pc Hk Heq. subst t. destruct Hw as (T1 & _).
      rewrite (T1 k pc Hk) in Ht. discriminate.
    + unfold requestTimedOut. rewrite !andthen_run. cbn [fst].
      refine (inert_timed _ (inert_settle _ _) _ _).
      assert (Hforget : timed (assign_pendingRequests (delete id (pendingRequests (mgr w))) w).1)
        by exact (timed_forget id w Hw).
      assert (Hdrop : timed (with_runtime (drop_timer t)
                (assign_pendingRequests (delete id (pendingRequests (mgr w))) w).1).1).
      { apply timed_drop_timer. split; [exact Hforget|].
        destruct w as [m r]. cbn in *. intros k pc Hk Heq. subst t.
        apply lookup_delete_Some in Hk as [Hne Hk]. destruct Hw as (T1 & _).
        cbn in T1. rewrite (T1 k pc Hk) in Ht. congruence. }
      destruct w as [m r]. exact Hdrop.
Qed.

Lemma timed_create u key project max delay throws :
  timed (create u key project max delay throws).
Proof.
  split; [|split; [|split; [|split]]]; cbn.
  - intros k pc Hk. rewrite lookup_empty in Hk. discriminate.
  - intros t [v Ht]. rewrite lookup_empty in Ht. discriminate.
  - discriminate.
  - intros k pc Hk. rewrite lookup_empty in Hk. discriminate.
  - lia.
Qed.

Lemma timed_run (es : list event) : leads timed (run es) timed.
Proof.
  induction es as [|e es IH]; intros w Hw; [exact Hw|].
  change (run (e :: es)) with (step e >>> run es).
  rewrite andthen_run. cbn [fst]. apply IH, timed_step, Hw.
Qed.

Lemma member_head (k : string) (v : json) (rest : list (string * json)) :
  member k ((k, v) :: rest) = Some (default v (member k rest)).
Proof. cbn. destruct (member k rest); [reflexivity|]. rewrite String.eqb_refl. reflexivity. Qed.

(** X2.  On an open channel [send] takes the next value of the message
    counter as the request's identifier, which no pending request has; it
    arms a 15000 ms timer, records the request under that identifier and
    transmits the payload with the identifier put in front.  The returned
    promise stays pending.  A payload with an [id] member of its own
    overrides the identifier in the transmitted message. *)
Theorem send_on_open_channel_registers_request
    (es : list event) (u key project : string) (max delay : Z) (throws : option string)
    (s : nat) (data : list (string * json)) :
  let w := (run es (create u key project max delay throws)).1 in
  let id := String_of (messageId (mgr w) + 1) in
  let p := fresh (rt w) in
  let t := S (fresh (rt w)) in
  let message := JObj (("id", JStr id) :: data) in
  ws (mgr w) = Some s ->
  readyState (rt w) s = Some OPEN ->
  pendingRequests (mgr w) !! id = None
  ∧ (send data None w).2 = [SetTimer t 15000 (RequestTimeout id p); Transmit s message]
  ∧ pendingRequests (mgr (send data None w).1)
    = <[id := mkPending p t]> (pendingRequests (mgr w))
  ∧ messageId (mgr (send data None w).1) = (messageId (mgr w) + 1)%Z
  ∧ promises (rt (send data None w).1) !! p = Some Caller
  ∧ timers (rt (send data None w).1) !! t = Some (15000%Z, RequestTimeout id p)
  ∧ get "id" message = Got (Some (default (JStr id) (member "id" data))).
Proof.
  intros w id p t message Hws Hopen.
  assert (Hw : timed w) by apply timed_run, timed_create.
  split; [exact (timed_next_id w Hw)|].
  destruct w as [m r]. cbn [mgr rt] in *.
  destruct (send_open_run m r s data None Hws Hopen) as (S1 & _ & _ & _ & _ & S6 & S7 & S8 & S9).
  rewrite S6, S7, S1, S8, S9. repeat split.
  - apply lookup_insert_eq.
  - apply lookup_insert_eq.
  - unfold message. cbn [get]. rewrite member_head. reflexivity.
Qed.

(** X2 on a manager that connected and whose socket opened: the first
    request is ["1"]. *)
Lemma send_on_open_channel_registers_request_witness :
  let w := (run [CallConnect; Opened 1 0]
              (create "wss://example.test/ws" "key" "project" 5 3000 None)).1 in
  (send [("action", JStr "x")] None w).2
  = [SetTimer 4 15000 (RequestTimeout "1" 3);
     Transmit 1 (JObj [("id", JStr "1"); ("action", JStr "x")])]
  ∧ pendingRequests (mgr w) !! "1" = None.
Proof.
  intros w.
  destruct (send_on_open_channel_registers_request
              [CallConnect; Opened 1 0] "wss://example.test/ws" "key" "project" 5 3000 None
              1 [("action", JStr "x")])
    as (Hnew & Heff & _); [reflexivity | reflexivity |].
  split; [exact Heff | exact Hnew].
Defined.

(** X3.  When [ws.send] throws on an open channel, the request's timer is
    cleared, the promise is rejected with what was thrown, and the pending
    requests and the armed timers are those from before the call; the
    identifier is used up all the same. *)
Theorem send_that_throws_leaves_nothing_pending
    (es : list event) (u key project : string) (max delay : Z) (throws : option string)
    (s : nat) (data : list (string * json)) (e : string) :
  let w := (run es (create u key project max delay throws)).1 in
  let id := String_of (messageId (mgr w) + 1) in
  let p := fresh (rt w) in
  let t := S (fresh (rt w)) in
  ws (mgr w) = Some s ->
  readyState (rt w) s = Some OPEN ->
  (send data (Some e) w).2
  = [SetTimer t 15000 (RequestTimeout id p); ClearTimer t; Settle p (Rejected (Raised e))]
  ∧ pendingRequests (mgr (send data (Some e) w).1) = pendingRequests (mgr w)
  ∧ timers (rt (send data (Some e) w).1) = timers (rt w)
  ∧ promises (rt (send data (Some e) w).1) !! p = None
  ∧ messageId (mgr (send data (Some e) w).1) = (messageId (mgr w) + 1)%Z.
Proof.
  intros w id p t Hws Hopen.
  assert (Hw : timed w) by apply timed_run, timed_create.
  pose proof (timed_next_id w Hw) as Hnew.
  destruct Hw as (_ & T2 & _).
  destruct w as [m r]. cbn [mgr rt] in *.
  assert (Hfresh : timers r !! S (fresh r) = None).
  { destruct (timers r !! S (fresh r)) eqn:Ht; [|reflexivity].
    assert (S (fresh r) < fresh r) by (apply T2; eauto). lia. }
  destruct (send_open_run m r s data (Some e) Hws Hopen)
    as (S1 & _ & _ & _ & _ & S6 & S7 & S8 & S9).
  rewrite S6, S7, S1, S8, S9. repeat split.
  - apply delete_insert_id, Hnew.
  - apply delete_insert_id, Hfresh.
  - apply lookup_delete_eq.
Qed.

Lemma send_that_throws_leaves_nothing_pending_witness :
  let w := (run [CallConnect; Opened 1 0]
              (create "wss://example.test/ws" "key" "project" 5 3000 None)).1 in
  (send [("action", JStr "x")] (Some "EPIPE") w).2
  = [SetTimer 4 15000 (RequestTimeout "1" 3); ClearTimer 4;
     Settle 3 (Rejected (Raised "EPIPE"))]
  ∧ pendingRequests (mgr (send [("action", JStr "x")] (Some "EPIPE") w).1)
    = pendingRequests (mgr w).
Proof.
  intros w.
  destruct (send_that_throws_leaves_nothing_pending
              [CallConnect; Opened 1 0] "wss://example.test/ws" "key" "project" 5 3000 None
              1 [("action", JStr "x")] "EPIPE")
    as (Heff & Hpending & _); [reflexivity | reflexivity |].
  split; [exact Heff | exact Hpending].
Defined.

(** X4.  In every state the manager can be in, the timer of each pending
    request is armed with 15000 ms; when it fires, the request is rejected
    with the timeout error and leaves the pending set, and nothing that
    happens later settles its promise again. *)
Theorem pending_request_times_out
    (es : list event) (u key project : string) (max delay : Z) (throws : option string)
    (k : string) (pc : PendingCallback) :
  let w := (run es (create u key project max delay throws)).1 in
  let after := step (Fired (timeout pc)) w in
  pendingRequests (mgr w) !! k = Some pc ->
  timers (rt w) !! timeout pc = Some (15000%Z, RequestTimeout k (promise pc))
  ∧ deliverable w (Fired (timeout pc)) = true
  ∧ after.2 = [Settle (promise pc) (Rejected TimedOut)]
  ∧ pendingRequests (mgr after.1) = delete k (pendingRequests (mgr w))
  ∧ timers (rt after.1) !! timeout pc = None
  ∧ ∀ later, Forall (spares (promise pc)) (run later after.1).2.
Proof.
  intros w after Hk.
  assert (Hw : timed w) by apply timed_run, timed_create.
  assert (Kw : tracked w) by apply tracked_run, tracked_create.
  destruct Hw as (T1 & _). destruct Kw as (K1 & _).
  destruct (K1 k pc Hk) as (_ & Hpromise & Hlt).
  pose proof (T1 k pc Hk) as Htimer.
  split; [exact Htimer|]. split.
  { cbn [deliverable]. rewrite Htimer. apply bool_decide_eq_true. eauto. }
  subst after. cbn [step]. rewrite Htimer.
  destruct w as [m r]. cbn [mgr rt] in *.
  unfold requestTimedOut, andthen. cbn -[settle].
  rewrite settle_caller by exact Hpromise.
  cbn. split; [reflexivity|]. split; [reflexivity|]. split; [apply lookup_delete_eq|].
  intros later. apply (final_run (promise pc) later). split; cbn.
  - apply lookup_delete_eq.
  - exact Hlt.
Qed.

Lemma pending_request_times_out_witness :
  let w := (run [CallConnect; Opened 1 0; CallSend [("action", JStr "x")] None]
              (create "wss://example.test/ws" "key" "project" 5 3000 None)).1 in
  (step (Fired 4) w).2 = [Settle 3 (Rejected TimedOut)]
  ∧ pendingRequests (mgr (step (Fired 4) w).1) !! "1" = None.
Proof.
  intros w.
  destruct (pending_request_times_out
              [CallConnect; Opened 1 0; CallSend [("action", JStr "x")] None]
              "wss://example.test/ws" "key" "project" 5 3000 None "1" (mkPending 3 4))
    as (_ & _ & Heff & Hpending & _); [reflexivity|].
  split; [exact Heff|]. cbn [timeout] in Hpending. fold w in Hpending.
  rewrite Hpending. apply lookup_delete_eq.
Defined.
End Timeouts.

(* ===================================================================== *)
(** ** Frames, handles and heartbeats *)
(* ===================================================================== *)

Section Frames.
Import JS Types WS Correlator Clock.

(** X7.  A frame that does not parse, or parses to [null], is logged as a
    parse failure.  A frame that parses to a boolean, a number, a string or
    an array, and an object with no matching [id] and no truthy [type], is
    dropped without a trace.  None of them changes the manager or calls a
    listener. *)
Theorem frame_without_id_or_type_is_dropped (w : world) (now : Z) :
  handleMessage None now w = (w, [Console LParseFailure])
  ∧ handleMessage (Some JNull) now w = (w, [Console LParseFailure])
  ∧ (∀ message,
       message ≠ JNull -> (∀ members, message ≠ JObj members) ->
       handleMessage (Some message) now w = (w, []))
  ∧ (∀ members,
       matching (mgr w) (member "id" members) = None ->
       truthy_opt (member "type" members) = false ->
       handleMessage (Some (JObj members)) now w = (w, [])).
Proof.
  split; [reflexivity|]. split; [reflexivity|]. split.
  - intros message Hnull Hobj.
    destruct message; try reflexivity; [contradiction | exfalso; exact (Hobj _ eq_refl)].
  - intros members Hid Hty. unfold handleMessage. cbn [fields read get f_id f_type].
    rewrite Hid. destruct (member "type" members) as [ty|]; [|reflexivity].
    cbn in Hty. rewrite Hty. reflexivity.
Qed.

Lemma frame_without_id_or_type_is_dropped_witness :
  let w := (on "donation_pending" (Subscriber 0)
              (create "wss://example.test/ws" "key" "project" 5 3000 None)).1 in
  handleMessage (Some (JStr "donation_pending")) 7 w = (w, [])
  ∧ handleMessage (Some (JObj [("type", JStr ""); ("session", JNull)])) 7 w = (w, []).
Proof.
  intros w.
  destruct (frame_without_id_or_type_is_dropped w 7) as (_ & _ & Hother & Hobject).
  split.
  - apply Hother; [discriminate | intros members; discriminate].
  - apply Hobject; reflexivity.
Defined.

(** What [send] does when the channel is not open. *)
Lemma send_closed_effects (m : WebSocketManager) (r : runtime)
    (data : list (string * json)) (thrown : option string) :
  (∀ s, ws m = Some s -> readyState r s ≠ Some OPEN) ->
  (send data thrown (mkWorld m r)).2 = [Settle (fresh r) (Rejected NotConnected)].
Proof.
  intros Hclosed. unfold send, new_promise, andthen. cbn [fst snd rt mgr with_runtime].
  change (readyState (take_handle (put_promise (fresh r) Caller r))) with (readyState r).
  assert (Hsettle :
    settle (fresh r) (Rejected NotConnected)
      (mkWorld m (take_handle (put_promise (fresh r) Caller r)))
    = (mkWorld m (drop_promise (fresh r) (take_handle (put_promise (fresh r) Caller r))),
       [Settle (fresh r) (Rejected NotConnected)]))
    by (apply settle_caller; exact (lookup_insert_eq _ _ _)).
  destruct (ws m) as [s|] eqn:Hws.
  - specialize (Hclosed s eq_refl).
    destruct (readyState r s) as [[]|]; try (rewrite Hsettle; reflexivity). contradiction.
  - rewrite Hsettle. reflexivity.
Qed.

(** What [connect()] does when the constructor returns a socket. *)
Lemma connect_makes (m : WebSocketManager) (r : runtime) (h : holder) :
  constructor_throws r = None ->
  connect h (mkWorld m r)
  = (mkWorld
       (mkManager (Some (S (fresh r))) (url m) (apiKey m) (projectId m)
          (reconnectAttempts m) (maxReconnectAttempts m) (reconnectDelay m)
          (heartbeatInterval m) (listeners m) (pendingRequests m) (messageId m))
       (mkRuntime (<[S (fresh r) := (CONNECTING, fresh r)]> (sockets r)) (timers r)
          (<[fresh r := h]> (promises r)) (S (S (fresh r))) (constructor_throws r)),
     [Construct (S (fresh r))]).
Proof.
  intros Hthrows. destruct r as [sk tm pr fr ct]. cbn in Hthrows. subst ct.
  reflexivity.
Qed.

(** X8.  [connect()] makes a new socket whatever the state of the manager:
    the handle is replaced by the socket under construction, so
    [isConnected()] is false and [send] is refused until that socket opens;
    the sockets made before are neither closed nor changed.  When the
    constructor throws, the promise is rejected with what was thrown and
    the manager keeps the handle it had. *)
Theorem connect_replaces_the_handle (w : world) (h : holder) :
  (constructor_throws (rt w) = None ->
   let s := S (fresh (rt w)) in
   let after := (connect h w).1 in
   (connect h w).2 = [Construct s]
   ∧ ws (mgr after) = Some s
   ∧ sockets (rt after) !! s = Some (CONNECTING, fresh (rt w))
   ∧ (∀ s', s' ≠ s -> sockets (rt after) !! s' = sockets (rt w) !! s')
   ∧ isConnected after = false
   ∧ ∀ data thrown,
       (send data thrown after).2 = [Settle (fresh (rt after)) (Rejected NotConnected)])
  ∧ (∀ e, constructor_throws (rt w) = Some e ->
       mgr (connect h w).1 = mgr w
       ∧ sockets (rt (connect h w).1) = sockets (rt w)
       ∧ (h = Caller ->
          (connect h w).2 = [Settle (fresh (rt w)) (Rejected (Raised e))]))
  ∧ reconnectAttempts (mgr (connect h w).1) = reconnectAttempts (mgr w).
Proof.
  destruct w as [m r]. split; [|split].
  - intros Hthrows s after. subst s after. cbn [rt] in Hthrows.
    rewrite (connect_makes m r h Hthrows). cbn [fst snd mgr rt ws sockets fresh].
    split; [reflexivity|]. split; [reflexivity|]. split; [apply lookup_insert_eq|].
    split; [intros s' Hs'; apply lookup_insert_ne; congruence|].
    split.
    + unfold isConnected. cbn [mgr rt ws]. apply bool_decide_eq_false.
      unfold readyState. cbn [sockets]. rewrite lookup_insert_eq. discriminate.
    + intros data thrown. apply send_closed_effects.
      intros s' [= <-]. unfold readyState. cbn [sockets].
      rewrite lookup_insert_eq. discriminate.
  - intros e Hthrows.
    unfold connect, new_promise, andthen. cbn [fst snd rt mgr with_runtime] in *.
    cbn [take_handle put_promise constructor_throws]. rewrite Hthrows.
    destruct (settle_world (fresh r) (Rejected (Raised e))
                (mkWorld m (mkRuntime (sockets r) (timers r)
                              (<[fresh r := h]> (promises r)) (S (fresh r))
                              (constructor_throws r))))
      as (S1 & _ & _ & S4 & _).
    split; [|split].
    + destruct (settle _ _ _) as [v es] eqn:Hs. cbn in *. exact S1.
    + destruct (settle _ _ _) as [v es] eqn:Hs. cbn in *. exact S4.
    + intros ->. rewrite settle_caller by exact (lookup_insert_eq _ _ _). reflexivity.
  - apply connect_counter.
Qed.

Lemma connect_replaces_the_handle_witness :
  let w := (run [CallConnect; Opened 1 0]
              (create "wss://example.test/ws" "key" "project" 5 3000 None)).1 in
  isConnected w = true
  ∧ (connect Caller w).2 = [Construct 4]
  ∧ isConnected (connect Caller w).1 = false
  ∧ readyState (rt (connect Caller w).1) 1 = Some OPEN.
Proof.
  intros w.
  destruct (connect_replaces_the_handle w Caller) as (Hmakes & _).
  destruct (Hmakes eq_refl) as (Heff & _ & _ & Hkept & Hdown & _).
  split; [reflexivity|]. split; [exact Heff|]. split; [exact Hdown|].
  unfold readyState. rewrite Hkept by discriminate. reflexivity.
Defined.

(** What [onopen] leaves behind. *)
Lemma onopen_world (q : nat) (now : Z) (w : world) :
  heartbeatInterval (mgr (onopen q now w).1) = Some (fresh (rt w))
  ∧ timers (rt (onopen q now w).1) = <[fresh (rt w) := (30000%Z, Heartbeat)]> (timers (rt w))
  ∧ ws (mgr (onopen q now w).1) = ws (mgr w)
  ∧ sockets (rt (onopen q now w).1) = sockets (rt w)
  ∧ pendingRequests (mgr (onopen q now w).1) = pendingRequests (mgr w).
Proof.
  unfold onopen. rewrite !andthen_run. cbn [fst].
  match goal with
  | |- context [settle q ?res ?v] =>
      destruct (settle_world q res v) as (S1 & _ & S3 & S4 & _)
  end.
  rewrite S1, S3, S4, emit_world. destruct w as [m r]. cbn. auto.
Qed.

(** X9.  When a socket opens while a heartbeat is recorded, a second
    heartbeat timer is armed and recorded in its place; the first stays
    armed, and [disconnect()], which clears the recorded one, leaves it
    running. *)
Theorem second_open_leaves_the_first_heartbeat_running
    (es : list event) (u key project : string) (max delay : Z) (throws : option string)
    (s t : nat) (now ms : Z) :
  let w := (run es (create u key project max delay throws)).1 in
  let opened := (step (Opened s now) w).1 in
  is_Some (sockets (rt w) !! s) ->
  heartbeatInterval (mgr w) = Some t ->
  timers (rt w) !! t = Some (ms, Heartbeat) ->
  heartbeatInterval (mgr opened) = Some (fresh (rt w))
  ∧ fresh (rt w) ≠ t
  ∧ timers (rt opened) !! fresh (rt w) = Some (30000%Z, Heartbeat)
  ∧ timers (rt opened) !! t = Some (ms, Heartbeat)
  ∧ timers (rt (disconnect opened).1) !! fresh (rt w) = None
  ∧ timers (rt (disconnect opened).1) !! t = Some (ms, Heartbeat).
Proof.
  intros w opened [[st q] Hs] Hhb Ht.
  assert (Hw : timed w) by apply timed_run, timed_create.
  destruct Hw as (_ & T2 & _).
  assert (Hlt : t < fresh (rt w)) by (apply T2; eauto).
  assert (Hopened :
    heartbeatInterval (mgr opened) = Some (fresh (rt w))
    ∧ timers (rt opened) = <[fresh (rt w) := (30000%Z, Heartbeat)]> (timers (rt w))).
  { subst opened. cbn [step]. rewrite Hs. rewrite andthen_run. cbn [fst].
    destruct (onopen_world q now (with_runtime (set_readyState s OPEN) w).1)
      as (O1 & O2 & _).
    rewrite O1, O2. destruct w as [m r]. cbn [mgr rt with_runtime fst] in *.
    unfold set_readyState. rewrite Hs. auto. }
  destruct Hopened as [Hb Htm].
  destruct (disconnect_run opened) as (_ & _ & Hcleared & _ & Hothers & _).
  split; [exact Hb|]. split; [lia|].
  split; [rewrite Htm; apply lookup_insert_eq|].
  assert (Hstill : timers (rt opened) !! t = Some (ms, Heartbeat))
    by (rewrite Htm, lookup_insert_ne by lia; exact Ht).
  split; [exact Hstill|]. split.
  - apply (Hcleared _ Hb).
  - rewrite Hothers; [exact Hstill|]. rewrite Hb. intros [= Heq]. lia.
Qed.

Lemma second_open_leaves_the_first_heartbeat_running_witness :
  let w := (run [CallConnect; Opened 1 0; CallConnect]
              (create "wss://example.test/ws" "key" "project" 5 3000 None)).1 in
  let opened := (step (Opened 4 9) w).1 in
  heartbeatInterval (mgr opened) = Some 5
  ∧ timers (rt (disconnect opened).1) !! 5 = None
  ∧ timers (rt (disconnect opened).1) !! 2 = Some (30000%Z, Heartbeat).
Proof.
  intros w opened.
  destruct (second_open_leaves_the_first_heartbeat_running
              [CallConnect; Opened 1 0; CallConnect]
              "wss://example.test/ws" "key" "project" 5 3000 None 4 2 9 30000)
    as (Hb & _ & _ & _ & Hcleared & Hleft); [vm_compute; eauto | reflexivity | reflexivity |].
  split; [exact Hb|]. split; [exact Hcleared | exact Hleft].
Defined.
End Frames.

(* ===================================================================== *)
(** ** Stopping the poller *)
(* ===================================================================== *)

Section PollerStops.
Import JS Types Rest.

Lemma drop_all_creates (handles : list nat) (r : runtime) :
  creates (foldr drop_interval r handles) = creates r.
Proof. induction handles as [|h handles IH]; cbn; auto. Qed.

(** The handles [stopAllPolling] clears are the armed intervals. *)
Lemma consistent_handles (w : world) (t : nat) :
  consistent w ->
  t ∈ (map_to_list (pollingIntervals (client w))).*2 <-> is_Some (intervals (rt w) !! t).
Proof.
  intros (C1 & C2 & _). rewrite list_elem_of_fmap. split.
  - intros ([sessionId t'] & -> & Hin). apply elem_of_map_to_list in Hin.
    destruct (C1 _ _ Hin) as [cb Hcb]. cbn. eauto.
  - intros [[sessionId cb] Ht]. exists (sessionId, t). split; [reflexivity|].
    apply elem_of_map_to_list. exact (C2 _ _ _ Ht).
Qed.

Lemma stopAllPolling_empties (w : world) :
  consistent w -> intervals (rt (stopAllPolling w).1) = ∅.
Proof.
  intros Hw. rewrite stopAllPolling_run. cbn [fst rt].
  apply map_eq. intros t. rewrite drop_all_intervals, lookup_empty.
  destruct (decide (t ∈ (map_to_list (pollingIntervals (client w))).*2)) as [_|Hout];
    [reflexivity|].
  destruct (intervals (rt w) !! t) eqn:Ht; [|reflexivity].
  exfalso. apply Hout, consistent_handles; eauto.
Qed.

(** X10.  In every state the client can be in, [stopAllPolling] clears
    each armed interval once and only those, after which the map is empty,
    no interval is armed and none can tick.  It cancels no fetch: those in
    flight stay in flight. *)
Theorem stopAllPolling_clears_every_interval
    (es : list event) (base key project : string) :
  let w := (run es (create base key project)).1 in
  let after := stopAllPolling w in
  pollingIntervals (client after.1) = ∅
  ∧ intervals (rt after.1) = ∅
  ∧ (∀ t, deliverable after.1 (Ticked t) = false)
  ∧ (∀ t, ClearInterval t ∈ after.2 <-> is_Some (intervals (rt w) !! t))
  ∧ NoDup after.2
  ∧ polls (rt after.1) = polls (rt w)
  ∧ creates (rt after.1) = creates (rt w).
Proof.
  intros w after.
  assert (Hw : consistent w) by apply consistent_run, consistent_create.
  pose proof (stopAllPolling_empties w Hw) as Hempty.
  pose proof (fun t => consistent_handles w t Hw) as Hhandles.
  destruct Hw as (C1 & _).
  subst after. rewrite stopAllPolling_run in *. cbn [fst snd client rt pollingIntervals] in *.
  split; [reflexivity|]. split; [exact Hempty|]. split.
  { intros t. cbn [deliverable rt]. rewrite Hempty, lookup_empty.
    apply bool_decide_eq_false. intros [v Hv]. discriminate. }
  split.
  { intros t. rewrite <- Hhandles, list_elem_of_fmap. split.
    - intros (t' & [= ->] & Hin). exact Hin.
    - intros Hin. eauto. }
  split.
  { apply NoDup_fmap; [intros a b [= ->]; reflexivity|].
    apply NoDup_fmap_2_strong; [|apply NoDup_map_to_list].
    intros [s1 t1] [s2 t2] H1 H2 Heq. cbn in Heq. subst t2.
    apply elem_of_map_to_list in H1, H2.
    destruct (C1 _ _ H1) as [cb1 Hcb1]. destruct (C1 _ _ H2) as [cb2 Hcb2].
    congruence. }
  split; [apply drop_all_polls | apply drop_all_creates].
Qed.

(** X11.  An answered fetch of a tick calls the tick's callback whether or
    not the session is still polled: after [stopPolling] and after
    [stopAllPolling] the fetch is still in flight, and its answer is handed
    to the callback exactly as before. *)
Theorem answer_after_stop_still_calls_back
    (w : world) (f : nat) (sessionId other : string) (cb : PollCallback)
    (r : reply) (s : DonationSession) :
  polls (rt w) !! f = Some (sessionId, cb) ->
  getDonationSession r = Fulfilled s ->
  (∃ rest, (step (Polled f r) w).2 = CallPoll cb s :: rest)
  ∧ polls (rt (stopPolling other w).1) !! f = Some (sessionId, cb)
  ∧ deliverable (stopPolling other w).1 (Polled f r) = true
  ∧ (∃ rest, (step (Polled f r) (stopPolling other w).1).2 = CallPoll cb s :: rest)
  ∧ polls (rt (stopAllPolling w).1) !! f = Some (sessionId, cb)
  ∧ deliverable (stopAllPolling w).1 (Polled f r) = true
  ∧ (step (Polled f r) (stopAllPolling w).1).2
    = CallPoll cb s :: (if raises_on cb s then [PollingError sessionId] else []).
Proof.
  intros Hf Hs.
  assert (Hanswer : ∀ v, polls (rt v) !! f = Some (sessionId, cb) ->
            ∃ rest, (step (Polled f r) v).2 = CallPoll cb s :: rest).
  { intros v Hv. cbn [step]. rewrite Hv, rest_andthen_run, resume_run, Hs. cbn [fst snd app].
    destruct (raises_on cb s); [eauto|]. destruct (terminal (status s)); eauto. }
  assert (Hstop : polls (rt (stopPolling other w).1) = polls (rt w)).
  { unfold stopPolling. destruct (pollingIntervals (client w) !! other); [|reflexivity].
    rewrite rest_andthen_run. reflexivity. }
  assert (Hall : polls (rt (stopAllPolling w).1) = polls (rt w)).
  { rewrite stopAllPolling_run. apply drop_all_polls. }
  split; [exact (Hanswer w Hf)|].
  split; [rewrite Hstop; exact Hf|].
  split; [cbn [deliverable]; rewrite Hstop, Hf; apply bool_decide_eq_true; eauto|].
  split; [apply Hanswer; rewrite Hstop; exact Hf|].
  split; [rewrite Hall; exact Hf|].
  split; [cbn [deliverable]; rewrite Hall, Hf; apply bool_decide_eq_true; eauto|].
  cbn [step]. rewrite Hall, Hf, rest_andthen_run, resume_run, Hs. cbn [fst snd app].
  destruct (raises_on cb s); [reflexivity|].
  destruct (terminal (status s)); [|reflexivity].
  rewrite stopPolling_idle; [reflexivity|].
  cbn [with_runtime fst client]. rewrite stopAllPolling_run. apply lookup_empty.
Qed.

Lemma answer_after_stop_still_calls_back_witness :
  let cb := Observer 0 (fun _ => false) in
  let w := (run [CallStartPolling "s1" cb; Ticked 0]
              (create "https://example.test/api" "key" "project")).1 in
  let s := sample_session "s1" "confirmed" in
  (step (Polled 1 (Response true "OK" "" (Some s))) (stopAllPolling w).1).2
  = [CallPoll cb s].
Proof.
  intros cb w s.
  destruct (answer_after_stop_still_calls_back w 1 "s1" "s1" cb
              (Response true "OK" "" (Some s)) s)
    as (_ & _ & _ & _ & _ & _ & Hcalled); [reflexivity | reflexivity |].
  exact Hcalled.
Defined.
End PollerStops.

(* ===================================================================== *)
(** ** The facade: delivery and shutdown *)
(* ===================================================================== *)

Section FacadeStops.
Import JS Types Facade.

Lemma each_plain (es : list Rest.effect) (w : world) :
  each plain es w = (w, Poller <$> es).
Proof.
  induction es as [|e es IH]; [reflexivity|].
  rewrite each_cons. cbn [plain tell fst snd]. rewrite IH. reflexivity.
Qed.

(** What a tick's answer does in the facade. *)
Lemma each_after_poll (now : Z) (es : list Rest.effect) (w : world) :
  (each (after_poll now) es w).1 = w.
Proof. apply each_world. intros x v. apply after_poll_world. Qed.



(** What [disconnect()] of the facade leaves behind. *)
Lemma facade_disconnect_run (w : world) (m : WS.WebSocketManager) (rc : Rest.RestClient) :
  wsManager (sdk w) = Some m ->
  restClient (sdk w) = Some rc ->
  let cw := (WS.disconnect (WS.mkWorld m (channel w))).1 in
  let rw := (Rest.stopAllPolling (Rest.mkWorld rc (http w))).1 in
  (step CallDisconnect w).1
  = mkWorld (mkGiveBit (Some (WS.mgr cw)) (Some (Rest.client rw)) (config (sdk w))
               (eventListeners (sdk w)) ∅)
      (WS.rt cw) (Rest.rt rw).
Proof.
  intros Hm Hrc cw rw. cbn [step]. unfold disconnect.
  rewrite !facade_andthen_run. cbn [fst].
  rewrite (on_channel_run _ w m Hm). cbn zeta. cbn [fst].
  set (w1 := put_channel _ w).
  assert (Hrc1 : restClient (sdk w1) = Some rc) by exact Hrc.
  rewrite (on_rest_run _ _ w1 rc Hrc1). cbn zeta. rewrite each_plain. cbn [fst].
  reflexivity.
Qed.



(** X14.  When the POST of a create call fails (the fetch rejects, the
    response is not ok, or its body does not parse), the facade's
    [createDonationSession] rejects with that failure: the text of the
    response when it is not ok.  No session becomes active and no polling
    starts. *)
Theorem failed_create_starts_no_polling
    (es : list event) (cfg : GiveBitConfig) (throws : option string)
    (c : nat) (r : Rest.reply) :
  let w := (run es (create cfg throws)).1 in
  let after := step (Answered c r) w in
  let failure :=
    match r with
    | Rest.Unreachable what => Rest.Raised what
    | Rest.Response false _ text _ => Rest.CreateFailed text
    | Rest.Response true _ _ _ => Rest.Raised "json"
    end in
  c ∈ Rest.creates (http w) ->
  (∀ st tx session, r ≠ Rest.Response true st tx (Some session)) ->
  after.2 = [Poller (Rest.Settle c (Rest.Failed failure));
             CreateReturned (Rest.Failed failure)]
  ∧ activeSessions (sdk after.1) = activeSessions (sdk w)
  ∧ Rest.intervals (http after.1) = Rest.intervals (http w)
  ∧ restClient (sdk after.1) = restClient (sdk w)
  ∧ c ∉ Rest.creates (http after.1).
Proof.
  intros w after failure Hc Hfailed.
  assert (Hw : sound w) by apply sound_run, sound_create.
  destruct Hw as [_ (rw & Hrw & _)]. unfold poller in Hrw.
  destruct (restClient (sdk w)) as [rc|] eqn:Hrc; [|discriminate].
  subst after. cbn [step]. rewrite (on_rest_run _ _ w rc Hrc). cbn zeta.
  cbn [Rest.step Rest.rt]. rewrite bool_decide_eq_true_2 by exact Hc.
  unfold Rest.created. rewrite rest_andthen_run. cbn [fst snd Rest.with_runtime app].
  assert (Hsettle :
    (match r with
     | Rest.Unreachable what => Rest.tell (Rest.Settle c (Rest.Failed (Rest.Raised what)))
     | Rest.Response true _ _ (Some s) => Rest.tell (Rest.Settle c (Rest.Fulfilled s))
     | Rest.Response true _ _ None => Rest.tell (Rest.Settle c (Rest.Failed (Rest.Raised "json")))
     | Rest.Response false _ text _ => Rest.tell (Rest.Settle c (Rest.Failed (Rest.CreateFailed text)))
     end) = Rest.tell (Rest.Settle c (Rest.Failed failure))).
  { subst failure. destruct r as [what|[] st tx [session|]]; try reflexivity.
    exfalso. exact (Hfailed _ _ _ eq_refl). }
  rewrite Hsettle. cbn [Rest.tell fst snd]. rewrite each_cons. cbn [each skip fst snd].
  unfold after_create. rewrite facade_andthen_run. cbn [fst snd tell app].
  repeat split. cbn. apply not_elem_of_difference. right. apply elem_of_singleton. reflexivity.
Qed.

Lemma failed_create_starts_no_polling_witness :
  let cfg := mkConfig "project" "key" Config.testnet None None None None in
  let o := Rest.mkOptions (Rest.AmountNumber 1) "ETH" "holesky" (Some "0xC0FFEE")
             None None in
  let w := (run [CallCreate o] (create cfg None)).1 in
  (step (Answered 0 (Rest.Response false "Bad Request" "amount too small" None)) w).2
  = [Poller (Rest.Settle 0 (Rest.Failed (Rest.CreateFailed "amount too small")));
     CreateReturned (Rest.Failed (Rest.CreateFailed "amount too small"))].
Proof.
  intros cfg o w.
  destruct (failed_create_starts_no_polling [CallCreate o] cfg None 0
              (Rest.Response false "Bad Request" "amount too small" None))
    as (Heff & _); [apply (bool_decide_unpack _); vm_compute; exact I | discriminate |].
  exact Heff.
Defined.
End FacadeStops.

(* ===================================================================== *)
(** ** Forwarding of channel events *)
(* ===================================================================== *)

Section ChannelFrame.
Import JS Types WS Correlator Relay.

Ltac aloof_now := intros [m r]; cbn; auto.

Lemma aloof_skip : aloof skip.
Proof. aloof_now. Qed.
Lemma aloof_tell e : aloof (tell e).
Proof. aloof_now. Qed.

Lemma aloof_andthen (a b : action) : aloof a -> aloof b -> aloof (a >>> b).
Proof.
  intros Ha Hb w. rewrite andthen_run. cbn [fst].
  destruct (Ha w) as [A1 A2]. destruct (Hb (a w).1) as [B1 B2].
  rewrite B1, B2. auto.
Qed.

Lemma aloof_reading (a : world -> action) : (∀ v, aloof (a v)) -> aloof (fun w => a w w).
Proof. intros Ha w. exact (Ha w w). Qed.

Lemma aloof_assign_ws v : aloof (assign_ws v).
Proof. aloof_now. Qed.
Lemma aloof_assign_reconnectAttempts v : aloof (assign_reconnectAttempts v).
Proof. aloof_now. Qed.
Lemma aloof_assign_heartbeatInterval v : aloof (assign_heartbeatInterval v).
Proof. aloof_now. Qed.
Lemma aloof_with_runtime f : aloof (with_runtime f).
Proof. aloof_now. Qed.

Create HintDb aloof.
#[local] Hint Resolve aloof_skip aloof_tell aloof_andthen aloof_assign_ws
  aloof_assign_reconnectAttempts aloof_assign_heartbeatInterval aloof_with_runtime : aloof.

Lemma aloof_settle q r : aloof (settle q r).
Proof.
  intros w. unfold settle. destruct (promises (rt w) !! q) as [[]|].
  - refine (aloof_andthen _ _ _ _ w); auto with aloof.
  - refine (aloof_andthen _ _ _ _ w); [auto with aloof|]. destruct r; auto with aloof.
  - exact (aloof_skip w).
Qed.

Lemma aloof_emit ev d : aloof (emit ev d).
Proof. intros w. rewrite emit_world. auto. Qed.

Lemma aloof_arm ms k use : (∀ t, aloof (use t)) -> aloof (arm ms k use).
Proof.
  intros Huse. unfold arm.
  apply (aloof_reading (fun v =>
    with_runtime (fun r => take_handle (put_timer (fresh (rt v)) (ms, k) r))
    >>> tell (SetTimer (fresh (rt v)) ms k) >>> use (fresh (rt v)))).
  intros v. auto with aloof.
Qed.

Lemma aloof_disarm t : aloof (disarm t).
Proof. unfold disarm. auto with aloof. Qed.

Lemma aloof_new_promise h use : (∀ q, aloof (use q)) -> aloof (new_promise h use).
Proof.
  intros Huse. unfold new_promise.
  apply (aloof_reading (fun v =>
    with_runtime (fun r => take_handle (put_promise (fresh (rt v)) h r))
    >>> use (fresh (rt v)))).
  intros v. auto with aloof.
Qed.

Lemma aloof_socket_close s : aloof (socket_close s).
Proof.
  intros w. unfold socket_close. refine (aloof_andthen _ _ _ _ w); [|auto with aloof].
  destruct (readyState (rt w) s) as [[]|]; auto with aloof.
Qed.

#[local] Hint Resolve aloof_settle aloof_emit aloof_disarm aloof_socket_close : aloof.

Lemma aloof_startHeartbeat : aloof startHeartbeat.
Proof. apply aloof_arm. auto with aloof. Qed.

Lemma aloof_stopHeartbeat : aloof stopHeartbeat.
Proof.
  intros w. unfold stopHeartbeat. destruct (heartbeatInterval (mgr w)) as [t|].
  - refine (aloof_andthen _ _ _ _ w); auto with aloof.
  - exact (aloof_skip w).
Qed.

Lemma aloof_attemptReconnect : aloof attemptReconnect.
Proof.
  intros w. unfold attemptReconnect. case_match; [|apply aloof_tell].
  refine (aloof_andthen _ _ _ _ w); [auto with aloof|].
  apply (aloof_reading (fun v => tell _ >>> arm _ Reconnect (fun _ => skip))).
  intros v. apply aloof_andthen; [auto with aloof|]. apply aloof_arm. auto with aloof.
Qed.

#[local] Hint Resolve aloof_startHeartbeat aloof_stopHeartbeat aloof_attemptReconnect : aloof.

Lemma aloof_connect h : aloof (connect h).
Proof.
  apply aloof_new_promise. intros q w. destruct (constructor_throws (rt w)).
  - exact (aloof_settle _ _ w).
  - refine (aloof_andthen _ _ _ _ w); auto with aloof.
Qed.

Lemma aloof_onopen q now : aloof (onopen q now).
Proof. unfold onopen. auto 10 with aloof. Qed.

Lemma aloof_onerror q what : aloof (onerror q what).
Proof. unfold onerror. auto with aloof. Qed.

Lemma aloof_onclose now : aloof (onclose now).
Proof. unfold onclose. auto 10 with aloof. Qed.

Lemma aloof_heartbeat : aloof heartbeat.
Proof.
  intros w. unfold heartbeat. destruct (ws (mgr w)) as [s|]; [|apply aloof_skip].
  destruct (readyState (rt w) s) as [[]|]; first [apply aloof_tell | apply aloof_skip].
Qed.

Lemma aloof_disconnect : aloof disconnect.
Proof.
  unfold disconnect. apply aloof_andthen; [auto with aloof|].
  intros w. destruct (ws (mgr w)).
  - refine (aloof_andthen _ _ _ _ w); auto with aloof.
  - exact (aloof_skip w).
Qed.

Lemma aloof_relaying (a : action) (w : world) :
  aloof a -> relaying (mgr w) -> relaying (mgr (a w).1).
Proof. intros Ha [H1 H2]. destruct (Ha w) as [A1 A2]. split; congruence. Qed.

(** With no request pending a frame changes nothing. *)
Lemma relaying_handleMessage parsed now w :
  relaying (mgr w) -> (handleMessage parsed now w).1 = w.
Proof.
  intros [_ Hnone]. unfold handleMessage.
  destruct parsed as [message|]; [|reflexivity].
  destruct (fields message) as [f|]; [|reflexivity].
  rewrite matching_none by (intros k _; rewrite Hnone; apply lookup_empty).
  destruct (f_type f) as [ty|]; [|reflexivity].
  destruct (truthy ty); [apply emit_world | reflexivity].
Qed.

Lemma relaying_requestTimedOut id q w :
  relaying (mgr w) -> relaying (mgr (requestTimedOut id q w).1).
Proof.
  intros [H1 H2]. unfold requestTimedOut. rewrite andthen_run. cbn [fst].
  destruct (settle_world q (Rejected TimedOut)
              (assign_pendingRequests (delete id (pendingRequests (mgr w))) w).1) as (S1 & _).
  rewrite S1. destruct w as [m r]. cbn in *. split; [exact H1|].
  rewrite H2. apply delete_empty.
Qed.

(** The steps the facade asks of its channel manager keep it relaying. *)
Lemma relaying_step (e : event) (w : world) :
  (∀ data thrown, e ≠ CallSend data thrown) ->
  (∀ kind cb, e ≠ CallOn kind cb) ->
  (∀ kind cb, e ≠ CallOff kind cb) ->
  relaying (mgr w) -> relaying (mgr (step e w).1).
Proof.
  intros Hsend Hon Hoff Hw. destruct e; cbn [step].
  - apply aloof_relaying; [apply aloof_connect | exact Hw].
  - apply aloof_relaying; [apply aloof_disconnect | exact Hw].
  - exfalso. exact (Hsend _ _ eq_refl).
  - exfalso. exact (Hon _ _ eq_refl).
  - exfalso. exact (Hoff _ _ eq_refl).
  - destruct (sockets (rt w) !! s) as [[st q]|]; [|exact Hw].
    apply (aloof_relaying (with_runtime (set_readyState s OPEN) >>> onopen q now));
      [|exact Hw].
    apply aloof_andthen; [auto with aloof | apply aloof_onopen].
  - destruct (sockets (rt w) !! s); [|exact Hw].
    rewrite relaying_handleMessage by exact Hw. exact Hw.
  - destruct (sockets (rt w) !! s) as [[st q]|]; [|exact Hw].
    apply aloof_relaying; [apply aloof_onerror | exact Hw].
  - destruct (sockets (rt w) !! s); [|exact Hw].
    apply (aloof_relaying (with_runtime (set_readyState s CLOSED) >>> onclose now));
      [|exact Hw].
    apply aloof_andthen; [auto with aloof | apply aloof_onclose].
  - destruct (timers (rt w) !! t) as [[ms [| |id q]]|]; [| | |exact Hw].
    + apply aloof_relaying; [apply aloof_heartbeat | exact Hw].
    + apply (aloof_relaying (with_runtime (drop_timer t) >>> connect Catcher)); [|exact Hw].
      apply aloof_andthen; [auto with aloof | apply aloof_connect].
    + rewrite andthen_run. cbn [fst]. apply relaying_requestTimedOut. exact Hw.
Qed.
End ChannelFrame.

Section Forwarding.
Import JS Types Facade Relay.

Lemma forwarders_lookup (k : string) :
  forwarders !! k = if decide (k ∈ event_kinds) then Some [Forwarder] else None.
Proof.
  unfold forwarders. generalize event_kinds. intros kinds.
  induction kinds as [|kind kinds IH]; cbn [foldr].
  - rewrite lookup_empty. destruct (decide (k ∈ [])) as [Hin|_]; [inversion Hin | reflexivity].
  - destruct (decide (k = kind)) as [->|Hne].
    + rewrite lookup_insert_eq. destruct (decide (kind ∈ kind :: kinds)) as [_|Hout];
        [reflexivity | exfalso; apply Hout; left].
    + rewrite lookup_insert_ne by congruence. rewrite IH.
      destruct (decide (k ∈ kinds)) as [Hin|Hout].
      * destruct (decide (k ∈ kind :: kinds)) as [_|Hout]; [reflexivity|].
        exfalso. apply Hout. right. exact Hin.
      * destruct (decide (k ∈ kind :: kinds)) as [Hin|_]; [|reflexivity].
        apply elem_of_cons in Hin as [->|Hin]; [congruence | contradiction].
Qed.

Lemma keeps_skip : keeps_manager skip.
Proof. intros w. reflexivity. Qed.
Lemma keeps_tell e : keeps_manager (tell e).
Proof. intros w. reflexivity. Qed.

Lemma keeps_andthen (a b : action) :
  keeps_manager a -> keeps_manager b -> keeps_manager (a >>> b).
Proof.
  intros Ha Hb w. rewrite facade_andthen_run. cbn [fst]. rewrite Hb. apply Ha.
Qed.

Lemma keeps_each {A : Type} (f : A -> action) (l : list A) :
  (∀ x, keeps_manager (f x)) -> keeps_manager (each f l).
Proof.
  intros Hf. induction l as [|x l IH]; [apply keeps_skip|].
  intros w. rewrite each_cons. cbn [fst]. rewrite IH. apply Hf.
Qed.

Lemma keeps_on_rest (a : Rest.action) (after : Rest.effect -> action) :
  (∀ e, keeps_manager (after e)) -> keeps_manager (on_rest a after).
Proof.
  intros Hafter w. unfold on_rest. destruct (restClient (sdk w)) as [rc|]; [|reflexivity].
  destruct (a _) as [rw es]. rewrite (keeps_each after es Hafter). reflexivity.
Qed.

Lemma keeps_plain e : keeps_manager (plain e).
Proof. intros w. reflexivity. Qed.

Lemma keeps_after_poll now e : keeps_manager (after_poll now e).
Proof. intros w. rewrite after_poll_world. reflexivity. Qed.

Lemma keeps_after_create e : keeps_manager (after_create e).
Proof.
  unfold after_create. apply keeps_andthen; [apply keeps_tell|].
  destruct e as [| | | | |c [session|failure]]; try apply keeps_skip.
  apply keeps_andthen; [intros w; reflexivity|].
  apply keeps_andthen; [|apply keeps_tell].
  apply keeps_on_rest. apply keeps_plain.
Qed.

(** The manager the facade has after a step of its channel. *)
Lemma on_channel_manager (a : WS.action) (w : world) (m : WS.WebSocketManager) :
  wsManager (sdk w) = Some m ->
  wsManager (sdk (on_channel a w).1) = Some (WS.mgr (a (WS.mkWorld m (channel w))).1).
Proof. intros Hm. rewrite (on_channel_run a w m Hm). reflexivity. Qed.

Lemma relaying_create (cfg : GiveBitConfig) (throws : option string) :
  ∃ m, wsManager (sdk (create cfg throws)) = Some m ∧ relaying m.
Proof.
  eexists. split; [vm_compute; reflexivity|]. split; vm_compute; reflexivity.
Qed.

Lemma relaying_facade_step (e : event) (w : world) :
  (∃ m, wsManager (sdk w) = Some m ∧ relaying m) ->
  ∃ m, wsManager (sdk (step e w).1) = Some m ∧ relaying m.
Proof.
  intros (m & Hm & Hrel).
  assert (Hchannel : ∀ ce : WS.event,
    (∀ data thrown, ce ≠ WS.CallSend data thrown) ->
    (∀ kind cb, ce ≠ WS.CallOn kind cb) ->
    (∀ kind cb, ce ≠ WS.CallOff kind cb) ->
    ∃ m', wsManager (sdk (on_channel (WS.step ce) w).1) = Some m' ∧ relaying m').
  { intros ce H1 H2 H3. eexists. split; [apply (on_channel_manager _ w m Hm)|].
    apply (relaying_step ce (WS.mkWorld m (channel w)) H1 H2 H3). exact Hrel. }
  assert (Hkept : ∀ a, keeps_manager a -> ∃ m', wsManager (sdk (a w).1) = Some m' ∧ relaying m').
  { intros a Ha. exists m. rewrite Ha. auto. }
  destruct e; cbn [step].
  - unfold connect. rewrite Hm. exact (Hchannel WS.CallConnect
      ltac:(discriminate) ltac:(discriminate) ltac:(discriminate)).
  - apply Hkept. intros v. unfold createDonationSession.
    destruct (restClient (sdk v)); [|reflexivity].
    apply keeps_on_rest. apply keeps_after_create.
  - apply Hkept. intros v. reflexivity.
  - apply Hkept. intros v. unfold off. destruct (eventListeners (sdk v) !! kind); reflexivity.
  - unfold disconnect. rewrite facade_andthen_run. cbn [fst].
    destruct (Hchannel WS.CallDisconnect
      ltac:(discriminate) ltac:(discriminate) ltac:(discriminate)) as (m' & Hm' & Hrel').
    exists m'. split; [|exact Hrel'].
    rewrite (keeps_andthen _ _ (keeps_on_rest Rest.stopAllPolling plain keeps_plain)
               (fun v => eq_refl : wsManager (sdk (assign_activeSessions ∅ v).1) = wsManager (sdk v))).
    exact Hm'.
  - apply Hchannel; discriminate.
  - apply Hchannel; discriminate.
  - apply Hchannel; discriminate.
  - apply Hchannel; discriminate.
  - apply Hchannel; discriminate.
  - apply Hkept. apply keeps_on_rest. apply keeps_plain.
  - apply Hkept. apply keeps_on_rest. apply keeps_after_poll.
  - apply Hkept. apply keeps_on_rest. apply keeps_after_create.
Qed.

Lemma relaying_facade_run (es : list event) (w : world) :
  (∃ m, wsManager (sdk w) = Some m ∧ relaying m) ->
  ∃ m, wsManager (sdk (run es w).1) = Some m ∧ relaying m.
Proof.
  revert w. induction es as [|e es IH]; intros w Hw; [exact Hw|].
  change (run (e :: es)) with (step e >>> run es).
  rewrite facade_andthen_run. cbn [fst]. apply IH, relaying_facade_step, Hw.
Qed.


End Forwarding.

(* ===================================================================== *)
(** ** The create request *)
(* ===================================================================== *)

Section CreateRequest.
Import JS Types Rest.

(** A wallet that is not blank is not missing. *)
Lemma wallet_given (o : options) (s : string) :
  creatorWallet o = Some s -> ¬ blank s -> wallet_missing o = false.
Proof.
  intros Hs Hblank. unfold wallet_missing. rewrite Hs.
  apply orb_false_intro; apply String.eqb_neq; intros Heq; apply Hblank.
  - rewrite Heq. constructor.
  - apply trim_empty_iff. exact Heq.
Qed.

(** X17.  The wallet is validated trimmed and posted as given.  For a
    wallet that is not blank, [createDonationSession] makes one request, a
    POST of an object whose [creator_wallet] is the wallet of the options
    with its surrounding white space, whose [donor_wallet] is there exactly
    when the options have one, whose [metadata] is that of the options or
    [{}] when they have none or a falsy one, and whose [currency] and
    [network] are those of the options. *)
Theorem wallet_is_posted_as_given (o : options) (w : world) (s : string) :
  creatorWallet o = Some s ->
  ¬ blank s ->
  ∃ members,
    (createDonationSession o w).2
    = [Fetch (fresh (rt w)) (POST_session (JObj members))]
    ∧ member "creator_wallet" members = Some (JStr s)
    ∧ member "donor_wallet" members = JStr <$> donorWallet o
    ∧ member "metadata" members = Some (or_else (metadata o) (JObj []))
    ∧ member "currency" members = Some (JStr (currency o))
    ∧ member "network" members = Some (JStr (network o)).
Proof.
  intros Hs Hblank. unfold createDonationSession.
  rewrite (wallet_given o s Hs Hblank). rewrite rest_andthen_run.
  unfold create_body. rewrite Hs. eexists. split; [reflexivity|].
  destruct (donorWallet o); repeat split; reflexivity.
Qed.

Lemma wallet_is_posted_as_given_witness :
  let o := mkOptions (AmountNumber 5) "ETH" "holesky" (Some " 0xabc ") None None in
  let w := mkWorld (mkClient "https://example.test" "key" "project" ∅)
             (mkRuntime ∅ ∅ ∅ 0) in
  ¬ blank " 0xabc "
  ∧ ∃ members,
      (createDonationSession o w).2 = [Fetch 0 (POST_session (JObj members))]
      ∧ member "creator_wallet" members = Some (JStr " 0xabc ")
      ∧ member "donor_wallet" members = None
      ∧ member "metadata" members = Some (JObj []).
Proof.
  intros o w.
  assert (Hblank : ¬ blank " 0xabc ").
  { intros H. apply trim_empty_iff in H. vm_compute in H. discriminate. }
  split; [exact Hblank|].
  destruct (wallet_is_posted_as_given o w " 0xabc " eq_refl Hblank)
    as (members & Hrun & Hwallet & Hdonor & Hmeta & _).
  exists members. auto.
Defined.
End CreateRequest.
